(** * CountMin sketch with dyadic ranges (countmin.c): a shallow embedding

    The C code works on [int64] values, on [uint64] widths and on IEEE
    doubles ([log2], [pow], [float8] division).  Integers are modelled as
    [Z] with the wrap-around of each C conversion written out; a double
    that holds an integer value is modelled by that integer, after the
    rounding to 53 significant bits that the conversion performs. *)

From Stdlib Require Import ZArith Lia Bool String DecimalString.
From stdpp Require Import list numbers.

Local Open Scope Z_scope.

(** ** Machine integers *)

Definition INT64_MIN : Z := - 2 ^ 63.
Definition INT64_MAX : Z := 2 ^ 63 - 1.

(** Conversion of a mathematical result to [int64] (two's complement). *)
Definition wrap64 (z : Z) : Z := (z + 2 ^ 63) mod 2 ^ 64 - 2 ^ 63.

(** Conversion of an [int64] to [uint64], as the usual arithmetic
    conversions do when the other operand is a [uint64]. *)
Definition to_uint64 (z : Z) : Z := z mod 2 ^ 64.

Definition in_int64 (z : Z) : Prop := INT64_MIN <= z <= INT64_MAX.

(** Modelled from the spec: countmin.h, which defines MINVAL, MAXVAL and
    LONGBITS, is not part of the sources.  The spec gives the value domain
    as the signed 64-bit range "[MINVAL, MAXVAL]", its extremes being the
    minimum and maximum representable signed values, with one dyadic
    level per bit of the domain. *)
Definition MINVAL : Z := INT64_MIN.
Definition MAXVAL : Z := INT64_MAX.
Definition LONGBITS : Z := 64.
Definition RANGES : Z := LONGBITS.

(** ** Doubles holding integer values *)

(** [rne x y]: the integer nearest to the rational [x / y] ([0 < y]),
    ties going to the even one. *)
Definition rne (x y : Z) : Z :=
  let k := x / y in
  let r := x mod y in
  if 2 * r <? y then k
  else if y <? 2 * r then k + 1
  else if Z.even k then k else k + 1.

(** [(double) x] for a non-negative integer [x]: at most 53 significant
    bits are kept, rounding to nearest, ties to even. *)
Definition round53 (x : Z) : Z :=
  let e := Z.log2 x - 52 in
  if e <=? 0 then x else 2 ^ e * rne x (2 ^ e).

(** [(double) x] for an [int64] [x]. *)
Definition int64_to_double (x : Z) : Z :=
  if x <? 0 then - round53 (- x) else round53 x.

(** ** Range decomposition: [find_ranges] *)

Definition span : Type := Z * Z.

(** A call either returns to its caller or never does (the correction loop
    of [find_ranges_internal] spins, or a modulus by a zero width traps). *)
Inductive status : Type := Returned | NoReturn.

(** The spans a call appended to the [rangelist], in order, and how the
    call ended. *)
Definition emitted : Type := list span * status.

(** Two calls in sequence: the second one runs only if the first returned. *)
Definition seq_emit (a b : emitted) : emitted :=
  match a with
  | (l, Returned) => (l ++ b.1, b.2)
  | (l, NoReturn) => (l, NoReturn)
  end.

Section Decomposition.

(** [trunc(log2(x))] of the platform's libm, for a double [x] that holds
    a positive integer.  The C library is not part of the sources. *)
Variable log2_trunc : Z -> Z.

(** [while (pow(2,dyad) > w) dyad--;] entered with [dyad = d] and the
    comparison done on doubles ([dw] is [w] converted).  For [dw <= 0]
    every power of two compares greater and the loop never exits. *)
Fixpoint dyad_correct (d : nat) (dw : Z) : option nat :=
  if dw <? 2 ^ Z.of_nat d then
    match d with
    | O => None
    | S d' => dyad_correct d' dw
    end
  else Some d.

(** The value of [dyad] after the correction loop, for the [int64]
    width [w].  [None]: the loop never exits ([w] not positive: [log2]
    yields NaN), or the width computed from a negative [dyad] is zero
    and the modulus that follows traps. *)
Definition largest_dyad (w : Z) : option nat :=
  let dw := int64_to_double w in
  if dw <=? 0 then None
  else
    let d0 := log2_trunc dw in
    if d0 <? 0 then None else dyad_correct (Z.to_nat d0) dw.

(** [find_ranges_internal] by recursion on [levels = power + 1], so that
    [power < 0] is [levels = 0]. *)
Fixpoint find_ranges_levels (levels : nat) (bot top : Z) : emitted :=
  match levels with
  | O => ([], Returned)
  | S lower =>
    if top <? bot then ([], Returned)
    else if top =? bot then ([(bot, bot)], Returned)
    else if (0 <=? top) && (bot <? 0) then
      seq_emit (find_ranges_levels lower bot (-1))
               (find_ranges_levels lower 0 top)
    else
      match largest_dyad (wrap64 (top - bot + 1)) with
      | None => ([], NoReturn)
      | Some dyad =>
        let width := 2 ^ Z.of_nat dyad in
        if (bot =? MINVAL) || (to_uint64 bot mod width =? 0) then
          seq_emit ([(bot, wrap64 (to_uint64 bot + width - 1))], Returned)
                   (find_ranges_levels lower
                      (wrap64 (to_uint64 bot + width)) top)
        else if (top =? MAXVAL)
                || (to_uint64 (wrap64 (top + 1)) mod width =? 0) then
          seq_emit ([(wrap64 (to_uint64 top - width + 1), top)], Returned)
                   (find_ranges_levels lower bot
                      (wrap64 (to_uint64 top - width)))
        else
          let power_of_2 := wrap64 (width * (to_uint64 top / width)) in
          seq_emit (find_ranges_levels lower bot (wrap64 (power_of_2 - 1)))
                   (find_ranges_levels lower power_of_2 top)
      end
  end.

Definition find_ranges_internal (bot top power : Z) : emitted :=
  find_ranges_levels (Z.to_nat (power + 1)) bot top.

(** [find_ranges] appends to the caller's [rangelist] [r]. *)
Definition find_ranges (bot top : Z) (r : list span) : list span * status :=
  let (l, st) := find_ranges_internal bot top (RANGES - 1) in (r ++ l, st).

End Decomposition.

(** ** The sketch: counters, hash lanes, insertion, merge, point query *)

(** What an entry point or helper hands back: a value, an error raised
    with [elog(ERROR, ...)], or no result at all (the call loops forever,
    traps, or indexes outside the sketch array). *)
Inductive elog_error : Type :=
| MaximumCountExceeded      (* "maximum count exceeded in sketch" *)
| DestructiveOutsideAgg     (* "destructive pass by reference outside agg" *)
| CentileOutOfRange.        (* "centiles must be between 1-99 inclusive" *)

Inductive result (A : Type) : Type :=
| Val (a : A)
| Elog (e : elog_error)
| NoResult.
Arguments Val {A} a.
Arguments Elog {A} e.
Arguments NoResult {A}.

#[global] Instance result_ret : MRet result := fun A a => Val a.

#[global] Instance result_bind : MBind result := fun A B k r =>
  match r with
  | Val a => k a
  | Elog e => Elog e
  | NoResult => NoResult
  end.

(** [LONG_MAX] on the LP64 platforms the code is written for. *)
Definition LONG_MAX : Z := 2 ^ 63 - 1.

(** The ceiling tested by [increment_counter]: [LONG_MAX >> 1]. *)
Definition COUNT_CEILING : Z := Z.shiftr LONG_MAX 1.

(** [countmin]: [int64 [DEPTH][NUMCOUNTERS]], rows of counters. *)
Abbreviation countmin := (list (list Z)).

Definition counter_at (sketch : countmin) (i col : nat) : Z :=
  default 0 (sketch !! i ≫= (.!! col)).

Definition set_counter (sketch : countmin) (i col : nat) (v : Z) : countmin :=
  alter (<[col := v]>) i sketch.

(** [cmtransval]: the payload of an initialised transition blob. *)
Record cmtransval : Type := mk_transval {
  typOid : Z;
  outFuncOid : Z;
  sketches : list countmin
}.

(** A [bytea] handed in as transition value: shorter than
    [CM_TRANSVAL_SZ] (not yet initialised), or holding a [cmtransval]. *)
Inductive transblob : Type :=
| ShortBlob
| FullBlob (t : cmtransval).

(** [INT8OID] of PostgreSQL's catalog/pg_type.h. *)
Definition INT8OID : Z := 20.

(** [newsketches[i][j][k] += sketches2[i][j][k]] on [int64]. *)
Definition add_counter (a b : Z) : Z := wrap64 (a + b).

(** The lambdas of [hash_counters_iterate] read or update the sketch in
    place and may raise: they map the sketch to the sketch left in memory
    and the outcome. *)
Definition lambda : Type := nat -> nat -> countmin -> Z -> countmin * result Z.

Definition increment_counter : lambda := fun i col sketch transval =>
  let oldval := counter_at sketch i col in
  if counter_at sketch i col =? COUNT_CEILING then
    (sketch, Elog MaximumCountExceeded)
  else
    (set_counter sketch i col (wrap64 (oldval + 1)), Val (wrap64 (oldval + 1))).

Definition min_counter : lambda := fun i col sketch transval =>
  let thisval := counter_at sketch i col in
  (sketch, Val (if thisval <? transval then thisval else transval)).

Section Sketch.

(** Modelled from the spec: DEPTH ("rows", the number of hash trials)
    and NUMCOUNTERS ("columns") are defined in countmin.h, which is not
    part of the sources; the spec leaves their values open. *)
Variable DEPTH : nat.
Variable NUMCOUNTERS : nat.

(** [md5_lane funcOid dat i]: the [unsigned short] stored at byte offset
    [2*i] of [md5_datum(OidOutputFunctionCall(funcOid, dat))].  The
    output function and the digest are PostgreSQL's. *)
Variable md5_lane : Z -> Z -> nat -> Z.

(** [getTypeOutputInfo]: the output function of a type, from the
    catalog. *)
Variable getTypeOutputInfo : Z -> Z.

Definition zero_sketches : list countmin :=
  replicate (Z.to_nat RANGES) (replicate DEPTH (replicate NUMCOUNTERS 0)).

Definition cmsketch_check_transval (b : transblob) : transblob :=
  match b with
  | ShortBlob =>
      FullBlob {| typOid := INT8OID;
                  outFuncOid := getTypeOutputInfo INT8OID;
                  sketches := zero_sketches |}
  | FullBlob t => FullBlob t
  end.

(** The loop of [hash_counters_iterate], with [todo] rows left and [i]
    the current row; [hashval i] is the lane of row [i]. *)
Fixpoint iterate_rows (hashval : nat -> Z) (lambdaptr : lambda)
    (todo i : nat) (sketch : countmin) (retval : Z) : countmin * result Z :=
  match todo with
  | O => (sketch, Val retval)
  | S todo' =>
    let col := Z.to_nat (hashval i mod Z.of_nat NUMCOUNTERS) in
    match lambdaptr i col sketch retval with
    | (sketch', Val retval') =>
        iterate_rows hashval lambdaptr todo' (S i) sketch' retval'
    | (sketch', failed) => (sketch', failed)
    end
  end.

Definition hash_counters_iterate (hashval : nat -> Z) (sketch : countmin)
    (initial : Z) (lambdaptr : lambda) : countmin * result Z :=
  iterate_rows hashval lambdaptr DEPTH 0%nat sketch initial.

Definition countmin_trans_c (sketch : countmin) (dat funcOid : Z)
    : countmin * result Z :=
  hash_counters_iterate (md5_lane funcOid dat) sketch 0 increment_counter.

(** The loop of [countmin_dyadic_trans_c]: [todo] levels left, [j] the
    current one.  [inputi >>= 1] is an arithmetic shift. *)
Fixpoint dyadic_loop (todo j : nat) (funcOid : Z) (sk : list countmin)
    (inputi : Z) : list countmin * result unit :=
  match todo with
  | O => (sk, Val tt)
  | S todo' =>
    match countmin_trans_c (default [] (sk !! j)) inputi funcOid with
    | (level', Val _) =>
        dyadic_loop todo' (S j) funcOid (<[j := level']> sk)
                    (Z.shiftr inputi 1)
    | (level', Elog e) => (<[j := level']> sk, Elog e)
    | (level', NoResult) => (<[j := level']> sk, NoResult)
    end
  end.

Definition countmin_dyadic_trans_c (transval : cmtransval) (inputi : Z)
    : cmtransval * result unit :=
  let (sk, r) := dyadic_loop (Z.to_nat RANGES) 0%nat (outFuncOid transval)
                   (sketches transval) inputi in
  ({| typOid := typOid transval; outFuncOid := outFuncOid transval;
      sketches := sk |}, r).

(** [cmsketch_trans]: [in_agg] tells whether the call comes from an
    aggregate; the second argument is [None] for SQL NULL. *)
Definition cmsketch_trans (in_agg : bool) (arg0 : transblob)
    (arg1 : option Z) : result transblob :=
  if negb in_agg then Elog DestructiveOutsideAgg
  else
    match cmsketch_check_transval arg0 with
    | ShortBlob => NoResult
    | FullBlob transval =>
      match arg1 with
      | Some v =>
          let (transval', r) := countmin_dyadic_trans_c transval v in
          _ ← r; Val (FullBlob transval')
      | None => Val (FullBlob transval)
      end
    end.

(** [cmsketch_combine]: a copy of the first blob, to which the three
    nested loops add the second one's counters at every index. *)
Definition combine_sketches (s1 s2 : list countmin) : list countmin :=
  zip_with (zip_with (zip_with add_counter)) s1 s2.

Definition cmsketch_combine (arg0 arg1 : transblob) : result transblob :=
  match cmsketch_check_transval arg0, cmsketch_check_transval arg1 with
  | FullBlob t1, FullBlob t2 =>
      Val (FullBlob {| typOid := typOid t1; outFuncOid := outFuncOid t1;
                       sketches := combine_sketches (sketches t1)
                                                    (sketches t2) |})
  | _, _ => NoResult
  end.

Definition cmsketch_getcount_c (sketch : countmin) (arg funcOid : Z)
    : result Z :=
  (hash_counters_iterate (md5_lane funcOid arg) sketch LONG_MAX
                         min_counter).2.

(** [cmsketch_getcount] on a non-NULL argument of the sketch's type. *)
Definition cmsketch_getcount (arg0 : transblob) (arg1 : Z) : result Z :=
  match cmsketch_check_transval arg0 with
  | ShortBlob => NoResult
  | FullBlob transval =>
      cmsketch_getcount_c (default [] (sketches transval !! 0%nat)) arg1
                          (outFuncOid transval)
  end.

End Sketch.

(** ** Arithmetic on doubles used by the queries *)

(** [trunc(x / y)] with the division done on doubles, for doubles holding
    the integers [0 <= x] and [0 < y <= 2^53]: the quotient is rounded to
    53 significant bits (nearest, ties to even) before it is truncated.
    A quotient below one stays below one. *)
Definition trunc_fdiv (x y : Z) : Z :=
  if x <? y then 0
  else
    let n := Z.log2 (x / y) in
    if 52 <=? n then 2 ^ (n - 52) * rne x (y * 2 ^ (n - 52))
    else rne (x * 2 ^ (52 - n)) y / 2 ^ (52 - n).

(** The same for a dividend of either sign. *)
Definition double_div_trunc (x y : Z) : Z :=
  if x <? 0 then - trunc_fdiv (- x) y else trunc_fdiv x y.

(** The product of two doubles holding the integers [x] and [0 <= y]. *)
Definition double_mul (x y : Z) : Z :=
  if x <? 0 then - round53 (- x * y) else round53 (x * y).

(** [(int64)(total * (float8)intcentile/100.0)]. *)
Definition centile_count (total intcentile : Z) : Z :=
  double_div_trunc (double_mul (int64_to_double total) intcentile) 100.

(** [MAX(trunc((float8)(max-min+1) / (float8)buckets), 1)] stored in the
    [int64] [step], for [buckets >= 1]. *)
Definition histogram_step (min max buckets : Z) : Z :=
  wrap64 (Z.max (double_div_trunc
                   (int64_to_double (wrap64 (max - min + 1))) buckets) 1).

(** ** Range count, centile and equi-width histogram *)

(** The binary search of [cmsketch_centile_c], over the count of
    [[MINVAL, guess]] given by [count_upto]; [todo] iterations are left
    before [i] reaches [LONGBITS - 1]. *)
Fixpoint centile_search (count_upto : Z -> result Z) (todo : nat)
    (centile_cnt loguess higuess curguess : Z) : result Z :=
  match todo with
  | O => Val curguess
  | S todo' =>
    if 1 <? wrap64 (higuess - loguess) then
      curcount ← count_upto curguess;
      if curcount =? centile_cnt then Val curguess
      else if centile_cnt <? curcount then
        centile_search count_upto todo' centile_cnt loguess curguess
          (wrap64 (loguess + Z.quot (wrap64 (curguess - loguess)) 2))
      else
        centile_search count_upto todo' centile_cnt curguess higuess
          (wrap64 (higuess - Z.quot (wrap64 (higuess - curguess)) 2))
    else Val curguess
  end.

Section Queries.

Variable log2_trunc : Z -> Z.
Variable DEPTH : nat.
Variable NUMCOUNTERS : nat.
Variable md5_lane : Z -> Z -> nat -> Z.
Variable getTypeOutputInfo : Z -> Z.

(** The loop of [cmsketch_rangecount_c] over the spans found.  The
    sketch of a span is picked by [log2] of its width; the value looked
    up is the low bound shifted as a [Datum], that is unsigned. *)
Fixpoint sum_spans (transval : cmtransval) (spans : list span)
    (cursum : Z) : result Z :=
  match spans with
  | [] => Val cursum
  | (lo, hi) :: rest =>
    let wd := int64_to_double (wrap64 (hi - lo + 1)) in
    if wd <=? 0 then NoResult
    else
      let dyad := log2_trunc wd in
      if dyad <? 0 then NoResult
      else
        match sketches transval !! Z.to_nat dyad with
        | None => NoResult
        | Some sketch =>
          val ← cmsketch_getcount_c DEPTH NUMCOUNTERS md5_lane sketch
                  (wrap64 (Z.shiftr (to_uint64 lo) dyad))
                  (outFuncOid transval);
          sum_spans transval rest (wrap64 (cursum + val))
        end
  end.

Definition cmsketch_rangecount_c (transval : cmtransval) (bot top : Z)
    : result Z :=
  match find_ranges log2_trunc bot top [] with
  | (spans, Returned) => sum_spans transval spans 0
  | (_, NoReturn) => NoResult
  end.

Definition cmsketch_centile_c (transval : cmtransval)
    (intcentile total : Z) : result Z :=
  if (intcentile <=? 0) || (100 <=? intcentile) then Elog CentileOutOfRange
  else
    centile_search (cmsketch_rangecount_c transval MINVAL)
      (Z.to_nat (LONGBITS - 1)) (centile_count total intcentile)
      MINVAL MAXVAL 0.

(** [cmsketch_centile]: [None] stands for SQL NULL. *)
Definition cmsketch_centile (arg0 : transblob) (arg1 : option Z)
    : result (option Z) :=
  match cmsketch_check_transval DEPTH NUMCOUNTERS getTypeOutputInfo arg0 with
  | ShortBlob => NoResult
  | FullBlob transval =>
    match arg1 with
    | None => Val None
    | Some centile =>
      total ← cmsketch_rangecount_c transval MINVAL MAXVAL;
      if total =? 0 then Val None
      else v ← cmsketch_centile_c transval centile total; Val (Some v)
    end
  end.

(** The loop of [cmsketch_width_histogram_c] from bucket [i] on, with
    [todo = buckets - i] iterations left; the rows [(lo, hi, val)] of
    [histo] filled, in order. *)
Fixpoint histogram_loop (transval : cmtransval) (min max buckets step : Z)
    (todo : nat) (i : Z) : result (list (Z * Z * Z)) :=
  match todo with
  | O => Val []
  | S todo' =>
    let binlo := wrap64 (min + i * step) in
    if max <? binlo then Val []
    else
      let binhi := if i =? buckets - 1 then max
                   else wrap64 (min + (i + 1) * step - 1) in
      binval ← cmsketch_rangecount_c transval binlo binhi;
      rest ← histogram_loop transval min max buckets step todo' (i + 1);
      Val ((binlo, binhi, binval) :: rest)
  end.

(** For [buckets <= 0] the loop body never runs and [step] is not
    read. *)
Definition cmsketch_width_histogram_c (transval : cmtransval)
    (min max buckets : Z) : result (list (Z * Z * Z)) :=
  histogram_loop transval min max buckets (histogram_step min max buckets)
                 (Z.to_nat buckets) 0.

End Queries.

(** [cmsketch_centile_c] with the constants of countmin.h left open:
    [minval], [maxval] and [longbits] stand for [MINVAL], [MAXVAL] and
    [LONGBITS], and [count_upto g] for
    [cmsketch_rangecount_c(transval, MINVAL, g)]. *)
Definition centile_with (count_upto : Z -> result Z)
    (minval maxval longbits : Z) (intcentile total : Z) : result Z :=
  if (intcentile <=? 0) || (100 <=? intcentile) then Elog CentileOutOfRange
  else
    centile_search count_upto (Z.to_nat (longbits - 1))
      (centile_count total intcentile) minval maxval 0.

(** ** Equi-depth histogram *)

(** Conversion to [int] (32 bits), wrapping. *)
Definition wrap32 (z : Z) : Z := (z + 2 ^ 31) mod 2 ^ 32 - 2 ^ 31.

(** [MAX(trunc(100 / (float8)buckets), 1)] stored in the [int64] [step],
    for [buckets >= 1]. *)
Definition depth_step (buckets : Z) : Z :=
  wrap64 (Z.max (double_div_trunc 100 buckets) 1).

(** The loop of [cmsketch_depth_histogram_c] from bucket [i] on, with
    [todo = buckets - i] iterations left and [binlo] the low bound of
    bucket [i]; the rows [(lo, hi, val)] of [histo] filled, in order.  The
    centile [(i+1)*step] is computed on [int64] and passed as an [int]. *)
Fixpoint depth_loop (log2_trunc : Z -> Z) (DEPTH NUMCOUNTERS : nat)
    (md5_lane : Z -> Z -> nat -> Z) (transval : cmtransval)
    (buckets step total : Z) (todo : nat) (i binlo : Z)
    : result (list (Z * Z * Z)) :=
  match todo with
  | O => Val []
  | S todo' =>
    binhi ← (if i =? buckets - 1 then Val MAXVAL
             else cmsketch_centile_c log2_trunc DEPTH NUMCOUNTERS md5_lane
                    transval (wrap32 (wrap64 ((i + 1) * step))) total);
    binval ← cmsketch_rangecount_c log2_trunc DEPTH NUMCOUNTERS md5_lane
               transval binlo binhi;
    rest ← depth_loop log2_trunc DEPTH NUMCOUNTERS md5_lane transval
             buckets step total todo' (i + 1) (wrap64 (binhi + 1));
    Val ((binlo, binhi, binval) :: rest)
  end.

(** [cmsketch_depth_histogram_c]: the total count is taken first, over
    the whole domain. *)
Definition cmsketch_depth_histogram_c (log2_trunc : Z -> Z)
    (DEPTH NUMCOUNTERS : nat) (md5_lane : Z -> Z -> nat -> Z)
    (transval : cmtransval) (buckets : Z) : result (list (Z * Z * Z)) :=
  total ← cmsketch_rangecount_c log2_trunc DEPTH NUMCOUNTERS md5_lane
            transval MINVAL MAXVAL;
  depth_loop log2_trunc DEPTH NUMCOUNTERS md5_lane transval buckets
    (depth_step buckets) total (Z.to_nat buckets) 0 MINVAL.

(** [cmsketch_depth_histogram]: [None] stands for SQL NULL. *)
Definition cmsketch_depth_histogram (log2_trunc : Z -> Z)
    (DEPTH NUMCOUNTERS : nat) (md5_lane : Z -> Z -> nat -> Z)
    (getTypeOutputInfo : Z -> Z) (arg0 : transblob) (arg1 : option Z)
    : result (option (list (Z * Z * Z))) :=
  match cmsketch_check_transval DEPTH NUMCOUNTERS getTypeOutputInfo arg0 with
  | ShortBlob => NoResult
  | FullBlob transval =>
    match arg1 with
    | None => Val None
    | Some buckets =>
        rows ← cmsketch_depth_histogram_c log2_trunc DEPTH NUMCOUNTERS
                 md5_lane transval buckets;
        Val (Some rows)
    end
  end.

(** ** Dump of the non-zero counters: [cmsketch_dump] *)

(** The size of [newblob]: [palloc(10240)]. *)
Definition DUMP_BYTES : Z := 10240.

(** The decimal text printed for [%d] and [%ld]. *)
Definition decimal (n : Z) : string := NilZero.string_of_int (Z.to_int n).

(** The text of [sprintf("[(%d,%d,%d):%ld], ", i, j, k, v)]. *)
Definition dump_entry (i j k : nat) (v : Z) : string :=
  String.append "[("
    (String.append (decimal (Z.of_nat i))
       (String.append ","
          (String.append (decimal (Z.of_nat j))
             (String.append ","
                (String.append (decimal (Z.of_nat k))
                   (String.append "):"
                      (String.append (decimal v) "], "))))))).

(** [c += sprintf(&newblob[c], ...)]: the text and its terminating NUL
    are written from offset [c] on.  [None]: a byte falls outside
    [newblob]. *)
Definition dump_sprintf (c : Z) (text : string) : option Z :=
  let c' := c + Z.of_nat (String.length text) in
  if c' <? DUMP_BYTES then Some c' else None.

(** The loop over the columns [k] of row [j] of level [i], with [todo]
    columns left; [break] leaves this loop only. *)
Fixpoint dump_columns (sketch : countmin) (i j todo k : nat) (c : Z)
    : option Z :=
  match todo with
  | O => Some c
  | S todo' =>
    let v := counter_at sketch j k in
    match (if v =? 0 then Some c else dump_sprintf c (dump_entry i j k v)) with
    | None => None
    | Some c' =>
        if 10000 <? c' then Some c'
        else dump_columns sketch i j todo' (S k) c'
    end
  end.

(** The loop over the rows [j] of level [i]. *)
Fixpoint dump_rows (NUMCOUNTERS : nat) (sketch : countmin) (i todo j : nat)
    (c : Z) : option Z :=
  match todo with
  | O => Some c
  | S todo' =>
    match dump_columns sketch i j NUMCOUNTERS 0 c with
    | None => None
    | Some c' => dump_rows NUMCOUNTERS sketch i todo' (S j) c'
    end
  end.

(** The loop over the levels [i]. *)
Fixpoint dump_levels (DEPTH NUMCOUNTERS : nat) (sk : list countmin)
    (todo i : nat) (c : Z) : option Z :=
  match todo with
  | O => Some c
  | S todo' =>
    match dump_rows NUMCOUNTERS (default [] (sk !! i)) i DEPTH 0 c with
    | None => None
    | Some c' => dump_levels DEPTH NUMCOUNTERS sk todo' (S i) c'
    end
  end.

(** [cmsketch_dump] on an initialised blob.  The function returns NULL;
    what it does is write the text: [Some c] gives the offset [c] of the
    final NUL, [None] stands for a write outside [newblob]. *)
Definition cmsketch_dump (DEPTH NUMCOUNTERS : nat) (transval : cmtransval)
    : option Z :=
  dump_levels DEPTH NUMCOUNTERS (sketches transval) (Z.to_nat RANGES) 0 0.

(** ** Assumption on the C library *)

(** A faithful [log2]: on a double holding the integer [x >= 1], the
    truncated logarithm is the exact one or, when rounding carried the
    logarithm up to the next integer, one more. *)
Definition log2_faithful (log2_trunc : Z -> Z) : Prop :=
  forall x, 1 <= x -> Z.log2 x <= log2_trunc x <= Z.log2 x + 1.

(** ** Shapes and counters

    A sketch array of the declared dimensions whose counters are
    [int64] values. *)
Definition in_int64b (z : Z) : bool := (INT64_MIN <=? z) && (z <=? INT64_MAX).

Definition row_ok (NUMCOUNTERS : nat) (row : list Z) : bool :=
  (length row =? NUMCOUNTERS)%nat && forallb in_int64b row.

Definition countmin_ok (DEPTH NUMCOUNTERS : nat) (s : countmin) : bool :=
  (length s =? DEPTH)%nat && forallb (row_ok NUMCOUNTERS) s.

Definition sketches_ok (DEPTH NUMCOUNTERS : nat) (sk : list countmin) : bool :=
  (length sk =? Z.to_nat RANGES)%nat && forallb (countmin_ok DEPTH NUMCOUNTERS) sk.

(** The counter arrays of the blob a call returned, if it returned one. *)
Definition counters_of (r : result transblob) : option (list countmin) :=
  match r with
  | Val (FullBlob t) => Some (sketches t)
  | _ => None
  end.

(** Reading one counter of the array of sketches. *)
Definition counter_lookup (sk : list (list (list Z))) (i j k : nat)
    : option Z :=
  match sk !! i with
  | Some sketch =>
      match sketch !! j with
      | Some row => row !! k
      | None => None
      end
  | None => None
  end.

(** The dimensions of one [countmin]. *)
Definition rectangular (D N : nat) (s : countmin) : Prop :=
  length s = D /\ forall i row, s !! i = Some row -> length row = N.

(** The column [hash_counters_iterate] selects in row [i]. *)
Definition lane_col (NUMCOUNTERS : nat) (hashval : nat -> Z) (i : nat) : nat :=
  Z.to_nat (hashval i mod Z.of_nat NUMCOUNTERS).

(** ** The level-0 sketch under a run of insertions *)

(** What the level-0 sketch satisfies after insertions in which each
    value [u] occurred [seen u] times: its counters lie between zero and
    the ceiling, and every counter selected for [u] is at least
    [seen u]. *)
Definition counts_seen (D N : nat) (md5_lane : Z -> Z -> nat -> Z) (fn : Z)
    (s : countmin) (seen : Z -> Z) : Prop :=
  rectangular D N s
  /\ (forall i c, 0 <= counter_at s i c <= COUNT_CEILING)
  /\ (forall u i, (i < D)%nat ->
        seen u <= counter_at s i (lane_col N (md5_lane fn u) i)).

(** The state of an aggregate over a column: whether the blob is still
    uninitialised or not, its level-0 sketch satisfies [counts_seen]. *)
Definition blob_counts_seen (D N : nat) (md5_lane : Z -> Z -> nat -> Z)
    (oid : Z -> Z) (b : transblob) (seen : Z -> Z) : Prop :=
  match cmsketch_check_transval D N oid b with
  | ShortBlob => False
  | FullBlob t =>
      outFuncOid t = oid INT8OID
      /\ exists s, sketches t !! 0%nat = Some s
                   /\ counts_seen D N md5_lane (oid INT8OID) s seen
  end.

(** The aggregate over a column: the host calls [cmsketch_trans] once per
    row, handing each call the blob the previous one returned. *)
Fixpoint insert_all (D N : nat) (md5_lane : Z -> Z -> nat -> Z) (oid : Z -> Z)
    (vs : list Z) (b : transblob) : result transblob :=
  match vs with
  | [] => Val b
  | v :: rest =>
      b' ← cmsketch_trans D N md5_lane oid true b (Some v);
      insert_all D N md5_lane oid rest b'
  end.

(** ** The equi-width histogram of the specification *)

(** The histogram as the specification words it, on unbounded integers:
    [step = max(floor((max-min+1)/buckets), 1)]; bucket [i] runs from
    [min + i*step] to [min + (i+1)*step - 1], the last of the [buckets]
    one up to [max]; buckets are produced in order until a low bound
    exceeds [max]; each count is the range count of the bounds. *)
Fixpoint equi_width_buckets (range_count : Z -> Z -> result Z)
    (min max buckets step : Z) (todo : nat) (i : Z)
    : result (list (Z * Z * Z)) :=
  match todo with
  | O => Val []
  | S todo' =>
    let lo := min + i * step in
    if max <? lo then Val []
    else
      let hi := if i =? buckets - 1 then max else min + (i + 1) * step - 1 in
      c ← range_count lo hi;
      rest ← equi_width_buckets range_count min max buckets step todo' (i + 1);
      Val ((lo, hi, c) :: rest)
  end.

Definition equi_width_histogram (range_count : Z -> Z -> result Z)
    (min max buckets : Z) : result (list (Z * Z * Z)) :=
  equi_width_buckets range_count min max buckets
    (Z.max ((max - min + 1) / buckets) 1) (Z.to_nat buckets) 0.

(** ** Span counts

    The dyad the code settles on for a positive width. *)
Definition dyad_of (w : Z) : Z := Z.log2 (round53 w).

Definition span_count (e : emitted) : nat := length e.1.

(** The statement of the left chain at a given number of levels. *)
Definition left_bound (n : nat) : Prop :=
  forall K bot top,
    in_int64 bot -> in_int64 top -> 0 <= K <= 63 ->
    bot mod 2 ^ K = 0 -> top - bot + 1 <= 2 ^ K ->
    (span_count (find_ranges_levels Z.log2 n bot top) <= n)%nat.

Definition right_bound (n : nat) : Prop :=
  forall n', (n' <= n)%nat ->
  forall K bot top,
    in_int64 bot -> in_int64 top -> 0 <= K <= 63 ->
    (top + 1) mod 2 ^ K = 0 -> top - bot + 1 <= 2 ^ K ->
    (span_count (find_ranges_levels Z.log2 n' bot top) <= n')%nat.

(** ** A configuration to run the model on *)

(** A small configuration to run the model on: two rows of four
    counters, and a stand-in for the digest lanes. *)
Definition example_lane (funcOid dat : Z) (i : nat) : Z :=
  (dat * 40503 + Z.of_nat i * 25173 + funcOid) mod 65536.

Definition example_oid (typ : Z) : Z := 461.

Definition example_blob : transblob :=
  Eval vm_compute in
    match insert_all 2 4 example_lane example_oid [10; 20; 10] ShortBlob with
    | Val b => b
    | _ => ShortBlob
    end.

Definition example_transval : cmtransval :=
  Eval vm_compute in
    match example_blob with
    | FullBlob t => t
    | ShortBlob => mk_transval 0 0 []
    end.

Definition ceiling_transval : cmtransval :=
  mk_transval INT8OID 461 (replicate 64 [[COUNT_CEILING]]).

Definition zero_transval : cmtransval :=
  mk_transval INT8OID 461 (zero_sketches 2 4).

(** The sketch of two rows of 64 counters that holds the values 10, 10,
    10, 20, 20 and 30. *)
Definition scenario_transval : cmtransval :=
  match insert_all 2 64 example_lane example_oid [10; 10; 10; 20; 20; 30]
          ShortBlob with
  | Val (FullBlob t) => t
  | _ => mk_transval 0 0 []
  end.

(** ** Tilings by dyadic spans *)

(** Whether [x] lies in a span, and how many spans of a list hold [x]. *)
Definition in_span (x : Z) (s : span) : bool := (s.1 <=? x) && (x <=? s.2).

Fixpoint covering (l : list span) (x : Z) : nat :=
  match l with
  | [] => 0
  | s :: rest => (if in_span x s then 1 else 0) + covering rest x
  end.

Definition power_of_two (w : Z) : Prop := exists k, 0 <= k /\ w = 2 ^ k.

(** The spans of [l] are disjoint, their union is [[bot, top]], and each
    width is a power of two: every value of the range lies in exactly
    one span and every other value in none. *)
Definition dyadic_tiling (l : list span) (bot top : Z) : Prop :=
  (forall x, covering l x =
             if (bot <=? x) && (x <=? top) then 1%nat else 0%nat)
  /\ Forall (fun s => power_of_two (s.2 - s.1 + 1)) l.

(** What a call achieves on a range of fewer than [2^53] values when
    enough levels are left. *)
Definition decomposes (n : nat) (bot top : Z) : Prop :=
  exists l, find_ranges_levels Z.log2 n bot top = (l, Returned)
            /\ dyadic_tiling l bot top.

(** The statement of the exact left chain at a given number of
    levels. *)
Definition left_exact_at (n : nat) : Prop :=
  forall K bot top,
    in_int64 bot -> in_int64 top -> top < INT64_MAX -> 0 <= K <= 63 ->
    bot mod 2 ^ K = 0 -> ~ (bot < 0 <= top) ->
    top - bot + 1 < 2 ^ (K + 1) -> top - bot + 1 < 2 ^ 53 ->
    top - bot + 1 < 2 ^ Z.of_nat n ->
    decomposes n bot top.

Definition right_exact_at (n : nat) : Prop :=
  forall K bot top,
    in_int64 bot -> in_int64 top -> top < INT64_MAX -> 0 <= K <= 63 ->
    (top + 1) mod 2 ^ K = 0 -> ~ (bot < 0 <= top) ->
    top - bot + 1 < 2 ^ (K + 1) -> top - bot + 1 < 2 ^ 53 ->
    top - bot + 1 < 2 ^ Z.of_nat n ->
    decomposes n bot top.

(** ** Dyadic blocks, hit counts and histogram rows *)

(** A span of [2^d] values that starts on a multiple of [2^d], its end
    computed on 64 bits. *)
Definition dyadic_block (s : span) : Prop :=
  exists d, 0 <= d <= 63 /\ s.1 mod 2 ^ d = 0 /\ s.2 = wrap64 (s.1 + 2 ^ d - 1).

(** How many of the values [vs] select column [c] of row [i] at level
    [j], where a value [v] is inserted as [v >> j]. *)
Fixpoint level_hits (N : nat) (md5_lane : Z -> Z -> nat -> Z) (fn : Z)
    (j i c : nat) (vs : list Z) : Z :=
  match vs with
  | [] => 0
  | v :: rest =>
      (if bool_decide
            (c = lane_col N (md5_lane fn (Z.shiftr v (Z.of_nat j))) i)
       then 1 else 0)
      + level_hits N md5_lane fn j i c rest
  end.

(** Every counter of every level holds its number of hits, none above
    the ceiling. *)
Definition exact_levels (D N : nat) (md5_lane : Z -> Z -> nat -> Z) (fn : Z)
    (sk : list countmin) (vs : list Z) : Prop :=
  length sk = Z.to_nat RANGES
  /\ forall j s, sk !! j = Some s ->
       rectangular D N s
       /\ forall i c, (i < D)%nat -> (c < N)%nat ->
            counter_at s i c = level_hits N md5_lane fn j i c vs
            /\ counter_at s i c <= COUNT_CEILING.

(** The same of a blob as its readers see it, that is after
    [cmsketch_check_transval]. *)
Definition exact_blob (D N : nat) (md5_lane : Z -> Z -> nat -> Z)
    (oid : Z -> Z) (b : transblob) (vs : list Z) : Prop :=
  match cmsketch_check_transval D N oid b with
  | ShortBlob => False
  | FullBlob t =>
      typOid t = INT8OID /\ outFuncOid t = oid INT8OID
      /\ exact_levels D N md5_lane (oid INT8OID) (sketches t) vs
  end.

(** How many of the values [vs] lie in [[bot, top]]. *)
Fixpoint values_within (bot top : Z) (vs : list Z) : Z :=
  match vs with
  | [] => 0
  | v :: rest =>
      (if in_span v (bot, top) then 1 else 0) + values_within bot top rest
  end.

(** The same summed over a list of spans. *)
Fixpoint spans_total (l : list span) (vs : list Z) : Z :=
  match l with
  | [] => 0
  | s :: rest => values_within s.1 s.2 vs + spans_total rest vs
  end.

(** A span of [2^d] non-negative values starting on a multiple of
    [2^d], below [MAXVAL]. *)
Definition aligned_span (s : span) : Prop :=
  exists d, 0 <= d <= 62 /\ 0 <= s.1 < 2 ^ 63 /\ s.1 mod 2 ^ d = 0
            /\ s.2 = s.1 + 2 ^ d - 1.

(** The rows of a histogram run from [lo] to [last] without gap or
    overlap, none of them empty. *)
Fixpoint consecutive (lo : Z) (rows : list (Z * Z * Z)) (last : Z) : Prop :=
  match rows with
  | [] => lo = last + 1
  | (l, h, _) :: rest => l = lo /\ l <= h /\ consecutive (h + 1) rest last
  end.

(** The number of rows and the step of the equi-width histogram, over
    the integers. *)
Definition rows_due (min max buckets : Z) : Z := Z.min buckets (max - min + 1).

Definition integer_step (min max buckets : Z) : Z :=
  Z.max ((max - min + 1) / buckets) 1.

(** The sum of the counts of the rows of a histogram. *)
Fixpoint rows_total (rows : list (Z * Z * Z)) : Z :=
  match rows with
  | [] => 0
  | row :: rest => row.2 + rows_total rest
  end.

(** * Properties *)

(** ** Machine integers and rounding *)

Lemma wrap64_id z : in_int64 z -> wrap64 z = z.
Proof.
  unfold in_int64, INT64_MIN, INT64_MAX, wrap64. intros H.
  rewrite Z.mod_small; lia.
Qed.

Lemma wrap64_range z : in_int64 (wrap64 z).
Proof.
  unfold in_int64, INT64_MIN, INT64_MAX, wrap64.
  pose proof (Z.mod_pos_bound (z + 2 ^ 63) (2 ^ 64)). lia.
Qed.

Lemma log2_faithful_exact : log2_faithful Z.log2.
Proof. intros x Hx. lia. Qed.

Lemma dyad_correct_faithful d dw :
  1 <= dw -> Z.log2 dw <= Z.of_nat d ->
  dyad_correct d dw = Some (Z.to_nat (Z.log2 dw)).
Proof.
  intros Hdw. induction d as [|d IH]; intros Hd; simpl dyad_correct.
  - assert (Z.log2 dw = 0) as E by (pose proof (Z.log2_nonneg dw); lia).
    rewrite E. destruct (Z.ltb_spec dw (2 ^ Z.of_nat 0)) as [Hlt|_].
    + change (2 ^ Z.of_nat 0) with 1 in Hlt. lia.
    + reflexivity.
  - destruct (Z.ltb_spec dw (2 ^ Z.of_nat (S d))) as [Hlt|Hge].
    + apply IH. apply Z.log2_lt_pow2 in Hlt; lia.
    + f_equal. apply Z.log2_le_pow2 in Hge; lia.
Qed.

Lemma largest_dyad_faithful lg w :
  log2_faithful lg -> largest_dyad lg w = largest_dyad Z.log2 w.
Proof.
  intros Hlg. unfold largest_dyad.
  destruct (Z.leb_spec (int64_to_double w) 0) as [|Hpos]; [reflexivity|].
  pose proof (Hlg (int64_to_double w) ltac:(lia)) as [Hlo Hhi].
  pose proof (Z.log2_nonneg (int64_to_double w)) as Hnn.
  destruct (Z.ltb_spec (lg (int64_to_double w)) 0); [lia|].
  destruct (Z.ltb_spec (Z.log2 (int64_to_double w)) 0); [lia|].
  rewrite !dyad_correct_faithful by lia. reflexivity.
Qed.

Lemma find_ranges_levels_S lg lower bot top :
  find_ranges_levels lg (S lower) bot top =
  if top <? bot then ([], Returned)
  else if top =? bot then ([(bot, bot)], Returned)
  else if (0 <=? top) && (bot <? 0) then
    seq_emit (find_ranges_levels lg lower bot (-1))
             (find_ranges_levels lg lower 0 top)
  else
    match largest_dyad lg (wrap64 (top - bot + 1)) with
    | None => ([], NoReturn)
    | Some dyad =>
      let width := 2 ^ Z.of_nat dyad in
      if (bot =? MINVAL) || (to_uint64 bot mod width =? 0) then
        seq_emit ([(bot, wrap64 (to_uint64 bot + width - 1))], Returned)
                 (find_ranges_levels lg lower
                    (wrap64 (to_uint64 bot + width)) top)
      else if (top =? MAXVAL)
              || (to_uint64 (wrap64 (top + 1)) mod width =? 0) then
        seq_emit ([(wrap64 (to_uint64 top - width + 1), top)], Returned)
                 (find_ranges_levels lg lower bot
                    (wrap64 (to_uint64 top - width)))
      else
        let power_of_2 := wrap64 (width * (to_uint64 top / width)) in
        seq_emit (find_ranges_levels lg lower bot (wrap64 (power_of_2 - 1)))
                 (find_ranges_levels lg lower power_of_2 top)
    end.
Proof. reflexivity. Qed.

Lemma find_ranges_levels_faithful lg levels bot top :
  log2_faithful lg ->
  find_ranges_levels lg levels bot top = find_ranges_levels Z.log2 levels bot top.
Proof.
  intros Hlg. revert bot top.
  induction levels as [|n IH]; intros bot top; [reflexivity|].
  rewrite !find_ranges_levels_S.
  rewrite (largest_dyad_faithful lg) by assumption.
  destruct (top <? bot); [reflexivity|].
  destruct (top =? bot); [reflexivity|].
  destruct ((0 <=? top) && (bot <? 0)); [rewrite !IH; reflexivity|].
  destruct (largest_dyad Z.log2 (wrap64 (top - bot + 1))); [|reflexivity].
  cbv zeta.
  destruct ((bot =? MINVAL) || _); [rewrite !IH; reflexivity|].
  destruct ((top =? MAXVAL) || _); rewrite !IH; reflexivity.
Qed.

Lemma find_ranges_faithful lg bot top r :
  log2_faithful lg -> find_ranges lg bot top r = find_ranges Z.log2 bot top r.
Proof.
  intros Hlg. unfold find_ranges, find_ranges_internal.
  rewrite find_ranges_levels_faithful by assumption. reflexivity.
Qed.

(** ** Range decomposition *)

(** C4: a range with [bot < 0 <= top] is decomposed as the
    decomposition of [[bot, -1]] followed by that of [[0, top]], each at
    the next lower power and whatever [log2] does: no width is computed
    across zero.  With a faithful [log2], [find_ranges(-1, 1)] yields
    exactly [[-1,-1]] and [[0,1]]. *)
Theorem find_ranges_splits_at_zero lg bot top power :
  bot < 0 <= top -> 0 <= power ->
  find_ranges_internal lg bot top power =
    seq_emit (find_ranges_internal lg bot (-1) (power - 1))
             (find_ranges_internal lg 0 top (power - 1))
  /\ (log2_faithful lg ->
      find_ranges lg (-1) 1 [] = ([(-1, -1); (0, 1)], Returned)).
Proof.
  intros Hbt Hp. split; [|intros Hlg].
  - unfold find_ranges_internal.
    replace (Z.to_nat (power + 1)) with (S (Z.to_nat (power - 1 + 1))) by lia.
    rewrite find_ranges_levels_S.
    destruct (Z.ltb_spec top bot); [lia|].
    destruct (Z.eqb_spec top bot); [lia|].
    destruct (Z.leb_spec 0 top); [|lia].
    destruct (Z.ltb_spec bot 0); [|lia].
    reflexivity.
  - rewrite find_ranges_faithful by assumption. vm_compute. reflexivity.
Qed.

(** C1, on the input where the code fails it: for [bot = 0] and
    [top = 2^55 - 2] the width [2^55 - 1] becomes [2^55] when converted to
    a double, the correction loop compares doubles and leaves
    [dyad = 55], and the single span emitted is [[0, 2^55 - 1]], which
    reaches beyond [top]. *)
Theorem find_ranges_overshoots_top lg :
  log2_faithful lg ->
  find_ranges lg 0 (2 ^ 55 - 2) [] = ([(0, 2 ^ 55 - 1)], Returned)
  /\ ~ (2 ^ 55 - 1 <= 2 ^ 55 - 2).
Proof.
  intros Hlg. split; [|lia].
  rewrite find_ranges_faithful by assumption. vm_compute. reflexivity.
Qed.

(** ** Merge *)

Lemma wrap64_add_l a b : wrap64 (wrap64 a + b) = wrap64 (a + b).
Proof.
  unfold wrap64. f_equal.
  replace ((a + 2 ^ 63) mod 2 ^ 64 - 2 ^ 63 + b + 2 ^ 63)
    with ((a + 2 ^ 63) mod 2 ^ 64 + b) by lia.
  rewrite Zplus_mod_idemp_l. f_equal. lia.
Qed.

Lemma wrap64_add_r a b : wrap64 (a + wrap64 b) = wrap64 (a + b).
Proof. rewrite Z.add_comm, wrap64_add_l. f_equal. lia. Qed.

Lemma add_counter_comm a b : add_counter a b = add_counter b a.
Proof. unfold add_counter. f_equal. lia. Qed.

Lemma add_counter_assoc a b c :
  add_counter (add_counter a b) c = add_counter a (add_counter b c).
Proof.
  unfold add_counter. rewrite wrap64_add_l, wrap64_add_r. f_equal. lia.
Qed.

Section ZipWith.
Context {A : Type} (f : A -> A -> A).

Lemma zip_with_commutes :
  (forall x y, f x y = f y x) ->
  forall l k, zip_with f l k = zip_with f k l.
Proof.
  intros Hf l. induction l as [|x l IH]; intros [|y k]; simpl; try reflexivity.
  rewrite Hf, IH. reflexivity.
Qed.

Lemma zip_with_associates :
  (forall x y z, f (f x y) z = f x (f y z)) ->
  forall l k m,
    zip_with f (zip_with f l k) m = zip_with f l (zip_with f k m).
Proof.
  intros Hf l. induction l as [|x l IH]; intros [|y k] [|z m]; simpl;
    try reflexivity.
  rewrite Hf, IH. reflexivity.
Qed.

Lemma zip_with_replicate_neutral (good : A -> bool) (e : A) :
  (forall x, good x = true -> f x e = x) ->
  forall l, forallb good l = true ->
    zip_with f l (replicate (length l) e) = l.
Proof.
  intros Hf l. induction l as [|x l IH]; simpl; [reflexivity|].
  intros [Hx Hl]%andb_prop. rewrite Hf, IH by assumption. reflexivity.
Qed.
End ZipWith.

Lemma add_counter_zero x : in_int64b x = true -> add_counter x 0 = x.
Proof.
  unfold in_int64b, add_counter. intros [H1 H2]%andb_prop.
  rewrite Z.add_0_r. apply wrap64_id. split; lia.
Qed.

Lemma combine_row_zero N row :
  row_ok N row = true -> zip_with add_counter row (replicate N 0) = row.
Proof.
  unfold row_ok. intros [HN Hr]%andb_prop. apply Nat.eqb_eq in HN. subst N.
  apply (zip_with_replicate_neutral add_counter in_int64b 0);
    [apply add_counter_zero | assumption].
Qed.

Lemma combine_countmin_zero D N s :
  countmin_ok D N s = true ->
  zip_with (zip_with add_counter) s (replicate D (replicate N 0)) = s.
Proof.
  unfold countmin_ok. intros [HD Hs]%andb_prop. apply Nat.eqb_eq in HD. subst D.
  apply (zip_with_replicate_neutral (zip_with add_counter) (row_ok N));
    [apply combine_row_zero | assumption].
Qed.

Lemma combine_sketches_zero D N sk :
  sketches_ok D N sk = true -> combine_sketches sk (zero_sketches D N) = sk.
Proof.
  unfold sketches_ok, combine_sketches, zero_sketches.
  intros [HR Hs]%andb_prop. apply Nat.eqb_eq in HR. rewrite <- HR.
  apply (zip_with_replicate_neutral _ (countmin_ok D N));
    [apply combine_countmin_zero | assumption].
Qed.

Lemma combine_sketches_comm s1 s2 :
  combine_sketches s1 s2 = combine_sketches s2 s1.
Proof.
  unfold combine_sketches.
  apply zip_with_commutes. intros x y.
  apply zip_with_commutes. intros x' y'.
  apply zip_with_commutes. apply add_counter_comm.
Qed.

Lemma combine_sketches_assoc s1 s2 s3 :
  combine_sketches (combine_sketches s1 s2) s3 =
  combine_sketches s1 (combine_sketches s2 s3).
Proof.
  unfold combine_sketches.
  apply zip_with_associates. intros x y z.
  apply zip_with_associates. intros x' y' z'.
  apply zip_with_associates. apply add_counter_assoc.
Qed.

(** C3: merging with the all-zero sketch (an uninitialised blob, or any
    blob of zero counters) gives the first operand back; the counters of
    a merge do not depend on the order of the operands, nor on how three
    operands are grouped. *)
Theorem cmsketch_combine_monoid DEPTH NUMCOUNTERS oid (A B C : cmtransval) ty fn :
  sketches_ok DEPTH NUMCOUNTERS (sketches A) = true ->
  cmsketch_combine DEPTH NUMCOUNTERS oid (FullBlob A) ShortBlob = Val (FullBlob A)
  /\ cmsketch_combine DEPTH NUMCOUNTERS oid (FullBlob A)
       (FullBlob (mk_transval ty fn (zero_sketches DEPTH NUMCOUNTERS)))
     = Val (FullBlob A)
  /\ counters_of (cmsketch_combine DEPTH NUMCOUNTERS oid (FullBlob A) (FullBlob B))
     = counters_of (cmsketch_combine DEPTH NUMCOUNTERS oid (FullBlob B) (FullBlob A))
  /\ counters_of (ab ← cmsketch_combine DEPTH NUMCOUNTERS oid (FullBlob A) (FullBlob B);
                  cmsketch_combine DEPTH NUMCOUNTERS oid ab (FullBlob C))
     = counters_of (bc ← cmsketch_combine DEPTH NUMCOUNTERS oid (FullBlob B) (FullBlob C);
                    cmsketch_combine DEPTH NUMCOUNTERS oid (FullBlob A) bc)
  /\ counters_of (cmsketch_combine DEPTH NUMCOUNTERS oid (FullBlob A) (FullBlob B))
     = Some (combine_sketches (sketches A) (sketches B)).
Proof.
  intros HA. repeat split.
  - unfold cmsketch_combine. simpl.
    rewrite combine_sketches_zero by assumption. destruct A; reflexivity.
  - unfold cmsketch_combine. simpl.
    rewrite combine_sketches_zero by assumption. destruct A; reflexivity.
  - simpl. rewrite combine_sketches_comm. reflexivity.
  - simpl. rewrite combine_sketches_assoc. reflexivity.
Qed.

Lemma combine_sketches_lookup s1 s2 i j k a b :
  counter_lookup s1 i j k = Some a ->
  counter_lookup s2 i j k = Some b ->
  counter_lookup (combine_sketches s1 s2) i j k = Some (wrap64 (a + b)).
Proof.
  unfold counter_lookup, combine_sketches. intros H1 H2.
  rewrite lookup_zip_with.
  destruct (s1 !! i) as [x1|]; [|discriminate].
  destruct (s2 !! i) as [x2|]; [|discriminate]. simpl.
  rewrite lookup_zip_with.
  destruct (x1 !! j) as [y1|]; [|discriminate].
  destruct (x2 !! j) as [y2|]; [|discriminate]. simpl.
  rewrite lookup_zip_with, H1, H2. reflexivity.
Qed.

(** C6, as the code has it: [cmsketch_combine] never raises; it
    returns the first blob's header with, at every index, the [int64] sum
    of the two counters, stored whether or not it exceeds the ceiling of
    [increment_counter]. *)
Theorem cmsketch_combine_unchecked DEPTH NUMCOUNTERS oid (A B : cmtransval)
    i j k a b :
  counter_lookup (sketches A) i j k = Some a ->
  counter_lookup (sketches B) i j k = Some b ->
  exists t,
    cmsketch_combine DEPTH NUMCOUNTERS oid (FullBlob A) (FullBlob B)
      = Val (FullBlob t)
    /\ typOid t = typOid A /\ outFuncOid t = outFuncOid A
    /\ sketches t = combine_sketches (sketches A) (sketches B)
    /\ counter_lookup (sketches t) i j k = Some (wrap64 (a + b)).
Proof.
  intros Ha Hb. eexists. split; [reflexivity|]. simpl.
  repeat split. apply combine_sketches_lookup; assumption.
Qed.

(** ** Insertion *)

(** C10: called from an aggregate with a NULL value, [cmsketch_trans]
    returns the blob it was given (every counter as it was), or, for a
    blob not yet initialised, the freshly initialised one whose counters
    are all zero. *)
Theorem cmsketch_trans_null DEPTH NUMCOUNTERS md5_lane oid (b : transblob) :
  cmsketch_trans DEPTH NUMCOUNTERS md5_lane oid true b None =
    Val (match b with
         | FullBlob t => FullBlob t
         | ShortBlob =>
             FullBlob (mk_transval INT8OID (oid INT8OID)
                         (zero_sketches DEPTH NUMCOUNTERS))
         end)
  /\ Forall (Forall (Forall (eq 0))) (zero_sketches DEPTH NUMCOUNTERS).
Proof.
  split.
  - destruct b; reflexivity.
  - unfold zero_sketches. repeat apply Forall_replicate. reflexivity.
Qed.

(** C5, on the input where the code fails it: a selected counter that
    holds [LONG_MAX] is not at the ceiling, so no error is raised, and the
    increment wraps it around to the most negative [int64]. *)
Theorem increment_counter_wraps md5_lane dat oid :
  countmin_trans_c 1 1 md5_lane [[LONG_MAX]] dat oid
    = ([[INT64_MIN]], Val INT64_MIN)
  /\ COUNT_CEILING < LONG_MAX.
Proof.
  split; [|reflexivity].
  unfold countmin_trans_c, hash_counters_iterate. simpl iterate_rows.
  rewrite Z.mod_1_r. reflexivity.
Qed.

(** *** Counters under [set_counter] *)

Lemma counter_at_set_counter s i c v i' c' :
  counter_at (set_counter s i c v) i' c' =
  if bool_decide (i' = i /\ c' = c /\ is_Some (s !! i ≫= (.!! c)))
  then v else counter_at s i' c'.
Proof.
  unfold counter_at, set_counter.
  destruct (decide (i' = i)) as [->|Hi].
  - rewrite list_lookup_alter_eq.
    destruct (s !! i) as [row|] eqn:Hrow; simpl.
    + destruct (decide (c' = c)) as [->|Hc].
      * destruct (row !! c) as [x|] eqn:Hx.
        -- rewrite list_lookup_insert_eq by (eapply lookup_lt_Some; eauto).
           rewrite bool_decide_eq_true_2 by eauto. reflexivity.
        -- rewrite list_insert_ge by (apply lookup_ge_None; assumption).
           rewrite Hx. rewrite bool_decide_eq_false_2; [reflexivity|].
           intros (_ & _ & [? ?]). discriminate.
      * rewrite list_lookup_insert_ne by congruence.
        rewrite bool_decide_eq_false_2 by tauto. reflexivity.
    + rewrite bool_decide_eq_false_2; [reflexivity|].
      intros (_ & _ & [? ?]). discriminate.
  - rewrite list_lookup_alter_ne by congruence.
    rewrite bool_decide_eq_false_2 by tauto. reflexivity.
Qed.

Lemma rectangular_set_counter D N s i c v :
  rectangular D N s -> rectangular D N (set_counter s i c v).
Proof.
  unfold rectangular, set_counter. intros [HD HN]. split.
  - rewrite length_alter. assumption.
  - intros i' row. destruct (decide (i' = i)) as [->|Hi].
    + rewrite list_lookup_alter_eq.
      destruct (s !! i) as [row0|] eqn:E; simpl; [|discriminate].
      intros [= <-]. rewrite length_insert. eauto.
    + rewrite list_lookup_alter_ne by congruence. apply HN.
Qed.

Lemma rectangular_selected D N s i c :
  rectangular D N s -> (i < D)%nat -> (c < N)%nat ->
  is_Some (s !! i ≫= (.!! c)).
Proof.
  intros [HD HN] Hi Hc.
  destruct (lookup_lt_is_Some_2 s i) as [row Hrow]; [lia|].
  rewrite Hrow. simpl. apply lookup_lt_is_Some_2.
  rewrite (HN _ _ Hrow). assumption.
Qed.

Lemma lane_col_lt N hashval i : (0 < N)%nat -> (lane_col N hashval i < N)%nat.
Proof.
  intros HN. unfold lane_col.
  pose proof (Z.mod_pos_bound (hashval i) (Z.of_nat N)). lia.
Qed.

(** A successful pass of [increment_counter] over rows [i .. i+todo-1]:
    no selected counter was at the ceiling, and exactly the selected
    counters changed, each to its [int64] successor. *)
Lemma iterate_rows_increment D N hashval todo :
  (0 < N)%nat ->
  forall i s rv s' r,
    rectangular D N s -> (i + todo <= D)%nat ->
    iterate_rows N hashval increment_counter todo i s rv = (s', Val r) ->
    rectangular D N s'
    /\ (forall i', (i <= i' < i + todo)%nat ->
          counter_at s i' (lane_col N hashval i') <> COUNT_CEILING)
    /\ (forall i' c,
          counter_at s' i' c =
          if bool_decide ((i <= i' < i + todo)%nat /\ c = lane_col N hashval i')
          then wrap64 (counter_at s i' c + 1) else counter_at s i' c).
Proof.
  intros HN. induction todo as [|todo IH]; intros i s rv s' r Hs Hle Hrun.
  - simpl in Hrun. injection Hrun as <- _. split; [assumption|]. split.
    + intros i' Hi'. lia.
    + intros i' c. rewrite bool_decide_eq_false_2 by lia. reflexivity.
  - simpl in Hrun. fold (lane_col N hashval i) in Hrun.
    unfold increment_counter in Hrun at 1.
    destruct (Z.eqb_spec (counter_at s i (lane_col N hashval i)) COUNT_CEILING)
      as [|Hne]; [discriminate|].
    apply IH in Hrun as (Hs' & Hnc & Hcnt);
      [|apply rectangular_set_counter; assumption|lia].
    split; [assumption|]. split.
    + intros i' Hi'. destruct (decide (i' = i)) as [->|Hii]; [assumption|].
      specialize (Hnc i' ltac:(lia)).
      rewrite counter_at_set_counter in Hnc.
      rewrite bool_decide_eq_false_2 in Hnc by tauto. assumption.
    + intros i' c. rewrite Hcnt, !counter_at_set_counter.
      pose proof (rectangular_selected D N s i (lane_col N hashval i) Hs
                    ltac:(lia) (lane_col_lt N hashval i HN)) as Hsel.
      destruct (decide (i' = i)) as [->|Hii].
      * rewrite (bool_decide_eq_false_2 ((S i <= i < S i + todo)%nat /\ _))
          by lia.
        destruct (decide (c = lane_col N hashval i)) as [->|Hc].
        -- rewrite !bool_decide_eq_true_2 by (repeat split; auto; lia).
           reflexivity.
        -- rewrite !bool_decide_eq_false_2 by (try tauto; lia). reflexivity.
      * rewrite !(bool_decide_eq_false_2 (i' = i /\ _)) by tauto.
        rewrite (bool_decide_ext _
                   ((i <= i' < i + S todo)%nat /\ c = lane_col N hashval i'))
          by lia.
        reflexivity.
Qed.

(** The running minimum over rows [i .. i+todo-1] is a value, leaves the
    sketch alone, and is no smaller than any lower bound of the initial
    value and of the selected counters. *)
Lemma iterate_rows_min N hashval todo :
  forall i s rv,
  exists m,
    iterate_rows N hashval min_counter todo i s rv = (s, Val m)
    /\ forall lb, lb <= rv ->
         (forall i', (i <= i' < i + todo)%nat ->
                     lb <= counter_at s i' (lane_col N hashval i')) ->
         lb <= m.
Proof.
  induction todo as [|todo IH]; intros i s rv.
  - exists rv. split; [reflexivity|]. intros lb Hlb _. assumption.
  - simpl. fold (lane_col N hashval i). unfold min_counter at 1.
    destruct (IH (S i) s
                (if counter_at s i (lane_col N hashval i) <? rv
                 then counter_at s i (lane_col N hashval i) else rv))
      as (m & Hm & Hlow).
    exists m. split; [assumption|].
    intros lb Hlb Hrows. apply Hlow.
    + specialize (Hrows i ltac:(lia)).
      destruct (_ <? rv); assumption.
    + intros i' Hi'. apply Hrows. lia.
Qed.

Lemma counts_seen_insert D N md5_lane fn s seen x s' r :
  (0 < N)%nat ->
  counts_seen D N md5_lane fn s seen ->
  countmin_trans_c D N md5_lane s x fn = (s', Val r) ->
  counts_seen D N md5_lane fn s' (fun u => if u =? x then seen u + 1 else seen u).
Proof.
  intros HN (Hrect & Hbound & Hseen) Hrun.
  unfold countmin_trans_c, hash_counters_iterate in Hrun.
  apply (iterate_rows_increment D N) in Hrun as (Hrect' & Hnc & Hcnt);
    [|assumption|assumption|lia].
  assert (forall i c, counter_at s i c <> COUNT_CEILING ->
            wrap64 (counter_at s i c + 1) = counter_at s i c + 1) as Hw.
  { intros i c Hne. apply wrap64_id. specialize (Hbound i c).
    unfold in_int64, INT64_MIN, INT64_MAX.
    change COUNT_CEILING with (2 ^ 62 - 1) in *. lia. }
  split; [assumption|]. split.
  - intros i c. rewrite Hcnt. specialize (Hbound i c).
    case_bool_decide as Hsel; [|assumption].
    destruct Hsel as [Hi ->]. rewrite Hw by (apply Hnc; assumption).
    specialize (Hnc i Hi). lia.
  - intros u i Hi. rewrite Hcnt. specialize (Hseen u i Hi).
    case_bool_decide as Hsel.
    + destruct Hsel as [Hi' Hcol]. rewrite Hw.
      * destruct (u =? x); lia.
      * rewrite Hcol. apply Hnc. assumption.
    + destruct (Z.eqb_spec u x) as [->|]; [|assumption].
      exfalso. apply Hsel. split; [lia|reflexivity].
Qed.

Lemma dyadic_loop_S D N md5_lane fn todo j sk inputi :
  dyadic_loop D N md5_lane (S todo) j fn sk inputi =
  match countmin_trans_c D N md5_lane (default [] (sk !! j)) inputi fn with
  | (level', Val _) =>
      dyadic_loop D N md5_lane todo (S j) fn (<[j := level']> sk)
                  (Z.shiftr inputi 1)
  | (level', Elog e) => (<[j := level']> sk, Elog e)
  | (level', NoResult) => (<[j := level']> sk, NoResult)
  end.
Proof. reflexivity. Qed.

Lemma dyadic_loop_keeps_level0 D N md5_lane fn todo :
  forall j sk x sk' r,
    (0 < j)%nat ->
    dyadic_loop D N md5_lane todo j fn sk x = (sk', r) ->
    sk' !! 0%nat = sk !! 0%nat.
Proof.
  induction todo as [|todo IH]; intros j sk x sk' r Hj Hrun.
  - injection Hrun as <- _. reflexivity.
  - rewrite dyadic_loop_S in Hrun.
    destruct (countmin_trans_c D N md5_lane (default [] (sk !! j)) x fn)
      as [level' [v|e|]].
    + apply IH in Hrun; [|lia]. rewrite Hrun.
      apply list_lookup_insert_ne. lia.
    + injection Hrun as <- _. apply list_lookup_insert_ne. lia.
    + injection Hrun as <- _. apply list_lookup_insert_ne. lia.
Qed.

Lemma blob_counts_seen_fresh D N md5_lane oid :
  blob_counts_seen D N md5_lane oid ShortBlob (fun _ => 0).
Proof.
  unfold blob_counts_seen. simpl. split; [reflexivity|].
  exists (replicate D (replicate N 0)). split; [reflexivity|].
  assert (forall i c, counter_at (replicate D (replicate N 0)) i c = 0) as Hz.
  { intros i c. unfold counter_at.
    destruct (replicate D (replicate N 0) !! i) as [row|] eqn:E; [|reflexivity].
    apply lookup_replicate in E as [-> _]. simpl.
    destruct (replicate N 0 !! c) as [z|] eqn:E'; [|reflexivity].
    apply lookup_replicate in E' as [-> _]. reflexivity. }
  split; [|split].
  - split; [apply length_replicate|].
    intros i row [-> _]%lookup_replicate. apply length_replicate.
  - intros i c. rewrite Hz. change COUNT_CEILING with (2 ^ 62 - 1). lia.
  - intros u i _. rewrite Hz. lia.
Qed.

Lemma blob_counts_seen_trans D N md5_lane oid b seen x b' :
  (0 < N)%nat ->
  blob_counts_seen D N md5_lane oid b seen ->
  cmsketch_trans D N md5_lane oid true b (Some x) = Val b' ->
  blob_counts_seen D N md5_lane oid b'
    (fun u => if u =? x then seen u + 1 else seen u).
Proof.
  intros HN Hb Hrun. unfold blob_counts_seen in Hb.
  unfold cmsketch_trans in Hrun. simpl negb in Hrun. cbv iota in Hrun.
  destruct (cmsketch_check_transval D N oid b) as [|t]; [contradiction|].
  destruct Hb as (Hfn & s & Hs0 & Hseen).
  unfold countmin_dyadic_trans_c in Hrun.
  change (Z.to_nat RANGES) with (S 63) in Hrun.
  rewrite dyadic_loop_S, Hs0 in Hrun. simpl default in Hrun.
  rewrite Hfn in Hrun.
  destruct (countmin_trans_c D N md5_lane s x (oid INT8OID))
    as [s' [v|e|]] eqn:Hlevel; [| discriminate | discriminate].
  destruct (dyadic_loop D N md5_lane 63 1 (oid INT8OID) (<[0%nat:=s']> (sketches t))
              (Z.shiftr x 1)) as [sk' r] eqn:Hrest.
  destruct r as [u|e|]; simpl in Hrun; try discriminate.
  injection Hrun as <-.
  unfold blob_counts_seen. simpl. split; [first [assumption|reflexivity]|].
  exists s'. split.
  - apply dyadic_loop_keeps_level0 in Hrest; [|lia]. rewrite Hrest.
    apply list_lookup_insert_eq. eapply lookup_lt_Some; eassumption.
  - eapply counts_seen_insert; eassumption.
Qed.

Lemma blob_counts_seen_weaken D N md5_lane oid b seen seen' :
  (forall u, seen' u <= seen u) ->
  blob_counts_seen D N md5_lane oid b seen ->
  blob_counts_seen D N md5_lane oid b seen'.
Proof.
  intros Hle. unfold blob_counts_seen.
  destruct (cmsketch_check_transval D N oid b) as [|t]; [tauto|].
  intros (Hfn & s & Hs & Hrect & Hbound & Hseen).
  split; [assumption|]. exists s. split; [assumption|].
  split; [assumption|]. split; [assumption|].
  intros u i Hi. specialize (Hseen u i Hi). specialize (Hle u). lia.
Qed.

Lemma blob_counts_seen_insert_all D N md5_lane oid vs :
  (0 < N)%nat ->
  forall b seen b',
    blob_counts_seen D N md5_lane oid b seen ->
    insert_all D N md5_lane oid vs b = Val b' ->
    blob_counts_seen D N md5_lane oid b'
      (fun u => seen u + Z.of_nat (count_occ Z.eq_dec vs u)).
Proof.
  intros HN. induction vs as [|x vs IH]; intros b seen b' Hb Hrun.
  - simpl in Hrun. injection Hrun as <-.
    eapply blob_counts_seen_weaken; [|eassumption]. intros u. simpl. lia.
  - simpl in Hrun.
    destruct (cmsketch_trans D N md5_lane oid true b (Some x)) as [b1|e|] eqn:Hx;
      simpl in Hrun; try discriminate.
    eapply blob_counts_seen_trans in Hx; [|assumption|eassumption].
    eapply IH in Hrun; [|eassumption].
    eapply blob_counts_seen_weaken; [|eassumption].
    intros u. simpl. destruct (Z.eq_dec x u) as [->|Hne].
    + rewrite Z.eqb_refl. lia.
    + destruct (Z.eqb_spec u x); [congruence|]. lia.
Qed.

(** C2: after any run of successful insertions starting from an empty
    aggregate state, the point count of [v] is a value and is at least
    the number of times [v] was inserted, whatever else was inserted in
    between. *)
Theorem pointcount_never_underestimates D N md5_lane oid vs v b :
  (0 < D)%nat -> (0 < N)%nat ->
  insert_all D N md5_lane oid vs ShortBlob = Val b ->
  exists c,
    cmsketch_getcount D N md5_lane oid b v = Val c
    /\ Z.of_nat (count_occ Z.eq_dec vs v) <= c.
Proof.
  intros HD HN Hrun.
  eapply blob_counts_seen_insert_all in Hrun;
    [|assumption|apply blob_counts_seen_fresh].
  unfold blob_counts_seen in Hrun. unfold cmsketch_getcount.
  destruct (cmsketch_check_transval D N oid b) as [|t]; [contradiction|].
  destruct Hrun as (Hfn & s & Hs & Hrect & Hbound & Hseen).
  rewrite Hs, Hfn. simpl default.
  unfold cmsketch_getcount_c, hash_counters_iterate.
  destruct (iterate_rows_min N (md5_lane (oid INT8OID) v) D 0%nat s LONG_MAX)
    as (m & Hm & Hlow).
  rewrite Hm. exists m. split; [reflexivity|].
  apply Hlow.
  - specialize (Hseen v 0%nat HD). simpl in Hseen.
    specialize (Hbound 0%nat (lane_col N (md5_lane (oid INT8OID) v) 0)).
    change COUNT_CEILING with (2 ^ 62 - 1) in Hbound.
    change LONG_MAX with (2 ^ 63 - 1). lia.
  - intros i' Hi'. specialize (Hseen v i' ltac:(lia)). simpl in Hseen. lia.
Qed.

(** ** Rounding *)

Lemma rne_bounds x y : 0 < y -> x / y <= rne x y <= x / y + 1.
Proof.
  intros Hy. unfold rne.
  destruct (2 * (x mod y) <? y); [lia|].
  destruct (y <? 2 * (x mod y)); [lia|].
  destruct (Z.even (x / y)); lia.
Qed.

Lemma rne_exact x y : 0 < y -> x mod y = 0 -> rne x y = x / y.
Proof.
  intros Hy H0. unfold rne. rewrite H0.
  destruct (Z.ltb_spec (2 * 0) y); [reflexivity|lia].
Qed.

Lemma rne_monotone x x' y : 0 < y -> x <= x' -> rne x y <= rne x' y.
Proof.
  intros Hy Hxx.
  pose proof (Z.div_le_mono x x' y Hy Hxx) as Hk.
  destruct (Z.eq_dec (x / y) (x' / y)) as [E|Hne].
  - assert (x mod y <= x' mod y) as Hr.
    { rewrite (Z.mod_eq x y), (Z.mod_eq x' y), E by lia. lia. }
    unfold rne. rewrite E.
    destruct (Z.ltb_spec (2 * (x mod y)) y); 
      destruct (Z.ltb_spec (2 * (x' mod y)) y);
      destruct (Z.ltb_spec y (2 * (x mod y)));
      destruct (Z.ltb_spec y (2 * (x' mod y)));
      destruct (Z.even (x' / y)); lia.
  - pose proof (rne_bounds x y Hy). pose proof (rne_bounds x' y Hy). lia.
Qed.

(** The floor of [x / y] never exceeds a rounded quotient scaled back. *)
Lemma round53_small x : x < 2 ^ 53 -> round53 x = x.
Proof.
  intros Hx. unfold round53.
  destruct (Z.leb_spec (Z.log2 x - 52) 0) as [|Hgt]; [reflexivity|].
  exfalso. destruct (Z.le_gt_cases x 0) as [Hle|Hpos].
  - rewrite Z.log2_nonpos in Hgt by assumption. lia.
  - apply Z.log2_lt_pow2 in Hx; lia.
Qed.

Lemma round53_bounds x :
  1 <= x -> 2 ^ Z.log2 x <= round53 x <= 2 ^ (Z.log2 x + 1).
Proof.
  intros Hx. pose proof (Z.log2_spec x ltac:(lia)) as [Hlo Hhi].
  replace (Z.succ (Z.log2 x)) with (Z.log2 x + 1) in Hhi by lia.
  unfold round53.
  destruct (Z.leb_spec (Z.log2 x - 52) 0) as [|Hgt]; [lia|].
  set (e := Z.log2 x - 52) in *.
  assert (0 < 2 ^ e) as Hpe by (apply Z.pow_pos_nonneg; lia).
  pose proof (rne_bounds x (2 ^ e) Hpe) as [Hr1 Hr2].
  assert (2 ^ Z.log2 x = 2 ^ e * 2 ^ 52) as E1.
  { rewrite <- Z.pow_add_r by lia. f_equal. lia. }
  assert (2 ^ (Z.log2 x + 1) = 2 ^ e * 2 ^ 53) as E2.
  { rewrite <- Z.pow_add_r by lia. f_equal. lia. }
  assert (2 ^ 52 <= x / 2 ^ e) as Hq1.
  { apply Z.div_le_lower_bound; [assumption|]. lia. }
  assert (x / 2 ^ e < 2 ^ 53) as Hq2.
  { apply Z.div_lt_upper_bound; [assumption|]. lia. }
  rewrite E1, E2. split; apply Z.mul_le_mono_nonneg_l; lia.
Qed.

Lemma round53_monotone x y : 0 <= x <= y -> round53 x <= round53 y.
Proof.
  intros [Hx Hxy].
  destruct (Z.eq_dec x 0) as [->|Hx0].
  - rewrite (round53_small 0) by lia.
    destruct (Z.eq_dec y 0) as [->|]; [rewrite round53_small; lia|].
    pose proof (round53_bounds y ltac:(lia)).
    pose proof (Z.pow_pos_nonneg 2 (Z.log2 y) ltac:(lia) (Z.log2_nonneg y)).
    lia.
  - pose proof (Z.log2_le_mono x y Hxy) as HL.
    destruct (Z.eq_dec (Z.log2 x) (Z.log2 y)) as [E|Hne].
    + unfold round53. rewrite E.
      destruct (Z.leb_spec (Z.log2 y - 52) 0); [assumption|].
      apply Z.mul_le_mono_nonneg_l; [apply Z.pow_nonneg; lia|].
      apply rne_monotone; [apply Z.pow_pos_nonneg; lia|assumption].
    + pose proof (round53_bounds x ltac:(lia)) as [_ Hux].
      pose proof (round53_bounds y ltac:(lia)) as [Hly _].
      assert (2 ^ (Z.log2 x + 1) <= 2 ^ Z.log2 y)
        by (apply Z.pow_le_mono_r; lia).
      lia.
Qed.

Lemma quotient_log2_bounds x y :
  0 < y <= x ->
  y * 2 ^ Z.log2 (x / y) <= x < y * 2 ^ (Z.log2 (x / y) + 1).
Proof.
  intros [Hy Hxy].
  assert (1 <= x / y) as Hq by (apply Z.div_le_lower_bound; lia).
  pose proof (Z.log2_spec (x / y) ltac:(lia)) as [Hlo Hhi].
  replace (Z.succ (Z.log2 (x / y))) with (Z.log2 (x / y) + 1) in Hhi by lia.
  pose proof (Z.mul_div_le x y Hy).
  pose proof (Z.mul_succ_div_gt x y Hy).
  split; nia.
Qed.

(** The significand of the rounded quotient, and the result, stay within
    the binade of the exact quotient. *)
Lemma trunc_fdiv_bounds x y :
  0 < y <= x ->
  2 ^ Z.log2 (x / y) <= trunc_fdiv x y <= 2 ^ (Z.log2 (x / y) + 1).
Proof.
  intros Hyx. pose proof (quotient_log2_bounds x y Hyx) as [Hlo Hhi].
  destruct Hyx as [Hy Hxy].
  unfold trunc_fdiv. destruct (Z.ltb_spec x y); [lia|].
  set (n := Z.log2 (x / y)) in *.
  assert (0 <= n) as Hn by apply Z.log2_nonneg.
  destruct (Z.leb_spec 52 n) as [Hbig|Hsmall].
  - set (d := n - 52).
    assert (0 < 2 ^ d) as Hpd by (apply Z.pow_pos_nonneg; lia).
    assert (2 ^ n = 2 ^ d * 2 ^ 52) as E1
      by (rewrite <- Z.pow_add_r by lia; f_equal; lia).
    assert (2 ^ (n + 1) = 2 ^ d * 2 ^ 53) as E2
      by (rewrite <- Z.pow_add_r by lia; f_equal; lia).
    pose proof (rne_bounds x (y * 2 ^ d) ltac:(lia)) as [Hr1 Hr2].
    assert (2 ^ 52 <= x / (y * 2 ^ d)) as Hq1
      by (apply Z.div_le_lower_bound; nia).
    assert (x / (y * 2 ^ d) < 2 ^ 53) as Hq2
      by (apply Z.div_lt_upper_bound; nia).
    rewrite E1, E2. split; apply Z.mul_le_mono_nonneg_l; lia.
  - set (s := 52 - n).
    assert (0 < 2 ^ s) as Hps by (apply Z.pow_pos_nonneg; lia).
    assert (0 < 2 ^ n) as Hpn by (apply Z.pow_pos_nonneg; lia).
    assert (2 ^ 52 = 2 ^ n * 2 ^ s) as E1
      by (rewrite <- Z.pow_add_r by lia; f_equal; lia).
    assert (2 ^ 53 = 2 ^ (n + 1) * 2 ^ s) as E2
      by (rewrite <- Z.pow_add_r by lia; f_equal; lia).
    pose proof (rne_bounds (x * 2 ^ s) y Hy) as [Hr1 Hr2].
    assert (2 ^ 52 <= x * 2 ^ s / y) as Hq1
      by (apply Z.div_le_lower_bound; nia).
    assert (x * 2 ^ s / y < 2 ^ 53) as Hq2
      by (apply Z.div_lt_upper_bound; nia).
    split.
    + apply Z.div_le_lower_bound; [assumption|]. nia.
    + apply Z.div_le_upper_bound; [assumption|]. nia.
Qed.

Lemma trunc_fdiv_nonneg x y : 0 < y -> 0 <= x -> 0 <= trunc_fdiv x y.
Proof.
  intros Hy Hx. destruct (Z.lt_ge_cases x y) as [Hlt|Hge].
  - unfold trunc_fdiv. destruct (Z.ltb_spec x y); lia.
  - pose proof (trunc_fdiv_bounds x y ltac:(lia)) as [Hlo _].
    pose proof (Z.pow_nonneg 2 (Z.log2 (x / y)) ltac:(lia)). lia.
Qed.

Lemma trunc_fdiv_monotone x x' y :
  0 < y -> 0 <= x <= x' -> trunc_fdiv x y <= trunc_fdiv x' y.
Proof.
  intros Hy [Hx Hxx].
  destruct (Z.lt_ge_cases x y) as [Hlt|Hge].
  - replace (trunc_fdiv x y) with 0
      by (unfold trunc_fdiv; destruct (Z.ltb_spec x y); lia).
    apply trunc_fdiv_nonneg; lia.
  - pose proof (Z.div_le_mono x x' y Hy Hxx) as Hq.
    assert (1 <= x / y) as Hq1 by (apply Z.div_le_lower_bound; lia).
    pose proof (Z.log2_le_mono _ _ Hq) as HL.
    destruct (Z.eq_dec (Z.log2 (x / y)) (Z.log2 (x' / y))) as [E|Hne].
    + unfold trunc_fdiv. rewrite E.
      destruct (Z.ltb_spec x y); [lia|]. destruct (Z.ltb_spec x' y); [lia|].
      set (n := Z.log2 (x' / y)) in *.
      destruct (Z.leb_spec 52 n).
      * apply Z.mul_le_mono_nonneg_l; [apply Z.pow_nonneg; lia|].
        apply rne_monotone; [|assumption].
        pose proof (Z.pow_pos_nonneg 2 (n - 52) ltac:(lia) ltac:(lia)). lia.
      * apply Z.div_le_mono; [apply Z.pow_pos_nonneg; lia|].
        apply rne_monotone; [assumption|].
        apply Z.mul_le_mono_nonneg_r; [apply Z.pow_nonneg; lia|assumption].
    + pose proof (trunc_fdiv_bounds x y ltac:(lia)) as [_ Hu].
      pose proof (trunc_fdiv_bounds x' y ltac:(lia)) as [Hl _].
      assert (2 ^ (Z.log2 (x / y) + 1) <= 2 ^ Z.log2 (x' / y))
        by (apply Z.pow_le_mono_r; lia).
      lia.
Qed.

(** Below [2^53] the division on doubles truncates to the integer
    quotient. *)
Lemma trunc_fdiv_exact x y :
  0 < y -> 0 <= x < 2 ^ 53 -> trunc_fdiv x y = x / y.
Proof.
  intros Hy [Hx Hx53]. unfold trunc_fdiv.
  destruct (Z.ltb_spec x y) as [Hlt|Hge];
    [symmetry; apply Z.div_small; lia|].
  pose proof (quotient_log2_bounds x y ltac:(lia)) as [Hlo Hhi].
  set (n := Z.log2 (x / y)) in *.
  assert (0 <= n) as Hn by apply Z.log2_nonneg.
  assert (0 < 2 ^ n) as Hpn by (apply Z.pow_pos_nonneg; lia).
  destruct (Z.leb_spec 52 n) as [Hbig|Hsmall].
  - assert (2 ^ 52 <= 2 ^ n) by (apply Z.pow_le_mono_r; lia).
    assert (y = 1) as -> by nia.
    assert (n = 52) as ->.
    { assert (2 ^ n < 2 ^ 53) as Hlt by lia.
      apply Z.pow_lt_mono_r_iff in Hlt; lia. }
    change (2 ^ (52 - 52)) with 1. rewrite Z.mul_1_r, rne_exact;
      [lia | lia | apply Z.mod_1_r].
  - set (s := 52 - n) in *.
    assert (0 < 2 ^ s) as Hps by (apply Z.pow_pos_nonneg; lia).
    assert (2 ^ 53 = 2 ^ n * (2 * 2 ^ s)) as E53.
    { replace (2 * 2 ^ s) with (2 ^ (s + 1)) by (rewrite Z.pow_add_r; lia).
      rewrite <- Z.pow_add_r by lia. f_equal. lia. }
    assert (y < 2 * 2 ^ s) as Hy2 by nia.
    pose proof (Z.mul_div_le x y Hy) as Hk1.
    pose proof (Z.mul_succ_div_gt x y Hy) as Hk2.
    set (k := x / y) in *.
    pose proof (Z.div_mod (x * 2 ^ s) y ltac:(lia)) as HX.
    pose proof (Z.mod_pos_bound (x * 2 ^ s) y Hy) as HR.
    assert (k * 2 ^ s <= x * 2 ^ s / y) as HQ1
      by (apply Z.div_le_lower_bound; nia).
    assert (x * 2 ^ s / y < (k + 1) * 2 ^ s) as HQ2
      by (apply Z.div_lt_upper_bound; nia).
    symmetry. apply Z.div_unique with (r := rne (x * 2 ^ s) y - k * 2 ^ s).
    + left. unfold rne.
      set (Q := x * 2 ^ s / y) in *. set (R := (x * 2 ^ s) mod y) in *.
      destruct (Z.ltb_spec (2 * R) y); [lia|].
      assert (Q + 1 < (k + 1) * 2 ^ s) by nia.
      destruct (Z.ltb_spec y (2 * R)); [lia|].
      destruct (Z.even Q); lia.
    + lia.
Qed.

(** [centile_count] grows with the centile. *)
Lemma centile_count_monotone total p1 p2 :
  0 < total -> 0 <= p1 <= p2 ->
  centile_count total p1 <= centile_count total p2.
Proof.
  intros Ht [Hp1 Hp]. unfold centile_count, double_div_trunc, double_mul,
    int64_to_double.
  destruct (Z.ltb_spec total 0); [lia|].
  assert (0 <= round53 total) as Hrt.
  { pose proof (round53_bounds total ltac:(lia)) as [Hlo _].
    pose proof (Z.pow_nonneg 2 (Z.log2 total) ltac:(lia)). lia. }
  destruct (Z.ltb_spec (round53 total) 0); [lia|].
  assert (0 <= round53 total * p1 <= round53 total * p2) as Hprod by nia.
  pose proof (round53_monotone _ _ Hprod) as Hmono.
  assert (0 <= round53 (round53 total * p1)) as Hr1.
  { pose proof (round53_monotone 0 (round53 total * p1) ltac:(lia)) as Hz.
    rewrite (round53_small 0) in Hz by lia. assumption. }
  destruct (Z.ltb_spec (round53 (round53 total * p1)) 0); [lia|].
  destruct (Z.ltb_spec (round53 (round53 total * p2)) 0); [lia|].
  apply trunc_fdiv_monotone; lia.
Qed.

(** ** Centile search *)

Lemma centile_search_S count_upto todo cnt lo hi cur :
  centile_search count_upto (S todo) cnt lo hi cur =
  if 1 <? wrap64 (hi - lo) then
    curcount ← count_upto cur;
    if curcount =? cnt then Val cur
    else if cnt <? curcount then
      centile_search count_upto todo cnt lo cur
        (wrap64 (lo + Z.quot (wrap64 (cur - lo)) 2))
    else
      centile_search count_upto todo cnt cur hi
        (wrap64 (hi - Z.quot (wrap64 (hi - cur)) 2))
  else Val cur.
Proof. reflexivity. Qed.

Lemma lower_guess lo cur :
  in_int64 lo -> in_int64 cur -> cur - lo <= INT64_MAX -> lo <= cur ->
  lo <= wrap64 (lo + Z.quot (wrap64 (cur - lo)) 2) <= cur.
Proof.
  unfold in_int64, INT64_MIN, INT64_MAX. intros Hlo Hcur Hd Hle.
  rewrite (wrap64_id (cur - lo))
    by (unfold in_int64, INT64_MIN, INT64_MAX; lia).
  rewrite Z.quot_div_nonneg by lia.
  pose proof (Z.div_pos (cur - lo) 2 ltac:(lia) ltac:(lia)).
  pose proof (Z.mul_div_le (cur - lo) 2 ltac:(lia)).
  rewrite wrap64_id by (unfold in_int64, INT64_MIN, INT64_MAX; lia). lia.
Qed.

Lemma upper_guess hi cur :
  in_int64 hi -> in_int64 cur -> hi - cur <= INT64_MAX -> cur <= hi ->
  cur <= wrap64 (hi - Z.quot (wrap64 (hi - cur)) 2) <= hi.
Proof.
  unfold in_int64, INT64_MIN, INT64_MAX. intros Hhi Hcur Hd Hle.
  rewrite (wrap64_id (hi - cur))
    by (unfold in_int64, INT64_MIN, INT64_MAX; lia).
  rewrite Z.quot_div_nonneg by lia.
  pose proof (Z.div_pos (hi - cur) 2 ltac:(lia) ltac:(lia)).
  pose proof (Z.mul_div_le (hi - cur) 2 ltac:(lia)).
  rewrite wrap64_id by (unfold in_int64, INT64_MIN, INT64_MAX; lia). lia.
Qed.

(** The guess returned stays between the bounds the search started
    from. *)
Lemma centile_search_within count_upto todo cnt :
  forall lo hi cur g,
    in_int64 lo -> in_int64 hi -> hi - lo <= INT64_MAX -> lo <= cur <= hi ->
    centile_search count_upto todo cnt lo hi cur = Val g ->
    lo <= g <= hi.
Proof.
  induction todo as [|todo IH]; intros lo hi cur g Hlo Hhi Hd Hcur Hrun.
  - simpl in Hrun. injection Hrun as <-. assumption.
  - rewrite centile_search_S in Hrun.
    destruct (1 <? wrap64 (hi - lo)); [|injection Hrun as <-; assumption].
    destruct (count_upto cur) as [k|e|]; simpl in Hrun; try discriminate.
    assert (in_int64 cur) as Hc by (unfold in_int64 in *; lia).
    destruct (k =? cnt); [injection Hrun as <-; assumption|].
    destruct (cnt <? k).
    + pose proof (lower_guess lo cur Hlo Hc ltac:(lia) ltac:(lia)).
      apply IH in Hrun; try assumption; lia.
    + pose proof (upper_guess hi cur Hhi Hc ltac:(lia) ltac:(lia)).
      apply IH in Hrun; try assumption; lia.
Qed.

(** Two searches over the same counts from the same state: the one with
    the smaller target never ends above the other. *)
Lemma centile_search_monotone count_upto todo c1 c2 :
  c1 <= c2 ->
  forall lo hi cur g1 g2,
    in_int64 lo -> in_int64 hi -> hi - lo <= INT64_MAX -> lo <= cur <= hi ->
    centile_search count_upto todo c1 lo hi cur = Val g1 ->
    centile_search count_upto todo c2 lo hi cur = Val g2 ->
    g1 <= g2.
Proof.
  intros Hc. induction todo as [|todo IH];
    intros lo hi cur g1 g2 Hlo Hhi Hd Hcur H1 H2.
  - simpl in H1, H2. injection H1 as <-. injection H2 as <-. lia.
  - rewrite centile_search_S in H1, H2.
    destruct (1 <? wrap64 (hi - lo));
      [|injection H1 as <-; injection H2 as <-; lia].
    destruct (count_upto cur) as [k|e|]; simpl in H1, H2; try discriminate.
    assert (in_int64 cur) as Hcu by (unfold in_int64 in *; lia).
    pose proof (lower_guess lo cur Hlo Hcu ltac:(lia) ltac:(lia)) as Hlg.
    pose proof (upper_guess hi cur Hhi Hcu ltac:(lia) ltac:(lia)) as Hug.
    destruct (Z.eqb_spec k c1) as [E1|N1]; destruct (Z.eqb_spec k c2) as [E2|N2].
    + injection H1 as <-. injection H2 as <-. lia.
    + injection H1 as <-. destruct (Z.ltb_spec c2 k); [lia|].
      apply centile_search_within in H2; try assumption; lia.
    + injection H2 as <-. destruct (Z.ltb_spec c1 k); [|lia].
      apply centile_search_within in H1; try assumption; lia.
    + destruct (Z.ltb_spec c1 k); destruct (Z.ltb_spec c2 k); try lia.
      * eapply IH; [| | | |exact H1|exact H2]; try assumption; lia.
      * apply centile_search_within in H1; try assumption; try lia.
        apply centile_search_within in H2; try assumption; lia.
      * eapply IH; [| | | |exact H1|exact H2]; try assumption; lia.
Qed.

Lemma wrap64_high z : 2 ^ 63 <= z < 2 ^ 64 -> wrap64 z = z - 2 ^ 64.
Proof.
  intros Hz. unfold wrap64.
  replace (z + 2 ^ 63) with (z - 2 ^ 63 + 1 * 2 ^ 64) by lia.
  rewrite Z_mod_plus_full, Z.mod_small; lia.
Qed.

(** From the initial guess [0], whatever bounds the search starts from:
    when [higuess - loguess] does not fit an [int64] the loop is never
    entered and both searches return [0]. *)
Lemma centile_search_from_zero count_upto todo c1 c2 lo hi g1 g2 :
  c1 <= c2 -> in_int64 lo -> in_int64 hi -> lo <= 0 <= hi ->
  centile_search count_upto todo c1 lo hi 0 = Val g1 ->
  centile_search count_upto todo c2 lo hi 0 = Val g2 ->
  g1 <= g2.
Proof.
  intros Hc Hlo Hhi H0 H1 H2.
  destruct (Z.le_gt_cases (hi - lo) INT64_MAX) as [Hfit|Hbig].
  - eapply centile_search_monotone; [exact Hc| | | | |exact H1|exact H2];
      assumption.
  - assert (wrap64 (hi - lo) < 0) as Hneg.
    { unfold in_int64, INT64_MIN, INT64_MAX in *.
      rewrite wrap64_high by lia. lia. }
    destruct todo as [|todo].
    + simpl in H1, H2. injection H1 as <-. injection H2 as <-. lia.
    + rewrite centile_search_S in H1, H2.
      destruct (Z.ltb_spec 1 (wrap64 (hi - lo))); [lia|].
      injection H1 as <-. injection H2 as <-. lia.
Qed.

(** With the bounds of the full [int64] domain the difference
    [higuess - loguess] wraps to [-1]: every valid centile yields the
    initial guess. *)
Lemma cmsketch_centile_c_full_domain lg D N md5_lane (t : cmtransval) p total :
  0 < p < 100 -> cmsketch_centile_c lg D N md5_lane t p total = Val 0.
Proof.
  intros Hp. unfold cmsketch_centile_c.
  destruct (Z.leb_spec p 0); [lia|]. destruct (Z.leb_spec 100 p); [lia|].
  reflexivity.
Qed.

(** C8: [cmsketch_centile_c] is its loop run from the constants of the
    header.  Whatever these constants are ([minval <= 0 <= maxval] in
    [int64], any number of iterations) and whatever the counts, for a
    positive total and centiles [0 < p1 < p2 < 100] the value the binary
    search finds for [p1] is at most the one it finds for [p2]; with the
    constants of the specification both calls return, in that order. *)
Theorem cmsketch_centile_monotone count_upto minval maxval longbits
    lg D N md5_lane (t : cmtransval) total p1 p2 :
  in_int64 minval -> in_int64 maxval -> minval <= 0 <= maxval ->
  0 < total -> 0 < p1 < p2 -> p2 < 100 ->
  (forall p,
     cmsketch_centile_c lg D N md5_lane t p total =
     centile_with (cmsketch_rangecount_c lg D N md5_lane t MINVAL)
       MINVAL MAXVAL LONGBITS p total)
  /\ (forall g1 g2,
        centile_with count_upto minval maxval longbits p1 total = Val g1 ->
        centile_with count_upto minval maxval longbits p2 total = Val g2 ->
        g1 <= g2)
  /\ exists g1 g2,
       cmsketch_centile_c lg D N md5_lane t p1 total = Val g1
       /\ cmsketch_centile_c lg D N md5_lane t p2 total = Val g2
       /\ g1 <= g2.
Proof.
  intros Hlo Hhi Hzero Ht Hp Hp2. split; [reflexivity|]. split.
  - intros g1 g2. unfold centile_with.
    destruct (Z.leb_spec p1 0); [lia|]. destruct (Z.leb_spec 100 p1); [lia|].
    destruct (Z.leb_spec p2 0); [lia|]. destruct (Z.leb_spec 100 p2); [lia|].
    cbn [orb]. intros Hs1 Hs2.
    eapply centile_search_from_zero; [| | | |exact Hs1|exact Hs2];
      [apply centile_count_monotone; lia|assumption|assumption|assumption].
  - exists 0, 0.
    rewrite !cmsketch_centile_c_full_domain by lia.
    split; [reflexivity|]. split; [reflexivity|lia].
Qed.

(** ** Equi-width histogram *)

Lemma histogram_step_exact min max buckets :
  in_int64 min -> in_int64 max -> min <= max -> 1 <= buckets ->
  max - min + 1 < 2 ^ 53 ->
  histogram_step min max buckets = Z.max ((max - min + 1) / buckets) 1.
Proof.
  intros Hmin Hmax Hle Hb Hw. unfold histogram_step.
  rewrite (wrap64_id (max - min + 1))
    by (unfold in_int64, INT64_MIN, INT64_MAX in *; lia).
  unfold int64_to_double, double_div_trunc.
  destruct (Z.ltb_spec (max - min + 1) 0); [lia|].
  rewrite round53_small by assumption.
  destruct (Z.ltb_spec (max - min + 1) 0); [lia|].
  rewrite trunc_fdiv_exact by lia.
  apply wrap64_id.
  pose proof (Z.div_pos (max - min + 1) buckets ltac:(lia) ltac:(lia)).
  pose proof (Z.div_le_upper_bound (max - min + 1) buckets (max - min + 1)
                ltac:(lia) ltac:(nia)).
  unfold in_int64, INT64_MIN, INT64_MAX. lia.
Qed.

Lemma histogram_loop_exact lg D N md5_lane (t : cmtransval)
    min max buckets step :
  in_int64 min -> in_int64 max -> min <= max -> 1 <= step ->
  (step = 1 /\ max < INT64_MAX) \/ buckets * step <= max - min + 1 ->
  forall todo i,
    Z.of_nat todo = buckets - i -> 0 <= i ->
    (todo <> O -> min + i * step <= INT64_MAX) ->
    histogram_loop lg D N md5_lane t min max buckets step todo i =
    equi_width_buckets (cmsketch_rangecount_c lg D N md5_lane t)
      min max buckets step todo i.
Proof.
  intros Hmin Hmax Hle Hstep Hcase.
  induction todo as [|todo IH]; intros i Htodo Hi Hfit; [reflexivity|].
  simpl. specialize (Hfit ltac:(discriminate)).
  assert (min <= min + i * step) as Hlo by nia.
  rewrite (wrap64_id (min + i * step))
    by (unfold in_int64, INT64_MIN, INT64_MAX in *; lia).
  destruct (Z.ltb_spec max (min + i * step)) as [|Hreach]; [reflexivity|].
  assert ((i =? buckets - 1) = false ->
          in_int64 (min + (i + 1) * step - 1)
          /\ min + (i + 1) * step <= INT64_MAX) as Hhi.
  { intros Hnf%Z.eqb_neq. unfold in_int64, INT64_MIN, INT64_MAX in *.
    destruct Hcase as [[-> Hm]|Hb]; [lia|].
    assert ((i + 1) * step <= (buckets - 1) * step) by nia. nia. }
  assert (histogram_loop lg D N md5_lane t min max buckets step todo (i + 1) =
          equi_width_buckets (cmsketch_rangecount_c lg D N md5_lane t)
            min max buckets step todo (i + 1)) as Hrest.
  { destruct todo as [|todo']; [reflexivity|].
    apply IH; [lia|lia|]. intros _. apply Hhi. apply Z.eqb_neq. lia. }
  destruct (i =? buckets - 1) eqn:Hfinal.
  - rewrite Hrest. reflexivity.
  - destruct (Hhi eq_refl) as [Hin _]. rewrite (wrap64_id _ Hin), Hrest.
    reflexivity.
Qed.


(** ** Span count of the decomposition *)

Lemma round53_pow2 k : 0 <= k -> round53 (2 ^ k) = 2 ^ k.
Proof.
  intros Hk. unfold round53. rewrite Z.log2_pow2 by assumption.
  destruct (Z.leb_spec (k - 52) 0) as [|He]; [reflexivity|].
  assert (2 ^ k = 2 ^ (k - 52) * 2 ^ 52) as E
    by (rewrite <- Z.pow_add_r by lia; f_equal; lia).
  assert (0 < 2 ^ (k - 52)) by (apply Z.pow_pos_nonneg; lia).
  set (P := 2 ^ (k - 52)) in *. rewrite E, (Z.mul_comm P (2 ^ 52)).
  rewrite rne_exact.
  - rewrite Z.div_mul by lia. lia.
  - assumption.
  - apply Z.mod_mul. lia.
Qed.

Lemma largest_dyad_exact_pos w :
  1 <= w -> largest_dyad Z.log2 w = Some (Z.to_nat (dyad_of w)).
Proof.
  intros Hw. unfold largest_dyad, int64_to_double, dyad_of.
  destruct (Z.ltb_spec w 0); [lia|].
  pose proof (round53_bounds w Hw) as [Hlo _].
  pose proof (Z.pow_pos_nonneg 2 (Z.log2 w) ltac:(lia) (Z.log2_nonneg w)).
  destruct (Z.leb_spec (round53 w) 0); [lia|].
  pose proof (Z.log2_nonneg (round53 w)).
  destruct (Z.ltb_spec (Z.log2 (round53 w)) 0); [lia|].
  apply dyad_correct_faithful; lia.
Qed.

Lemma largest_dyad_exact_nonpos w :
  in_int64 w -> w <= 0 -> largest_dyad Z.log2 w = None.
Proof.
  intros _ Hw. unfold largest_dyad, int64_to_double.
  destruct (Z.ltb_spec w 0) as [Hneg|Hz].
  - destruct (Z.eq_dec w 0); [lia|].
    pose proof (round53_bounds (- w) ltac:(lia)) as [Hlo _].
    pose proof (Z.pow_pos_nonneg 2 (Z.log2 (- w)) ltac:(lia) (Z.log2_nonneg _)).
    destruct (Z.leb_spec (- round53 (- w)) 0); [reflexivity|lia].
  - assert (w = 0) as -> by lia. reflexivity.
Qed.

Lemma dyad_of_range w :
  1 <= w -> Z.log2 w <= dyad_of w <= Z.log2 w + 1.
Proof.
  intros Hw. unfold dyad_of.
  pose proof (round53_bounds w Hw) as [Hlo Hhi].
  pose proof (Z.log2_nonneg w).
  split.
  - apply Z.log2_le_pow2; [|assumption].
    pose proof (Z.pow_pos_nonneg 2 (Z.log2 w) ltac:(lia) ltac:(lia)). lia.
  - apply Z.log2_le_mono in Hhi. rewrite Z.log2_pow2 in Hhi by lia. assumption.
Qed.

Lemma dyad_of_above w : 1 <= w -> w < 2 ^ (dyad_of w + 1).
Proof.
  intros Hw. pose proof (dyad_of_range w Hw) as [Hlo _].
  pose proof (Z.log2_spec w ltac:(lia)) as [_ Hhi].
  pose proof (Z.log2_nonneg w).
  assert (2 ^ Z.succ (Z.log2 w) <= 2 ^ (dyad_of w + 1))
    by (apply Z.pow_le_mono_r; lia).
  lia.
Qed.

Lemma dyad_of_le w K : 1 <= w <= 2 ^ K -> 0 <= K -> dyad_of w <= K.
Proof.
  intros [Hw HK] HK0. unfold dyad_of.
  pose proof (round53_monotone w (2 ^ K) ltac:(lia)) as Hm.
  rewrite round53_pow2 in Hm by assumption.
  apply Z.log2_le_mono in Hm. rewrite Z.log2_pow2 in Hm by assumption.
  assumption.
Qed.

Lemma dyad_of_pow2 K : 0 <= K -> dyad_of (2 ^ K) = K.
Proof.
  intros HK. unfold dyad_of. rewrite round53_pow2 by assumption.
  apply Z.log2_pow2. assumption.
Qed.

Lemma dyad_of_nonneg w : 0 <= dyad_of w.
Proof. apply Z.log2_nonneg. Qed.

(** *** Conversions between [int64] and [uint64] *)

Lemma pow2_divides_64 d : 0 <= d <= 64 -> (2 ^ d | 2 ^ 64).
Proof.
  intros Hd. exists (2 ^ (64 - d)).
  rewrite <- Z.pow_add_r by lia. f_equal. lia.
Qed.

Lemma to_uint64_mod d z : 0 <= d <= 64 -> to_uint64 z mod 2 ^ d = z mod 2 ^ d.
Proof.
  intros Hd. unfold to_uint64.
  apply Z.mod_mod_divide, pow2_divides_64. assumption.
Qed.

Lemma wrap64_to_uint64 z x : wrap64 (to_uint64 z + x) = wrap64 (z + x).
Proof.
  unfold wrap64, to_uint64. f_equal.
  rewrite <- Z.add_assoc, Zplus_mod_idemp_l. f_equal. lia.
Qed.

Lemma wrap64_mod d z : 0 <= d <= 63 -> wrap64 z mod 2 ^ d = z mod 2 ^ d.
Proof.
  intros Hd. unfold wrap64.
  assert (0 < 2 ^ d) by (apply Z.pow_pos_nonneg; lia).
  assert (2 ^ 63 = 2 ^ (63 - d) * 2 ^ d) as E
    by (rewrite <- Z.pow_add_r by lia; f_equal; lia).
  rewrite E at 2.
  replace ((z + 2 ^ 63) mod 2 ^ 64 - 2 ^ (63 - d) * 2 ^ d)
    with ((z + 2 ^ 63) mod 2 ^ 64 + (- 2 ^ (63 - d)) * 2 ^ d) by lia.
  rewrite Z_mod_plus_full.
  rewrite Z.mod_mod_divide by (apply pow2_divides_64; lia).
  rewrite E, Z_mod_plus_full. reflexivity.
Qed.

Lemma boundary_is_floor d top :
  0 <= d <= 63 -> in_int64 top ->
  wrap64 (2 ^ d * (to_uint64 top / 2 ^ d)) = top - top mod 2 ^ d.
Proof.
  intros Hd Htop.
  assert (0 < 2 ^ d) as Hp by (apply Z.pow_pos_nonneg; lia).
  pose proof (Z.div_mod (to_uint64 top) (2 ^ d) ltac:(lia)) as Hdm.
  rewrite to_uint64_mod in Hdm by lia.
  replace (2 ^ d * (to_uint64 top / 2 ^ d))
    with (to_uint64 top + - (top mod 2 ^ d)) by lia.
  rewrite wrap64_to_uint64. apply wrap64_id.
  pose proof (Z.mod_pos_bound top (2 ^ d) Hp) as Hr.
  pose proof (Z.div_mod top (2 ^ d) ltac:(lia)) as Ht.
  assert (2 ^ 63 = 2 ^ d * 2 ^ (63 - d)) as E
    by (rewrite <- Z.pow_add_r by lia; f_equal; lia).
  assert (- 2 ^ (63 - d) <= top / 2 ^ d).
  { apply Z.div_le_lower_bound; [assumption|].
    unfold in_int64, INT64_MIN in Htop. lia. }
  unfold in_int64, INT64_MIN, INT64_MAX in *. nia.
Qed.

(** *** One step of the recursion on a range of one sign *)

Lemma span_count_seq a b :
  (span_count (seq_emit a b) <= span_count a + span_count b)%nat.
Proof.
  destruct a as [l [|]]; unfold span_count; simpl.
  - rewrite length_app. lia.
  - lia.
Qed.

Lemma span_count_seq_single s b :
  span_count (seq_emit ([s], Returned) b) = S (span_count b).
Proof. reflexivity. Qed.

Lemma find_ranges_levels_step n bot top :
  in_int64 bot -> in_int64 top -> bot < top -> ~ (bot < 0 <= top) ->
  top - bot + 1 < 2 ^ 63 ->
  find_ranges_levels Z.log2 (S n) bot top =
  let width := 2 ^ dyad_of (top - bot + 1) in
  if (bot =? MINVAL) || (bot mod width =? 0) then
    seq_emit ([(bot, wrap64 (bot + width - 1))], Returned)
             (find_ranges_levels Z.log2 n (wrap64 (bot + width)) top)
  else if (top =? MAXVAL) || ((top + 1) mod width =? 0) then
    seq_emit ([(wrap64 (top - width + 1), top)], Returned)
             (find_ranges_levels Z.log2 n bot (wrap64 (top - width)))
  else
    seq_emit (find_ranges_levels Z.log2 n bot
                (wrap64 (top - top mod width - 1)))
             (find_ranges_levels Z.log2 n (top - top mod width) top).
Proof.
  intros Hb Ht Hlt Hsign Hw. rewrite find_ranges_levels_S.
  destruct (Z.ltb_spec top bot); [lia|].
  destruct (Z.eqb_spec top bot); [lia|].
  assert ((0 <=? top) && (bot <? 0) = false) as ->.
  { destruct (Z.leb_spec 0 top); destruct (Z.ltb_spec bot 0);
      try reflexivity. lia. }
  rewrite (wrap64_id (top - bot + 1))
    by (unfold in_int64, INT64_MIN, INT64_MAX in *; lia).
  rewrite largest_dyad_exact_pos by lia.
  pose proof (dyad_of_nonneg (top - bot + 1)) as Hd0.
  assert (dyad_of (top - bot + 1) <= 63) as Hd63
    by (apply dyad_of_le; lia).
  rewrite Z2Nat.id by assumption. cbv zeta.
  set (d := dyad_of (top - bot + 1)) in *.
  rewrite !to_uint64_mod, wrap64_mod by lia.
  rewrite boundary_is_floor by (try assumption; lia).
  replace (to_uint64 bot + 2 ^ d - 1) with (to_uint64 bot + (2 ^ d - 1)) by lia.
  replace (to_uint64 top - 2 ^ d + 1) with (to_uint64 top + (- 2 ^ d + 1)) by lia.
  replace (to_uint64 top - 2 ^ d) with (to_uint64 top + (- 2 ^ d)) by lia.
  rewrite !wrap64_to_uint64.
  replace (bot + (2 ^ d - 1)) with (bot + 2 ^ d - 1) by lia.
  replace (top + (- 2 ^ d + 1)) with (top - 2 ^ d + 1) by lia.
  replace (top + - 2 ^ d) with (top - 2 ^ d) by lia.
  reflexivity.
Qed.

Lemma find_ranges_levels_stuck n bot top :
  in_int64 bot -> in_int64 top -> ~ (bot < 0 <= top) ->
  top - bot + 1 = 2 ^ 63 ->
  find_ranges_levels Z.log2 (S n) bot top = ([], NoReturn).
Proof.
  intros Hb Ht Hsign Hw. rewrite find_ranges_levels_S.
  destruct (Z.ltb_spec top bot); [lia|].
  destruct (Z.eqb_spec top bot); [lia|].
  assert ((0 <=? top) && (bot <? 0) = false) as ->.
  { destruct (Z.leb_spec 0 top); destruct (Z.ltb_spec bot 0);
      try reflexivity. lia. }
  rewrite Hw. reflexivity.
Qed.

(** *** Chains of aligned ranges *)

Lemma find_ranges_levels_empty n bot top :
  top < bot -> find_ranges_levels Z.log2 n bot top = ([], Returned).
Proof.
  intros Hlt. destruct n; [reflexivity|].
  rewrite find_ranges_levels_S. destruct (Z.ltb_spec top bot); [reflexivity|lia].
Qed.

Lemma find_ranges_levels_single n bot top :
  top = bot -> (span_count (find_ranges_levels Z.log2 n bot top) <= 1)%nat.
Proof.
  intros ->. destruct n; [unfold span_count; simpl; lia|].
  rewrite find_ranges_levels_S. rewrite Z.ltb_irrefl, Z.eqb_refl.
  unfold span_count. simpl. lia.
Qed.

(** After a low bound wrapped around to [MINVAL]: the call splits at
    zero and its negative half never returns. *)
Lemma wrapped_low n top :
  0 <= top -> in_int64 top ->
  span_count (find_ranges_levels Z.log2 n MINVAL top) = 0%nat.
Proof.
  intros Htop Hin. destruct n as [|n]; [reflexivity|].
  rewrite find_ranges_levels_S.
  unfold MINVAL, INT64_MIN in *.
  destruct (Z.ltb_spec top (- 2 ^ 63)); [lia|].
  destruct (Z.eqb_spec top (- 2 ^ 63)); [lia|].
  destruct (Z.leb_spec 0 top); [|lia]. simpl andb. cbv iota.
  destruct n as [|n]; [reflexivity|].
  rewrite (find_ranges_levels_stuck n (- 2 ^ 63) (-1)); try reflexivity.
  - unfold in_int64, INT64_MIN, INT64_MAX. lia.
  - unfold in_int64, INT64_MIN, INT64_MAX. lia.
  - lia.
Qed.

(** After a high bound wrapped around to [MAXVAL]: the call splits at
    zero and its non-negative half never returns. *)
Lemma wrapped_high n bot :
  bot < 0 -> in_int64 bot ->
  (span_count (find_ranges_levels Z.log2 (S n) bot MAXVAL)
   <= span_count (find_ranges_levels Z.log2 n bot (-1)))%nat.
Proof.
  intros Hbot Hin. rewrite find_ranges_levels_S.
  unfold MAXVAL, INT64_MAX in *. unfold in_int64, INT64_MIN, INT64_MAX in Hin.
  destruct (Z.ltb_spec (2 ^ 63 - 1) bot); [lia|].
  destruct (Z.eqb_spec (2 ^ 63 - 1) bot); [lia|].
  destruct (Z.ltb_spec bot 0); [|lia]. simpl andb. cbv iota.
  etransitivity; [apply span_count_seq|].
  assert (span_count (find_ranges_levels Z.log2 n 0 (2 ^ 63 - 1)) = 0%nat) as ->.
  { destruct n as [|n]; [reflexivity|].
    rewrite (find_ranges_levels_stuck n 0 (2 ^ 63 - 1)); try reflexivity;
      unfold in_int64, INT64_MIN, INT64_MAX; lia. }
  lia.
Qed.

Lemma aligned_weaken z d K :
  0 <= d <= K -> z mod 2 ^ K = 0 -> z mod 2 ^ d = 0.
Proof.
  intros Hd HK. rewrite <- (Z.mod_mod_divide z (2 ^ K) (2 ^ d)).
  - rewrite HK. apply Z.mod_0_l.
    pose proof (Z.pow_pos_nonneg 2 d ltac:(lia) ltac:(lia)). lia.
  - exists (2 ^ (K - d)). rewrite <- Z.pow_add_r by lia. f_equal. lia.
Qed.

Lemma aligned_negative z K : 0 <= K -> z mod 2 ^ K = 0 -> z < 0 -> z <= - 2 ^ K.
Proof.
  intros HK Hz Hneg.
  pose proof (Z.pow_pos_nonneg 2 K ltac:(lia) HK) as Hp.
  pose proof (Z.div_mod z (2 ^ K) ltac:(lia)) as Hdm. rewrite Hz in Hdm.
  assert (z / 2 ^ K < 0) by nia. nia.
Qed.

Lemma aligned_positive z K : 0 <= K -> z mod 2 ^ K = 0 -> 0 < z -> 2 ^ K <= z.
Proof.
  intros HK Hz Hpos.
  pose proof (Z.pow_pos_nonneg 2 K ltac:(lia) HK) as Hp.
  pose proof (Z.div_mod z (2 ^ K) ltac:(lia)) as Hdm. rewrite Hz in Hdm.
  assert (0 < z / 2 ^ K) by nia. nia.
Qed.

Lemma aligned_add z d : 0 <= d -> z mod 2 ^ d = 0 -> (z + 2 ^ d) mod 2 ^ d = 0.
Proof.
  intros Hd Hz. replace (z + 2 ^ d) with (z + 1 * 2 ^ d) by lia.
  rewrite Z_mod_plus_full. assumption.
Qed.

Lemma aligned_sub z d : 0 <= d -> z mod 2 ^ d = 0 -> (z - 2 ^ d) mod 2 ^ d = 0.
Proof.
  intros Hd Hz. replace (z - 2 ^ d) with (z + (-1) * 2 ^ d) by lia.
  rewrite Z_mod_plus_full. assumption.
Qed.

Lemma MINVAL_aligned d : 0 <= d <= 63 -> MINVAL mod 2 ^ d = 0.
Proof.
  intros Hd. unfold MINVAL, INT64_MIN.
  replace (- 2 ^ 63) with (- 2 ^ (63 - d) * 2 ^ d).
  - apply Z.mod_mul.
    pose proof (Z.pow_pos_nonneg 2 d ltac:(lia) ltac:(lia)). lia.
  - rewrite Z.mul_opp_l, <- Z.pow_add_r by lia. do 2 f_equal. lia.
Qed.

(** The remainder to the right of a left-aligned span. *)
Lemma step_left_with n d bot top :
  left_bound n ->
  in_int64 bot -> in_int64 top -> 0 <= d <= 63 ->
  bot mod 2 ^ d = 0 -> bot <= top -> top - bot + 1 < 2 ^ (d + 1) ->
  (span_count (find_ranges_levels Z.log2 n (wrap64 (bot + 2 ^ d)) top) <= n)%nat.
Proof.
  intros Hn Hb Ht Hd Hal Hle Hw.
  pose proof (Z.pow_pos_nonneg 2 d ltac:(lia) ltac:(lia)) as Hp.
  assert (2 ^ (d + 1) = 2 * 2 ^ d) as E by (rewrite Z.pow_add_r; lia).
  destruct (Z.le_gt_cases (bot + 2 ^ d) INT64_MAX) as [Hfit|Hover].
  - rewrite wrap64_id by (unfold in_int64, INT64_MIN, INT64_MAX in *; lia).
    apply (Hn d); try assumption.
    + unfold in_int64, INT64_MIN, INT64_MAX in *; lia.
    + apply aligned_add; [lia|assumption].
    + lia.
  - assert (bot + 2 ^ d = 2 ^ 63) as Hexact.
    { assert (2 ^ 63 = 2 ^ (63 - d) * 2 ^ d) as E63
        by (rewrite <- Z.pow_add_r by lia; f_equal; lia).
      pose proof (Z.div_mod bot (2 ^ d) ltac:(lia)) as Hdm.
      rewrite Hal in Hdm.
      unfold in_int64, INT64_MIN, INT64_MAX in *.
      assert (bot / 2 ^ d < 2 ^ (63 - d)) by nia.
      nia. }
    rewrite Hexact. change (wrap64 (2 ^ 63)) with MINVAL.
    assert (2 ^ d <= 2 ^ 63) by (apply Z.pow_le_mono_r; lia).
    rewrite wrapped_low; [lia| |assumption].
    unfold in_int64, INT64_MIN, INT64_MAX in *. lia.
Qed.

Lemma left_chain n : left_bound n.
Proof.
  induction n as [|n IH]; intros K bot top Hb Ht HK Hal Hw.
  - simpl. unfold span_count. simpl. lia.
  - destruct (Z.lt_trichotomy top bot) as [Hlt|[Heq|Hgt]].
    + rewrite find_ranges_levels_empty by assumption. unfold span_count.
      simpl. lia.
    + pose proof (find_ranges_levels_single (S n) bot top Heq). lia.
    + assert (~ (bot < 0 <= top)) as Hsign.
      { intros [Hneg Hpos].
        pose proof (aligned_negative bot K ltac:(lia) Hal Hneg). lia. }
      assert (2 ^ K <= 2 ^ 63) as HK63 by (apply Z.pow_le_mono_r; lia).
      destruct (Z.eq_dec (top - bot + 1) (2 ^ 63)) as [Hfull|Hnot].
      * rewrite find_ranges_levels_stuck by assumption.
        unfold span_count. simpl. lia.
      * rewrite find_ranges_levels_step by (try assumption; lia).
        cbv zeta.
        pose proof (dyad_of_nonneg (top - bot + 1)) as Hd0.
        pose proof (dyad_of_le (top - bot + 1) K ltac:(lia) ltac:(lia)) as HdK.
        pose proof (dyad_of_above (top - bot + 1) ltac:(lia)) as Hab.
        set (d := dyad_of (top - bot + 1)) in *.
        assert (bot mod 2 ^ d = 0) as Hald
          by (apply (aligned_weaken bot d K); [lia|assumption]).
        rewrite Hald, Z.eqb_refl, orb_true_r.
        rewrite span_count_seq_single.
        apply le_n_S.
        apply step_left_with; try assumption; lia.
Qed.

Lemma step_left n d bot top :
  in_int64 bot -> in_int64 top -> 0 <= d <= 63 ->
  bot mod 2 ^ d = 0 -> bot <= top -> top - bot + 1 < 2 ^ (d + 1) ->
  (span_count (find_ranges_levels Z.log2 n (wrap64 (bot + 2 ^ d)) top) <= n)%nat.
Proof. apply step_left_with, left_chain. Qed.

(** The remainder to the left of a right-aligned span. *)
Lemma step_right_with n d bot top :
  right_bound n ->
  in_int64 bot -> in_int64 top -> 0 <= d <= 63 ->
  (top + 1) mod 2 ^ d = 0 -> bot <= top -> top - bot + 1 < 2 ^ (d + 1) ->
  (span_count (find_ranges_levels Z.log2 n bot (wrap64 (top - 2 ^ d))) <= n)%nat.
Proof.
  intros Hn Hb Ht Hd Hal Hle Hw.
  pose proof (Z.pow_pos_nonneg 2 d ltac:(lia) ltac:(lia)) as Hp.
  assert (2 ^ (d + 1) = 2 * 2 ^ d) as E by (rewrite Z.pow_add_r; lia).
  assert (2 ^ d <= 2 ^ 63) as Hp63 by (apply Z.pow_le_mono_r; lia).
  destruct (Z.le_gt_cases INT64_MIN (top - 2 ^ d)) as [Hfit|Hunder].
  - rewrite wrap64_id by (unfold in_int64, INT64_MIN, INT64_MAX in *; lia).
    apply (Hn n (le_n n) d); try assumption.
    + unfold in_int64, INT64_MIN, INT64_MAX in *; lia.
    + replace (top - 2 ^ d + 1) with (top + 1 - 2 ^ d) by lia.
      apply aligned_sub; [lia|assumption].
    + lia.
  - assert (top - 2 ^ d = - 2 ^ 63 - 1) as Hexact.
    { assert (2 ^ 63 = 2 ^ (63 - d) * 2 ^ d) as E63
        by (rewrite <- Z.pow_add_r by lia; f_equal; lia).
      pose proof (Z.div_mod (top + 1) (2 ^ d) ltac:(lia)) as Hdm.
      rewrite Hal in Hdm.
      unfold in_int64, INT64_MIN, INT64_MAX in *.
      assert (- 2 ^ (63 - d) < (top + 1) / 2 ^ d) by nia.
      nia. }
    rewrite Hexact. change (wrap64 (- 2 ^ 63 - 1)) with MAXVAL.
    destruct n as [|m]; [unfold span_count; simpl; lia|].
    assert (bot < 0) as Hneg by lia.
    etransitivity; [apply wrapped_high; assumption|].
    apply Nat.le_le_succ_r.
    apply (Hn m (Nat.le_succ_diag_r m) 63); try assumption.
    + unfold in_int64, INT64_MIN, INT64_MAX. lia.
    + lia.
    + reflexivity.
    + unfold in_int64, INT64_MIN, INT64_MAX in *. lia.
Qed.

Lemma first_test_aligned d bot :
  0 <= d <= 63 ->
  (bot =? MINVAL) || (bot mod 2 ^ d =? 0) = true -> bot mod 2 ^ d = 0.
Proof.
  intros Hd [Hm|Ha]%orb_prop.
  - apply Z.eqb_eq in Hm. subst bot. apply MINVAL_aligned. assumption.
  - apply Z.eqb_eq. assumption.
Qed.

Lemma second_test_aligned d top :
  0 <= d <= 63 ->
  (top =? MAXVAL) || ((top + 1) mod 2 ^ d =? 0) = true ->
  (top + 1) mod 2 ^ d = 0.
Proof.
  intros Hd [Hm|Ha]%orb_prop.
  - apply Z.eqb_eq in Hm. subst top.
    change (MAXVAL + 1) with (- MINVAL).
    pose proof (MINVAL_aligned d Hd) as Hal.
    apply Z.mod_divide in Hal;
      [|pose proof (Z.pow_pos_nonneg 2 d ltac:(lia) ltac:(lia)); lia].
    apply Z.mod_divide;
      [pose proof (Z.pow_pos_nonneg 2 d ltac:(lia) ltac:(lia)); lia|].
    apply Z.divide_opp_r. assumption.
  - apply Z.eqb_eq. assumption.
Qed.

Lemma right_chain n : right_bound n.
Proof.
  induction n as [|n IH]; intros n' Hn' K bot top Hb Ht HK Hal Hw.
  - assert (n' = 0%nat) as -> by lia. unfold span_count. simpl. lia.
  - destruct (Nat.eq_dec n' (S n)) as [->|Hne];
      [|apply (IH n' ltac:(lia) K); assumption].
    destruct (Z.lt_trichotomy top bot) as [Hlt|[Heq|Hgt]].
    + rewrite find_ranges_levels_empty by assumption. unfold span_count.
      simpl. lia.
    + pose proof (find_ranges_levels_single (S n) bot top Heq). lia.
    + assert (~ (bot < 0 <= top)) as Hsign.
      { intros [Hneg Hpos].
        pose proof (aligned_positive (top + 1) K ltac:(lia) Hal ltac:(lia)).
        lia. }
      assert (2 ^ K <= 2 ^ 63) as HK63 by (apply Z.pow_le_mono_r; lia).
      destruct (Z.eq_dec (top - bot + 1) (2 ^ 63)) as [Hfull|Hnot].
      * rewrite find_ranges_levels_stuck by assumption.
        unfold span_count. simpl. lia.
      * rewrite find_ranges_levels_step by (try assumption; lia).
        cbv zeta.
        pose proof (dyad_of_nonneg (top - bot + 1)) as Hd0.
        pose proof (dyad_of_le (top - bot + 1) K ltac:(lia) ltac:(lia)) as HdK.
        pose proof (dyad_of_above (top - bot + 1) ltac:(lia)) as Hab.
        set (d := dyad_of (top - bot + 1)) in *.
        destruct ((bot =? MINVAL) || (bot mod 2 ^ d =? 0)) eqn:Hfirst.
        -- apply first_test_aligned in Hfirst; [|lia].
           rewrite span_count_seq_single. apply le_n_S.
           apply step_left; try assumption; lia.
        -- assert ((top + 1) mod 2 ^ d = 0) as Hald
             by (apply (aligned_weaken (top + 1) d K); [lia|assumption]).
           rewrite Hald, Z.eqb_refl, orb_true_r.
           rewrite span_count_seq_single. apply le_n_S.
           apply step_right_with; try assumption; lia.
Qed.

Lemma step_right n d bot top :
  in_int64 bot -> in_int64 top -> 0 <= d <= 63 ->
  (top + 1) mod 2 ^ d = 0 -> bot <= top -> top - bot + 1 < 2 ^ (d + 1) ->
  (span_count (find_ranges_levels Z.log2 n bot (wrap64 (top - 2 ^ d))) <= n)%nat.
Proof. apply step_right_with, right_chain. Qed.

(** A block of [2^K] values aligned on [2^K] is one span. *)
Lemma aligned_block n K bot top :
  in_int64 bot -> in_int64 top -> 0 <= K <= 62 ->
  bot mod 2 ^ K = 0 -> top - bot + 1 = 2 ^ K ->
  (span_count (find_ranges_levels Z.log2 n bot top) <= 1)%nat.
Proof.
  intros Hb Ht HK Hal Hw.
  pose proof (Z.pow_pos_nonneg 2 K ltac:(lia) ltac:(lia)) as Hp.
  assert (2 ^ K <= 2 ^ 62) as HK62 by (apply Z.pow_le_mono_r; lia).
  destruct n as [|n]; [unfold span_count; simpl; lia|].
  destruct (Z.eq_dec top bot) as [Heq|Hne];
    [apply find_ranges_levels_single; assumption|].
  assert (~ (bot < 0 <= top)) as Hsign.
  { intros [Hneg Hpos].
    pose proof (aligned_negative bot K ltac:(lia) Hal Hneg). lia. }
  rewrite find_ranges_levels_step by (try assumption; lia).
  cbv zeta. rewrite Hw, dyad_of_pow2 by lia.
  rewrite Hal, Z.eqb_refl, orb_true_r, span_count_seq_single.
  apply le_n_S.
  replace (bot + 2 ^ K) with (top + 1) by lia.
  destruct (Z.eq_dec top INT64_MAX) as [->|Hmax].
  - change (wrap64 (INT64_MAX + 1)) with MINVAL.
    rewrite wrapped_low; [lia|unfold INT64_MAX; lia|assumption].
  - rewrite wrap64_id by (unfold in_int64, INT64_MIN, INT64_MAX in *; lia).
    rewrite find_ranges_levels_empty by lia. unfold span_count. simpl. lia.
Qed.

(** A range ending on a multiple of [2^d] and narrower than [2^(d+1)]:
    the left part of a range that straddles such a multiple. *)
Lemma right_wide n d bot top :
  in_int64 bot -> in_int64 top -> 0 <= d <= 62 ->
  (top + 1) mod 2 ^ d = 0 -> top - bot + 1 < 2 ^ (d + 1) ->
  ~ (bot < 0 <= top) ->
  (span_count (find_ranges_levels Z.log2 n bot top) <= n)%nat.
Proof.
  intros Hb Ht Hd Hal Hw Hsign.
  pose proof (Z.pow_pos_nonneg 2 d ltac:(lia) ltac:(lia)) as Hp.
  assert (2 ^ (d + 1) = 2 * 2 ^ d) as E by (rewrite Z.pow_add_r; lia).
  assert (2 ^ (d + 1) <= 2 ^ 63) as H63 by (apply Z.pow_le_mono_r; lia).
  destruct n as [|n]; [unfold span_count; simpl; lia|].
  destruct (Z.lt_trichotomy top bot) as [Hlt|[Heq|Hgt]].
  - rewrite find_ranges_levels_empty by assumption. unfold span_count.
    simpl. lia.
  - pose proof (find_ranges_levels_single (S n) bot top Heq). lia.
  - rewrite find_ranges_levels_step by (try assumption; lia).
    cbv zeta.
    pose proof (dyad_of_nonneg (top - bot + 1)) as Hd0.
    pose proof (dyad_of_le (top - bot + 1) (d + 1) ltac:(lia) ltac:(lia)) as Hd1.
    pose proof (dyad_of_above (top - bot + 1) ltac:(lia)) as Hab.
    pose proof (dyad_of_range (top - bot + 1) ltac:(lia)) as [_ Hrange].
    destruct (Z.eq_dec (top - bot + 1) (2 ^ d)) as [Hpow|Hnpow].
    { (* an exact block that ends aligned starts aligned *)
      rewrite Hpow, dyad_of_pow2 by lia.
      assert (bot mod 2 ^ d = 0) as Hbal.
      { replace bot with (top + 1 - 2 ^ d) by lia.
        apply aligned_sub; [lia|assumption]. }
      rewrite Hbal, Z.eqb_refl, orb_true_r, span_count_seq_single.
      apply le_n_S. apply step_left; try assumption; lia. }
    set (d1 := dyad_of (top - bot + 1)) in *.
    destruct ((bot =? MINVAL) || (bot mod 2 ^ d1 =? 0)) eqn:Hfirst.
    + apply first_test_aligned in Hfirst; [|lia].
      rewrite span_count_seq_single. apply le_n_S.
      apply step_left; try assumption; lia.
    + destruct ((top =? MAXVAL) || ((top + 1) mod 2 ^ d1 =? 0)) eqn:Hsecond.
      * apply second_test_aligned in Hsecond; [|lia].
        rewrite span_count_seq_single. apply le_n_S.
        apply step_right; try assumption; lia.
      * apply orb_false_elim in Hsecond as [Hmax Hnal].
        apply Z.eqb_neq in Hmax, Hnal.
        assert (d1 = d + 1) as Hd1eq.
        { destruct (Z.le_gt_cases d1 d) as [Hle|]; [|lia].
          exfalso. apply Hnal.
          apply (aligned_weaken (top + 1) d1 d); [lia|assumption]. }
        rewrite Hd1eq, E in *.
        assert (top mod (2 * 2 ^ d) = 2 ^ d - 1) as Hmod.
        { pose proof (Z.div_mod (top + 1) (2 ^ d) ltac:(lia)) as H1.
          rewrite Hal in H1.
          pose proof (Z.div_mod (top + 1) (2 * 2 ^ d) ltac:(lia)) as H2.
          pose proof (Z.mod_pos_bound (top + 1) (2 * 2 ^ d) ltac:(lia)) as H3.
          assert ((top + 1) / 2 ^ d - 2 * ((top + 1) / (2 * 2 ^ d)) = 1)
            as Hodd by nia.
          symmetry.
          apply (Z.mod_unique_pos top (2 * 2 ^ d) ((top + 1) / (2 * 2 ^ d)));
            [lia|nia]. }
        assert (2 ^ d < top - bot + 1) as Hbig.
        { pose proof (Z.log2_spec (top - bot + 1) ltac:(lia)) as [Hlo _].
          assert (2 ^ d <= 2 ^ Z.log2 (top - bot + 1))
            by (apply Z.pow_le_mono_r; lia).
          lia. }
        rewrite Hmod.
        replace (top - (2 ^ d - 1) - 1) with (top - 2 ^ d) by lia.
        rewrite wrap64_id by (unfold in_int64, INT64_MIN, INT64_MAX in *; lia).
        etransitivity; [apply span_count_seq|].
        assert (span_count (find_ranges_levels Z.log2 n bot (top - 2 ^ d))
                <= n)%nat as Hleft.
        { apply (right_chain n n (le_n n) (d + 1)); try assumption.
          - unfold in_int64, INT64_MIN, INT64_MAX in *; lia.
          - lia.
          - rewrite E.
            replace (top - 2 ^ d + 1) with (top - top mod (2 * 2 ^ d)) by lia.
            rewrite (Z.mod_eq top (2 * 2 ^ d)) by lia.
            replace (top - (top - 2 * 2 ^ d * (top / (2 * 2 ^ d))))
              with (top / (2 * 2 ^ d) * (2 * 2 ^ d)) by lia.
            apply Z.mod_mul. lia.
          - lia. }
        assert (span_count
                  (find_ranges_levels Z.log2 n (top - (2 ^ d - 1)) top)
                <= 1)%nat as Hright.
        { apply (aligned_block n d);
            [unfold in_int64, INT64_MIN, INT64_MAX in *; lia
            |assumption |assumption | |lia].
          replace (top - (2 ^ d - 1)) with (top + 1 - 2 ^ d) by lia.
          apply aligned_sub; [lia|assumption]. }
        lia.
Qed.

(** The first call on a range of one sign: a span and a chain, or two
    chains on either side of a multiple of the width. *)
Lemma first_call_one_sign n bot top :
  in_int64 bot -> in_int64 top -> bot < top -> ~ (bot < 0 <= top) ->
  (span_count (find_ranges_levels Z.log2 (S n) bot top) <= 2 * S n)%nat.
Proof.
  intros Hb Ht Hlt Hsign.
  destruct (Z.eq_dec (top - bot + 1) (2 ^ 63)) as [Hfull|Hnot].
  { rewrite find_ranges_levels_stuck by assumption.
    unfold span_count. simpl. lia. }
  assert (top - bot + 1 < 2 ^ 63) as Hw
    by (unfold in_int64, INT64_MIN, INT64_MAX in *; lia).
  rewrite find_ranges_levels_step by assumption.
  cbv zeta.
  pose proof (dyad_of_nonneg (top - bot + 1)) as Hd0.
  pose proof (dyad_of_le (top - bot + 1) 63 ltac:(lia) ltac:(lia)) as Hd63.
  pose proof (dyad_of_above (top - bot + 1) ltac:(lia)) as Hab.
  set (d := dyad_of (top - bot + 1)) in *.
  pose proof (Z.pow_pos_nonneg 2 d ltac:(lia) ltac:(lia)) as Hp.
  assert (2 ^ d <= 2 ^ 63) as Hp63 by (apply Z.pow_le_mono_r; lia).
  destruct ((bot =? MINVAL) || (bot mod 2 ^ d =? 0)) eqn:Hfirst.
  { apply first_test_aligned in Hfirst; [|lia].
    rewrite span_count_seq_single.
    pose proof (step_left n d bot top Hb Ht ltac:(lia) Hfirst ltac:(lia) Hab).
    lia. }
  destruct ((top =? MAXVAL) || ((top + 1) mod 2 ^ d =? 0)) eqn:Hsecond.
  { apply second_test_aligned in Hsecond; [|lia].
    rewrite span_count_seq_single.
    pose proof (step_right n d bot top Hb Ht ltac:(lia) Hsecond ltac:(lia) Hab).
    lia. }
  apply orb_false_elim in Hfirst as [Hmin _]. apply Z.eqb_neq in Hmin.
  pose proof (Z.mod_pos_bound top (2 ^ d) Hp) as Hr.
  set (p := top - top mod 2 ^ d) in *.
  assert (p mod 2 ^ d = 0) as Hpal.
  { unfold p. rewrite (Z.mod_eq top (2 ^ d)) by lia.
    replace (top - (top - 2 ^ d * (top / 2 ^ d)))
      with (top / 2 ^ d * 2 ^ d) by lia.
    apply Z.mod_mul. lia. }
  assert (INT64_MIN <= p) as Hpmin.
  { destruct (Z.le_gt_cases INT64_MIN p) as [|Hbelow]; [assumption|].
    exfalso.
    assert (p < 0) as Hpneg by (unfold INT64_MIN in Hbelow; lia).
    pose proof (MINVAL_aligned d ltac:(lia)) as Hmal.
    assert ((p - MINVAL) mod 2 ^ d = 0) as Hdiff.
    { rewrite Zminus_mod, Hpal, Hmal. reflexivity. }
    unfold MINVAL in *.
    assert (p - INT64_MIN < 0) as Hdneg by lia.
    pose proof (aligned_negative _ d ltac:(lia) Hdiff Hdneg).
    unfold in_int64 in Ht. unfold p in *. lia. }
  assert (in_int64 p) as Hpin
    by (unfold in_int64 in *; unfold p in *; lia).
  etransitivity; [apply span_count_seq|].
  assert (span_count (find_ranges_levels Z.log2 n p top) <= n)%nat as Hright.
  { apply (left_chain n d); try assumption; [lia|unfold p; lia]. }
  assert (span_count (find_ranges_levels Z.log2 n bot (wrap64 (p - 1))) <= n)%nat
    as Hleft.
  { destruct (Z.eq_dec p INT64_MIN) as [Hpm|Hpn].
    - rewrite Hpm. change (wrap64 (INT64_MIN - 1)) with MAXVAL.
      assert (bot < 0) as Hneg
        by (unfold p, INT64_MIN in *; lia).
      destruct n as [|m]; [unfold span_count; simpl; lia|].
      etransitivity; [apply wrapped_high; assumption|].
      apply Nat.le_le_succ_r.
      apply (right_chain m m (le_n m) 63); try assumption.
      + unfold in_int64, INT64_MIN, INT64_MAX. lia.
      + lia.
      + reflexivity.
      + unfold in_int64, INT64_MIN, INT64_MAX in *. lia.
    - rewrite wrap64_id by (unfold in_int64, INT64_MIN, INT64_MAX in *; lia).
      destruct (Z.lt_ge_cases (p - 1) bot) as [Hempty|Hsome].
      + rewrite find_ranges_levels_empty by assumption.
        unfold span_count. simpl. lia.
      + assert (d <= 62) as Hd62.
        { destruct (Z.eq_dec d 63) as [E63|]; [|lia]. exfalso.
          rewrite E63 in Hpal.
          destruct (Z.lt_trichotomy p 0) as [Hn|[Hz|Hps]].
          - pose proof (aligned_negative p 63 ltac:(lia) Hpal Hn).
            unfold INT64_MIN in *. lia.
          - apply Hsign. unfold p in *. lia.
          - pose proof (aligned_positive p 63 ltac:(lia) Hpal Hps).
            unfold in_int64, INT64_MAX in Hpin. lia. }
        apply (right_wide n d); try assumption.
        * unfold in_int64, INT64_MIN, INT64_MAX in *; lia.
        * lia.
        * replace (p - 1 + 1) with p by lia. assumption.
        * unfold p in *. lia.
        * unfold p in *. lia. }
  lia.
Qed.

Lemma first_call_bound n bot top :
  in_int64 bot -> in_int64 top -> bot <= top ->
  (span_count (find_ranges_levels Z.log2 (S n) bot top) <= 2 * S n)%nat.
Proof.
  intros Hb Ht Hle.
  destruct (Z.eq_dec top bot) as [Heq|Hne].
  { pose proof (find_ranges_levels_single (S n) bot top Heq). lia. }
  destruct (Z_lt_dec bot 0) as [Hneg|Hnn];
    [destruct (Z_le_dec 0 top) as [Hpos|Hnp]|].
  - (* split at zero *)
    rewrite find_ranges_levels_S.
    destruct (Z.ltb_spec top bot); [lia|].
    destruct (Z.eqb_spec top bot); [lia|].
    destruct (Z.leb_spec 0 top); [|lia].
    destruct (Z.ltb_spec bot 0); [|lia]. simpl andb. cbv iota.
    etransitivity; [apply span_count_seq|].
    assert (span_count (find_ranges_levels Z.log2 n bot (-1)) <= n)%nat.
    { apply (right_chain n n (le_n n) 63); try assumption.
      - unfold in_int64, INT64_MIN, INT64_MAX. lia.
      - lia.
      - reflexivity.
      - unfold in_int64, INT64_MIN, INT64_MAX in *. lia. }
    assert (span_count (find_ranges_levels Z.log2 n 0 top) <= n)%nat.
    { apply (left_chain n 63); try assumption.
      - unfold in_int64, INT64_MIN, INT64_MAX. lia.
      - lia.
      - reflexivity.
      - unfold in_int64, INT64_MIN, INT64_MAX in *. lia. }
    lia.
  - apply first_call_one_sign; try assumption; lia.
  - apply first_call_one_sign; try assumption; lia.
Qed.

Lemma find_ranges_count n bot top :
  in_int64 bot -> in_int64 top -> bot <= top ->
  (length (let (l, st) := find_ranges_levels Z.log2 (S n) bot top in
           ([] ++ l, st)).1 <= 2 * S n)%nat.
Proof.
  intros Hb Ht Hle.
  pose proof (first_call_bound n bot top Hb Ht Hle) as Hbound.
  unfold span_count in Hbound.
  destruct (find_ranges_levels Z.log2 (S n) bot top) as [l st].
  exact Hbound.
Qed.

(** C7: with a faithful [log2], for every [MINVAL <= bot <= top <=
    MAXVAL] the spans [find_ranges] appends to an empty list number at
    most [2 * RANGES = 128], whether or not the call returns. *)
Theorem find_ranges_span_count lg bot top :
  log2_faithful lg -> MINVAL <= bot -> bot <= top -> top <= MAXVAL ->
  (length (find_ranges lg bot top []).1 <= 2 * Z.to_nat RANGES)%nat.
Proof.
  intros Hlg Hmin Hle Hmax. rewrite find_ranges_faithful by assumption.
  unfold find_ranges, find_ranges_internal.
  change (Z.to_nat (RANGES - 1 + 1)) with (S 63).
  change (Z.to_nat RANGES) with (S 63).
  assert (in_int64 bot /\ in_int64 top) as [Hb Ht]
    by (unfold in_int64, MINVAL, MAXVAL in *; lia).
  exact (find_ranges_count 63 bot top Hb Ht Hle).
Qed.

(** ** Increments that raise

    A pass of [increment_counter] that raises: the error is the overflow
    error, it is raised at the first row [r] whose selected counter is at
    the ceiling, the rows before [r] have been incremented and nothing
    else has changed. *)
Lemma iterate_rows_increment_raises D N hashval todo :
  (0 < N)%nat ->
  forall i s rv s' e,
    rectangular D N s -> (i + todo <= D)%nat ->
    iterate_rows N hashval increment_counter todo i s rv = (s', Elog e) ->
    e = MaximumCountExceeded
    /\ exists r,
         (i <= r < i + todo)%nat
         /\ counter_at s r (lane_col N hashval r) = COUNT_CEILING
         /\ (forall i', (i <= i' < r)%nat ->
               counter_at s i' (lane_col N hashval i') <> COUNT_CEILING)
         /\ (forall i' c,
               counter_at s' i' c =
               if bool_decide ((i <= i' < r)%nat /\ c = lane_col N hashval i')
               then wrap64 (counter_at s i' c + 1) else counter_at s i' c).
Proof.
  intros HN. induction todo as [|todo IH]; intros i s rv s' e Hs Hle Hrun.
  - simpl in Hrun. discriminate.
  - simpl in Hrun. fold (lane_col N hashval i) in Hrun.
    unfold increment_counter in Hrun at 1.
    destruct (Z.eqb_spec (counter_at s i (lane_col N hashval i)) COUNT_CEILING)
      as [Hceil|Hne].
    + injection Hrun as <- <-. split; [reflexivity|].
      exists i. split; [lia|]. split; [assumption|]. split; [intros; lia|].
      intros i' c. rewrite bool_decide_eq_false_2 by lia. reflexivity.
    + apply IH in Hrun as (He & r & Hr & Hat & Hbefore & Hcnt);
        [|apply rectangular_set_counter; assumption|lia].
      split; [assumption|]. exists r. split; [lia|].
      pose proof (rectangular_selected D N s i (lane_col N hashval i) Hs
                    ltac:(lia) (lane_col_lt N hashval i HN)) as Hsel.
      split; [|split].
      * rewrite counter_at_set_counter in Hat.
        rewrite bool_decide_eq_false_2 in Hat by lia. assumption.
      * intros i' Hi'. destruct (decide (i' = i)) as [->|Hii]; [assumption|].
        specialize (Hbefore i' ltac:(lia)).
        rewrite counter_at_set_counter in Hbefore.
        rewrite bool_decide_eq_false_2 in Hbefore by tauto. assumption.
      * intros i' c. rewrite Hcnt, !counter_at_set_counter.
        destruct (decide (i' = i)) as [->|Hii].
        -- rewrite (bool_decide_eq_false_2 ((S i <= i < r)%nat /\ _)) by lia.
           destruct (decide (c = lane_col N hashval i)) as [->|Hc].
           ++ rewrite !bool_decide_eq_true_2 by (repeat split; auto; lia).
              reflexivity.
           ++ rewrite !bool_decide_eq_false_2 by (try tauto; lia). reflexivity.
        -- rewrite !(bool_decide_eq_false_2 (i' = i /\ _)) by tauto.
           rewrite (bool_decide_ext _
                      ((i <= i' < r)%nat /\ c = lane_col N hashval i'))
             by lia.
           reflexivity.
Qed.

(** [increment_counter] always comes back with a value or an error. *)
Lemma iterate_rows_increment_returns N hashval todo :
  forall i s rv,
    (iterate_rows N hashval increment_counter todo i s rv).2 <> NoResult.
Proof.
  induction todo as [|todo IH]; intros i s rv; simpl; [discriminate|].
  unfold increment_counter at 1.
  destruct (_ =? COUNT_CEILING); [simpl; discriminate|]. apply IH.
Qed.

(** ** Exact decomposition of ranges of fewer than [2^53] values *)

Lemma covering_app l1 l2 x :
  covering (l1 ++ l2) x = (covering l1 x + covering l2 x)%nat.
Proof. induction l1 as [|s l1 IH]; simpl; [reflexivity|]. rewrite IH. lia. Qed.

Lemma dyadic_tiling_nil bot top : top < bot -> dyadic_tiling [] bot top.
Proof.
  intros Hlt. split; [|constructor]. intros x. simpl.
  destruct (Z.leb_spec bot x); destruct (Z.leb_spec x top);
    try reflexivity. lia.
Qed.

Lemma dyadic_tiling_single lo hi :
  power_of_two (hi - lo + 1) -> dyadic_tiling [(lo, hi)] lo hi.
Proof.
  intros Hp. split.
  - intros x. simpl. unfold in_span. simpl.
    destruct ((lo <=? x) && (x <=? hi)); reflexivity.
  - constructor; [assumption|constructor].
Qed.

Lemma dyadic_tiling_join l1 l2 bot mid top :
  bot <= mid -> mid <= top + 1 ->
  dyadic_tiling l1 bot (mid - 1) -> dyadic_tiling l2 mid top ->
  dyadic_tiling (l1 ++ l2) bot top.
Proof.
  intros Hbm Hmt [Hc1 Hp1] [Hc2 Hp2]. split.
  - intros x. rewrite covering_app, Hc1, Hc2.
    destruct (Z.leb_spec bot x); destruct (Z.leb_spec x (mid - 1));
      destruct (Z.leb_spec mid x); destruct (Z.leb_spec x top);
      simpl; try reflexivity; lia.
  - apply Forall_app. split; assumption.
Qed.

Lemma dyadic_tiling_join_rev l1 l2 bot mid top :
  bot <= mid -> mid <= top + 1 ->
  dyadic_tiling l1 bot (mid - 1) -> dyadic_tiling l2 mid top ->
  dyadic_tiling (l2 ++ l1) bot top.
Proof.
  intros Hbm Hmt [Hc1 Hp1] [Hc2 Hp2]. split.
  - intros x. rewrite covering_app, Hc1, Hc2.
    destruct (Z.leb_spec bot x); destruct (Z.leb_spec x (mid - 1));
      destruct (Z.leb_spec mid x); destruct (Z.leb_spec x top);
      simpl; try reflexivity; lia.
  - apply Forall_app. split; assumption.
Qed.

Lemma dyad_of_exact w : 1 <= w < 2 ^ 53 -> dyad_of w = Z.log2 w.
Proof. intros [_ Hw]. unfold dyad_of. rewrite round53_small; auto. Qed.

Lemma decomposes_empty n bot top : top < bot -> decomposes n bot top.
Proof.
  intros Hlt. exists []. split.
  - apply find_ranges_levels_empty. assumption.
  - apply dyadic_tiling_nil. assumption.
Qed.

Lemma decomposes_single n bot : decomposes (S n) bot bot.
Proof.
  exists [(bot, bot)]. split.
  - rewrite find_ranges_levels_S, Z.ltb_irrefl, Z.eqb_refl. reflexivity.
  - apply dyadic_tiling_single. exists 0. split; [lia|].
    replace (bot - bot + 1) with 1 by lia. reflexivity.
Qed.

Lemma log2_width_bounds w :
  1 <= w -> 2 ^ Z.log2 w <= w < 2 ^ (Z.log2 w + 1).
Proof.
  intros Hw. pose proof (Z.log2_spec w ltac:(lia)) as [Hlo Hhi].
  replace (Z.succ (Z.log2 w)) with (Z.log2 w + 1) in Hhi by lia. lia.
Qed.

(** A left-aligned span and the rest of the range. *)
Lemma left_exact_step n bot top :
  left_exact_at n ->
  in_int64 bot -> in_int64 top -> top < INT64_MAX -> bot < top ->
  ~ (bot < 0 <= top) ->
  bot mod 2 ^ Z.log2 (top - bot + 1) = 0 ->
  top - bot + 1 < 2 ^ 53 -> top - bot + 1 < 2 ^ Z.of_nat (S n) ->
  decomposes (S n) bot top.
Proof.
  intros IH Hb Ht Hmax Hlt Hsign Hal H53 Hfuel.
  pose proof (log2_width_bounds (top - bot + 1) ltac:(lia)) as [Hlo Hhi].
  pose proof (Z.log2_nonneg (top - bot + 1)) as Hd0.
  assert (Z.log2 (top - bot + 1) <= 52) as Hd52.
  { apply Z.log2_lt_pow2 in H53; lia. }
  assert (Z.log2 (top - bot + 1) <= Z.of_nat n) as Hdn.
  { apply Z.log2_lt_pow2 in Hfuel; lia. }
  unfold decomposes.
  rewrite find_ranges_levels_step by (try assumption; lia).
  cbv zeta. rewrite dyad_of_exact by lia.
  set (d := Z.log2 (top - bot + 1)) in *.
  pose proof (Z.pow_pos_nonneg 2 d ltac:(lia) Hd0) as Hp.
  assert (2 ^ (d + 1) = 2 * 2 ^ d) as E by (rewrite Z.pow_add_r; lia).
  assert (2 ^ d <= 2 ^ Z.of_nat n) as Hpn by (apply Z.pow_le_mono_r; lia).
  rewrite Hal, Z.eqb_refl, orb_true_r.
  rewrite !wrap64_id by (unfold in_int64, INT64_MIN, INT64_MAX in *; lia).
  destruct (IH d (bot + 2 ^ d) top) as (l & Hrun & Htil); try assumption;
    try lia.
  { unfold in_int64, INT64_MIN, INT64_MAX in *; lia. }
  { apply aligned_add; [lia|assumption]. }
  rewrite Hrun. exists ((bot, bot + 2 ^ d - 1) :: l). split; [reflexivity|].
  apply (dyadic_tiling_join [(bot, bot + 2 ^ d - 1)] l bot (bot + 2 ^ d) top);
    [lia|lia| |assumption].
  apply dyadic_tiling_single. exists d. split; [assumption|lia].
Qed.

Lemma left_exact n : left_exact_at n.
Proof.
  induction n as [|n IH];
    intros K bot top Hb Ht Hmax HK Hal Hsign HwK H53 Hfuel.
  - apply decomposes_empty. simpl in Hfuel. lia.
  - destruct (Z.lt_trichotomy top bot) as [Hlt|[Heq|Hgt]].
    + apply decomposes_empty. assumption.
    + subst top. apply decomposes_single.
    + apply left_exact_step; try assumption.
      apply (aligned_weaken bot _ K); [|assumption].
      split; [apply Z.log2_nonneg|].
      apply Z.log2_lt_pow2 in HwK; lia.
Qed.

(** A right-aligned span and the rest of the range. *)
Lemma right_exact_step n bot top :
  right_exact_at n ->
  in_int64 bot -> in_int64 top -> top < INT64_MAX -> bot < top ->
  ~ (bot < 0 <= top) ->
  (top + 1) mod 2 ^ Z.log2 (top - bot + 1) = 0 ->
  top - bot + 1 < 2 ^ 53 -> top - bot + 1 < 2 ^ Z.of_nat (S n) ->
  decomposes (S n) bot top.
Proof.
  intros IH Hb Ht Hmax Hlt Hsign Hal H53 Hfuel.
  pose proof (log2_width_bounds (top - bot + 1) ltac:(lia)) as [Hlo Hhi].
  pose proof (Z.log2_nonneg (top - bot + 1)) as Hd0.
  assert (Z.log2 (top - bot + 1) <= 52) as Hd52.
  { apply Z.log2_lt_pow2 in H53; lia. }
  assert (Z.log2 (top - bot + 1) <= Z.of_nat n) as Hdn.
  { apply Z.log2_lt_pow2 in Hfuel; lia. }
  destruct ((bot =? MINVAL) || (bot mod 2 ^ Z.log2 (top - bot + 1) =? 0))
    eqn:Hfirst.
  { apply first_test_aligned in Hfirst; [|lia].
    apply left_exact_step; try assumption. apply left_exact. }
  unfold decomposes.
  rewrite find_ranges_levels_step by (try assumption; lia).
  cbv zeta. rewrite dyad_of_exact by lia. rewrite Hfirst.
  apply orb_false_elim in Hfirst as [Hmin _]. apply Z.eqb_neq in Hmin.
  unfold MINVAL in Hmin.
  set (d := Z.log2 (top - bot + 1)) in *.
  pose proof (Z.pow_pos_nonneg 2 d ltac:(lia) Hd0) as Hp.
  assert (2 ^ (d + 1) = 2 * 2 ^ d) as E by (rewrite Z.pow_add_r; lia).
  assert (2 ^ d <= 2 ^ Z.of_nat n) as Hpn by (apply Z.pow_le_mono_r; lia).
  rewrite Hal, Z.eqb_refl, orb_true_r.
  rewrite !wrap64_id by (unfold in_int64, INT64_MIN, INT64_MAX in *; lia).
  destruct (IH d bot (top - 2 ^ d)) as (l & Hrun & Htil); try assumption;
    try lia.
  { unfold in_int64, INT64_MIN, INT64_MAX in *; lia. }
  { replace (top - 2 ^ d + 1) with (top + 1 - 2 ^ d) by lia.
    apply aligned_sub; [lia|assumption]. }
  rewrite Hrun. exists ((top - 2 ^ d + 1, top) :: l). split; [reflexivity|].
  apply (dyadic_tiling_join_rev l [(top - 2 ^ d + 1, top)] bot
           (top - 2 ^ d + 1) top); [lia|lia| |].
  - replace (top - 2 ^ d + 1 - 1) with (top - 2 ^ d) by lia. assumption.
  - apply dyadic_tiling_single. exists d. split; [assumption|lia].
Qed.

Lemma right_exact n : right_exact_at n.
Proof.
  induction n as [|n IH];
    intros K bot top Hb Ht Hmax HK Hal Hsign HwK H53 Hfuel.
  - apply decomposes_empty. simpl in Hfuel. lia.
  - destruct (Z.lt_trichotomy top bot) as [Hlt|[Heq|Hgt]].
    + apply decomposes_empty. assumption.
    + subst top. apply decomposes_single.
    + apply right_exact_step; try assumption.
      apply (aligned_weaken (top + 1) _ K); [|assumption].
      split; [apply Z.log2_nonneg|].
      apply Z.log2_lt_pow2 in HwK; lia.
Qed.

Lemma first_call_exact_one_sign n bot top :
  in_int64 bot -> in_int64 top -> top < INT64_MAX -> bot < top ->
  ~ (bot < 0 <= top) ->
  top - bot + 1 < 2 ^ 53 -> 53 <= Z.of_nat n ->
  decomposes (S n) bot top.
Proof.
  intros Hb Ht Hmax Hlt Hsign H53 Hn.
  assert (2 ^ 53 <= 2 ^ Z.of_nat n) as Hfuel by (apply Z.pow_le_mono_r; lia).
  assert (2 ^ Z.of_nat n <= 2 ^ Z.of_nat (S n)) as Hfuel'
    by (apply Z.pow_le_mono_r; lia).
  pose proof (log2_width_bounds (top - bot + 1) ltac:(lia)) as [Hlo Hhi].
  pose proof (Z.log2_nonneg (top - bot + 1)) as Hd0.
  assert (Z.log2 (top - bot + 1) <= 52) as Hd52.
  { apply Z.log2_lt_pow2 in H53; lia. }
  destruct ((bot =? MINVAL) || (bot mod 2 ^ Z.log2 (top - bot + 1) =? 0))
    eqn:Hfirst.
  { apply first_test_aligned in Hfirst; [|lia].
    apply left_exact_step; try assumption; [apply left_exact|lia]. }
  destruct ((top =? MAXVAL)
            || ((top + 1) mod 2 ^ Z.log2 (top - bot + 1) =? 0)) eqn:Hsecond.
  { apply second_test_aligned in Hsecond; [|lia].
    apply right_exact_step; try assumption; [apply right_exact|lia]. }
  unfold decomposes.
  rewrite find_ranges_levels_step by (try assumption; lia).
  cbv zeta. rewrite dyad_of_exact by lia. rewrite Hfirst, Hsecond.
  apply orb_false_elim in Hfirst as [_ Hnal]. apply Z.eqb_neq in Hnal.
  set (d := Z.log2 (top - bot + 1)) in *.
  pose proof (Z.pow_pos_nonneg 2 d ltac:(lia) Hd0) as Hp.
  assert (2 ^ (d + 1) = 2 * 2 ^ d) as E by (rewrite Z.pow_add_r; lia).
  pose proof (Z.mod_pos_bound top (2 ^ d) Hp) as Hr.
  set (p := top - top mod 2 ^ d) in *.
  assert (p mod 2 ^ d = 0) as Hpal.
  { unfold p. rewrite (Z.mod_eq top (2 ^ d)) by lia.
    replace (top - (top - 2 ^ d * (top / 2 ^ d)))
      with (top / 2 ^ d * 2 ^ d) by lia.
    apply Z.mod_mul. lia. }
  assert (bot < p) as Hbp.
  { destruct (Z.eq_dec bot p) as [Heq|];
      [rewrite Heq in Hnal; contradiction|]. unfold p in *. lia. }
  rewrite wrap64_id
    by (unfold in_int64, INT64_MIN, INT64_MAX, p in *; lia).
  destruct (right_exact n d bot (p - 1)) as (l1 & Hrun1 & Htil1);
    try assumption; try (unfold p in *; lia).
  { unfold in_int64, INT64_MIN, INT64_MAX, p in *; lia. }
  { replace (p - 1 + 1) with p by lia. assumption. }
  destruct (left_exact n d p top) as (l2 & Hrun2 & Htil2);
    try assumption; try (unfold p in *; lia).
  { unfold in_int64, INT64_MIN, INT64_MAX, p in *; lia. }
  rewrite Hrun1, Hrun2. exists (l1 ++ l2). split; [reflexivity|].
  apply (dyadic_tiling_join l1 l2 bot p top);
    [lia|unfold p; lia|assumption|assumption].
Qed.

(** The first call on a range of fewer than [2^53] values that stops
    short of [MAXVAL]. *)
Lemma first_call_exact n bot top :
  in_int64 bot -> in_int64 top -> top < INT64_MAX -> bot <= top ->
  top - bot + 1 < 2 ^ 53 -> 53 <= Z.of_nat n ->
  decomposes (S n) bot top.
Proof.
  intros Hb Ht Hmax Hle H53 Hn.
  assert (2 ^ 53 <= 2 ^ Z.of_nat n) as Hfuel by (apply Z.pow_le_mono_r; lia).
  assert (2 ^ Z.of_nat n <= 2 ^ Z.of_nat (S n)) as Hfuel'
    by (apply Z.pow_le_mono_r; lia).
  destruct (Z.eq_dec top bot) as [->|Hne]; [apply decomposes_single|].
  destruct (Z_lt_dec bot 0) as [Hneg|Hnn];
    [destruct (Z_le_dec 0 top) as [Hpos|Hnp]|].
  - (* split at zero *)
    unfold decomposes. rewrite find_ranges_levels_S.
    destruct (Z.ltb_spec top bot); [lia|].
    destruct (Z.eqb_spec top bot); [lia|].
    destruct (Z.leb_spec 0 top); [|lia].
    destruct (Z.ltb_spec bot 0); [|lia]. simpl andb. cbv iota.
    assert (decomposes n bot (-1)) as (l1 & Hrun1 & Htil1).
    { apply (right_exact n 53);
        first [ assumption | reflexivity
              | unfold in_int64, INT64_MIN, INT64_MAX in *;
                change (2 ^ (53 + 1)) with (2 * 2 ^ 53); lia ]. }
    assert (decomposes n 0 top) as (l2 & Hrun2 & Htil2).
    { apply (left_exact n 53);
        first [ assumption | reflexivity
              | unfold in_int64, INT64_MIN, INT64_MAX in *;
                change (2 ^ (53 + 1)) with (2 * 2 ^ 53); lia ]. }
    rewrite Hrun1, Hrun2. exists (l1 ++ l2). split; [reflexivity|].
    apply (dyadic_tiling_join l1 l2 bot 0 top); [lia|lia| |assumption].
    exact Htil1.
  - apply first_call_exact_one_sign; try assumption; lia.
  - apply first_call_exact_one_sign; try assumption; lia.
Qed.

(** X1: For every range of fewer than [2^53] values that stops short of
    [MAXVAL], [find_ranges] returns, and the spans it found are pairwise
    disjoint, cover exactly [[bot, top]] and have powers of two as
    widths. *)
Theorem find_ranges_exact lg bot top :
  log2_faithful lg -> MINVAL <= bot -> bot <= top -> top < MAXVAL ->
  top - bot + 1 < 2 ^ 53 ->
  exists l, find_ranges lg bot top [] = (l, Returned)
            /\ dyadic_tiling l bot top.
Proof.
  intros Hlg Hmin Hle Hmax H53. rewrite find_ranges_faithful by assumption.
  unfold find_ranges, find_ranges_internal.
  change (Z.to_nat (RANGES - 1 + 1)) with (S 63).
  assert (in_int64 bot /\ in_int64 top) as [Hb Ht]
    by (unfold in_int64, MINVAL, MAXVAL in *; lia).
  destruct (first_call_exact 63 bot top Hb Ht Hmax Hle H53 ltac:(lia))
    as (l & Hrun & Htil).
  exists l. split; [|assumption].
  exact (f_equal (fun e : emitted => let (l, st) := e in ([] ++ l, st)) Hrun).
Qed.

(** *** What a tiling says about the spans *)

Lemma covering_positive l x :
  (0 < covering l x)%nat <-> exists s, s ∈ l /\ in_span x s = true.
Proof.
  induction l as [|s l IH]; simpl.
  - split; [lia|]. intros (s & Hs & _). inversion Hs.
  - split.
    + intros Hpos. destruct (in_span x s) eqn:Hin.
      * exists s. split; [left|assumption].
      * destruct IH as [IH _]. destruct (IH ltac:(lia)) as (t & Ht & Hx).
        exists t. split; [right; assumption|assumption].
    + intros (t & Ht & Hx). apply elem_of_cons in Ht as [->|Ht].
      * rewrite Hx. lia.
      * destruct IH as [_ IH]. specialize (IH (ex_intro _ t (conj Ht Hx))).
        lia.
Qed.

Lemma covering_twice l x :
  forall i j s t,
    (i < j)%nat -> l !! i = Some s -> l !! j = Some t ->
    in_span x s = true -> in_span x t = true ->
    (2 <= covering l x)%nat.
Proof.
  induction l as [|h l IH]; intros i j s t Hij Hi Hj Hs Ht;
    [discriminate|].
  destruct j as [|j]; [lia|]. simpl in Hj. simpl.
  destruct i as [|i].
  - simpl in Hi. injection Hi as ->. rewrite Hs.
    assert (0 < covering l x)%nat.
    { apply covering_positive. exists t. split; [|assumption].
      eapply list_elem_of_lookup_2. eassumption. }
    lia.
  - simpl in Hi. specialize (IH i j s t ltac:(lia) Hi Hj Hs Ht). lia.
Qed.

(** The union of the spans of a tiling is the range. *)
Lemma dyadic_tiling_union l bot top x :
  dyadic_tiling l bot top ->
  bot <= x <= top <-> exists s, s ∈ l /\ s.1 <= x <= s.2.
Proof.
  intros [Hcov _]. specialize (Hcov x). split.
  - intros [Hlo Hhi].
    destruct (Z.leb_spec bot x); [|lia]. destruct (Z.leb_spec x top); [|lia].
    simpl in Hcov.
    destruct (proj1 (covering_positive l x) ltac:(lia)) as (s & Hs & Hin).
    exists s. split; [assumption|].
    unfold in_span in Hin. apply andb_prop in Hin as [H1 H2]. lia.
  - intros (s & Hs & Hlo & Hhi).
    assert (0 < covering l x)%nat as Hpos.
    { apply covering_positive. exists s. split; [assumption|].
      unfold in_span. apply andb_true_intro. split; lia. }
    destruct (Z.leb_spec bot x); destruct (Z.leb_spec x top);
      simpl in Hcov; lia.
Qed.

(** Two spans of a tiling, at different places of the list, share no
    value. *)
Lemma dyadic_tiling_disjoint l bot top i j s t x :
  dyadic_tiling l bot top -> i <> j ->
  l !! i = Some s -> l !! j = Some t ->
  s.1 <= x <= s.2 -> ~ (t.1 <= x <= t.2).
Proof.
  intros [Hcov _] Hij Hi Hj Hs Ht. specialize (Hcov x).
  assert (in_span x s = true) as Hins
    by (unfold in_span; apply andb_true_intro; split; lia).
  assert (in_span x t = true) as Hint
    by (unfold in_span; apply andb_true_intro; split; lia).
  assert (2 <= covering l x)%nat as Htwo.
  { destruct (Nat.lt_total i j) as [Hlt|[Heq|Hgt]]; [|contradiction|].
    - apply (covering_twice l x i j s t); assumption.
    - apply (covering_twice l x j i t s); assumption. }
  destruct ((bot <=? x) && (x <=? top)); lia.
Qed.

(** A counter above the ceiling is within reach of the entry points:
    merging two sketches whose counters are all at the ceiling, then
    inserting twice, leaves a negative point count. *)
Lemma merge_then_insert_wraps :
  (merged ← cmsketch_combine 1 1 example_oid (FullBlob ceiling_transval)
              (FullBlob ceiling_transval);
   once ← cmsketch_trans 1 1 example_lane example_oid true merged (Some 7);
   twice ← cmsketch_trans 1 1 example_lane example_oid true once (Some 7);
   cmsketch_getcount 1 1 example_lane example_oid twice 7)
  = Val INT64_MIN.
Proof. vm_compute. reflexivity. Qed.

(** * Further properties of the code *)

(** ** Ranges that start at the smallest [int64] *)

Lemma largest_dyad_of_half_domain lg :
  largest_dyad lg (wrap64 (-1 - INT64_MIN + 1)) = None.
Proof. reflexivity. Qed.

Lemma find_ranges_levels_from_minimum lg n top :
  0 <= top ->
  find_ranges_levels lg (S (S n)) INT64_MIN top = ([], NoReturn).
Proof.
  intros Htop. rewrite find_ranges_levels_S.
  unfold INT64_MIN in *.
  destruct (Z.ltb_spec top (- 2 ^ 63)); [lia|].
  destruct (Z.eqb_spec top (- 2 ^ 63)); [lia|].
  destruct (Z.leb_spec 0 top); [|lia]. simpl andb. cbv iota.
  rewrite find_ranges_levels_S.
  change (-1 <? - 2 ^ 63) with false. change (-1 =? - 2 ^ 63) with false.
  change ((0 <=? -1) && (- 2 ^ 63 <? 0)) with false. cbv iota.
  change (largest_dyad lg (wrap64 (-1 - - 2 ^ 63 + 1))) with (@None nat).
  reflexivity.
Qed.

(** X2: A range that starts at the smallest [int64] and ends at a
    non-negative value: the call splits at zero, and on the negative half
    the width [2^63] does not fit an [int64]; nothing is appended and the
    call does not return, whatever [log2] does.  The range count over
    such a range has no result. *)
Theorem rangecount_from_minimum lg D N md5_lane (t : cmtransval) top r :
  0 <= top ->
  find_ranges lg INT64_MIN top r = (r, NoReturn)
  /\ cmsketch_rangecount_c lg D N md5_lane t INT64_MIN top = NoResult.
Proof.
  intros Htop.
  assert (forall r', find_ranges lg INT64_MIN top r' = (r', NoReturn)) as H.
  { intros r'. unfold find_ranges, find_ranges_internal.
    change (Z.to_nat (RANGES - 1 + 1)) with (S (S 62)).
    rewrite find_ranges_levels_from_minimum by assumption.
    rewrite app_nil_r. reflexivity. }
  split; [apply H|].
  unfold cmsketch_rangecount_c. rewrite H. reflexivity.
Qed.

Lemma seq_emit_status_noreturn a l :
  (seq_emit a (l, NoReturn)).2 = NoReturn.
Proof. destruct a as [la [|]]; reflexivity. Qed.

Lemma find_ranges_levels_to_maximum lg n :
  find_ranges_levels lg (S n) 0 INT64_MAX = ([], NoReturn).
Proof. rewrite find_ranges_levels_S. reflexivity. Qed.

(** X3: A range that ends at the largest [int64] and starts at zero or
    below: the non-negative half has [2^63] values, a width that does not
    fit an [int64], and the call does not return, whatever [log2] does;
    neither does the range count. *)
Theorem rangecount_to_maximum lg D N md5_lane (t : cmtransval) bot r :
  INT64_MIN <= bot <= 0 ->
  (find_ranges lg bot INT64_MAX r).2 = NoReturn
  /\ cmsketch_rangecount_c lg D N md5_lane t bot INT64_MAX = NoResult.
Proof.
  intros Hbot.
  assert (forall r', (find_ranges lg bot INT64_MAX r').2 = NoReturn) as H.
  { intros r'. unfold find_ranges, find_ranges_internal.
    change (Z.to_nat (RANGES - 1 + 1)) with (S (S 62)).
    destruct (Z.eq_dec bot 0) as [->|Hneg].
    - rewrite find_ranges_levels_to_maximum. reflexivity.
    - rewrite find_ranges_levels_S. unfold INT64_MAX, INT64_MIN in *.
      destruct (Z.ltb_spec (2 ^ 63 - 1) bot); [lia|].
      destruct (Z.eqb_spec (2 ^ 63 - 1) bot); [lia|].
      destruct (Z.ltb_spec bot 0); [|lia]. simpl andb. cbv iota.
      change (2 ^ 63 - 1) with INT64_MAX.
      rewrite find_ranges_levels_to_maximum.
      pose proof (seq_emit_status_noreturn
                    (find_ranges_levels lg (S 62) bot (-1)) []) as Hst.
      destruct (seq_emit (find_ranges_levels lg (S 62) bot (-1)) ([], NoReturn))
        as [l st]. simpl in Hst. subst st. reflexivity. }
  split; [apply H|].
  unfold cmsketch_rangecount_c. specialize (H []).
  destruct (find_ranges lg bot INT64_MAX []) as [l st]. simpl in H. subst st.
  reflexivity.
Qed.

(** ** One pass over the rows of a sketch *)

(** X4: An increment pass that comes back with a value found no selected
    counter at the ceiling and changed exactly the selected counter of
    each of the [DEPTH] rows, each to its [int64] successor. *)
Theorem countmin_trans_c_increments D N md5_lane s dat fn s' r :
  (0 < N)%nat -> rectangular D N s ->
  countmin_trans_c D N md5_lane s dat fn = (s', Val r) ->
  rectangular D N s'
  /\ (forall i, (i < D)%nat ->
        counter_at s i (lane_col N (md5_lane fn dat) i) <> COUNT_CEILING)
  /\ (forall i c,
        counter_at s' i c =
        if bool_decide ((i < D)%nat /\ c = lane_col N (md5_lane fn dat) i)
        then wrap64 (counter_at s i c + 1) else counter_at s i c).
Proof.
  intros HN Hs Hrun. unfold countmin_trans_c, hash_counters_iterate in Hrun.
  apply (iterate_rows_increment D N) in Hrun as (Hs' & Hnc & Hcnt);
    [|assumption|assumption|lia].
  split; [assumption|]. split.
  - intros i Hi. apply Hnc. lia.
  - intros i c. rewrite Hcnt.
    rewrite (bool_decide_ext _
               ((i < D)%nat /\ c = lane_col N (md5_lane fn dat) i)) by lia.
    reflexivity.
Qed.

(** X5: An increment pass that raises: the error is "maximum count
    exceeded", it comes from the first row [r] whose selected counter is at
    the ceiling, the selected counters of the rows before [r] have been
    incremented and every other counter is as it was. *)
Theorem countmin_trans_c_raises D N md5_lane s dat fn s' e :
  (0 < N)%nat -> rectangular D N s ->
  countmin_trans_c D N md5_lane s dat fn = (s', Elog e) ->
  e = MaximumCountExceeded
  /\ exists r,
       (r < D)%nat
       /\ counter_at s r (lane_col N (md5_lane fn dat) r) = COUNT_CEILING
       /\ (forall i, (i < r)%nat ->
             counter_at s i (lane_col N (md5_lane fn dat) i) <> COUNT_CEILING)
       /\ (forall i c,
             counter_at s' i c =
             if bool_decide ((i < r)%nat /\ c = lane_col N (md5_lane fn dat) i)
             then wrap64 (counter_at s i c + 1) else counter_at s i c).
Proof.
  intros HN Hs Hrun. unfold countmin_trans_c, hash_counters_iterate in Hrun.
  apply (iterate_rows_increment_raises D N) in Hrun
    as (He & r & Hr & Hat & Hbefore & Hcnt); [|assumption|assumption|lia].
  split; [assumption|]. exists r. split; [lia|]. split; [assumption|]. split.
  - intros i Hi. apply Hbefore. lia.
  - intros i c. rewrite Hcnt.
    rewrite (bool_decide_ext _
               ((i < r)%nat /\ c = lane_col N (md5_lane fn dat) i)) by lia.
    reflexivity.
Qed.

(** The running minimum over rows [i .. i+todo-1] never exceeds its
    initial value nor a selected counter, and is one of them. *)
Lemma iterate_rows_min_attained N hashval todo :
  forall i s rv,
  exists m,
    iterate_rows N hashval min_counter todo i s rv = (s, Val m)
    /\ m <= rv
    /\ (forall i', (i <= i' < i + todo)%nat ->
                   m <= counter_at s i' (lane_col N hashval i'))
    /\ (m = rv
        \/ exists i', (i <= i' < i + todo)%nat
                      /\ m = counter_at s i' (lane_col N hashval i')).
Proof.
  induction todo as [|todo IH]; intros i s rv.
  - exists rv. split; [reflexivity|]. split; [lia|]. split; [intros; lia|].
    left. reflexivity.
  - simpl. fold (lane_col N hashval i). unfold min_counter at 1.
    set (here := counter_at s i (lane_col N hashval i)).
    destruct (IH (S i) s (if here <? rv then here else rv))
      as (m & Hm & Hle & Hrows & Hatt).
    exists m. split; [assumption|].
    destruct (Z.ltb_spec here rv) as [Hlt|Hge].
    + split; [lia|]. split.
      * intros i' Hi'. destruct (decide (i' = i)) as [->|];
          [fold here; lia|apply Hrows; lia].
      * right. destruct Hatt as [->|(i' & Hi' & ->)].
        -- exists i. split; [lia|reflexivity].
        -- exists i'. split; [lia|reflexivity].
    + split; [lia|]. split.
      * intros i' Hi'. destruct (decide (i' = i)) as [->|];
          [fold here; lia|apply Hrows; lia].
      * destruct Hatt as [->|(i' & Hi' & ->)]; [left; reflexivity|].
        right. exists i'. split; [lia|reflexivity].
Qed.

(** X6: The point query never raises and returns the minimum of
    [LONG_MAX] and the selected counters of the [DEPTH] rows. *)
Theorem cmsketch_getcount_c_minimum D N md5_lane s arg fn :
  exists m,
    cmsketch_getcount_c D N md5_lane s arg fn = Val m
    /\ m <= LONG_MAX
    /\ (forall i, (i < D)%nat ->
          m <= counter_at s i (lane_col N (md5_lane fn arg) i))
    /\ (m = LONG_MAX
        \/ exists i, (i < D)%nat
                     /\ m = counter_at s i (lane_col N (md5_lane fn arg) i)).
Proof.
  unfold cmsketch_getcount_c, hash_counters_iterate.
  destruct (iterate_rows_min_attained N (md5_lane fn arg) D 0%nat s LONG_MAX)
    as (m & Hm & Hle & Hrows & Hatt).
  exists m. rewrite Hm. split; [reflexivity|]. split; [assumption|]. split.
  - intros i Hi. apply Hrows. lia.
  - destruct Hatt as [->|(i & Hi & ->)]; [left; reflexivity|].
    right. exists i. split; [lia|reflexivity].
Qed.

(** ** Every span found is a dyadic block *)

Lemma dyad_correct_below d0 dw d :
  dyad_correct d0 dw = Some d -> 2 ^ Z.of_nat d <= dw.
Proof.
  induction d0 as [|d0 IH]; cbn [dyad_correct].
  - destruct (Z.ltb_spec dw (2 ^ Z.of_nat 0)); [discriminate|].
    intros [= <-]. assumption.
  - destruct (Z.ltb_spec dw (2 ^ Z.of_nat (S d0))); [exact IH|].
    intros [= <-]. assumption.
Qed.

Lemma round53_nonneg x : 0 <= x -> 0 <= round53 x.
Proof.
  intros Hx. pose proof (round53_monotone 0 x ltac:(lia)) as H.
  rewrite (round53_small 0) in H by lia. assumption.
Qed.

Lemma largest_dyad_bound lg w d :
  in_int64 w -> largest_dyad lg w = Some d -> Z.of_nat d <= 63.
Proof.
  intros Hw. unfold largest_dyad.
  destruct (int64_to_double w <=? 0); [discriminate|].
  destruct (lg (int64_to_double w) <? 0); [discriminate|].
  intros Hd%dyad_correct_below.
  assert (int64_to_double w <= 2 ^ 63) as Hle.
  { unfold int64_to_double. unfold in_int64, INT64_MIN, INT64_MAX in Hw.
    destruct (Z.ltb_spec w 0).
    - pose proof (round53_nonneg (- w) ltac:(lia)). lia.
    - pose proof (round53_monotone w (2 ^ 63) ltac:(lia)) as Hm.
      rewrite round53_pow2 in Hm by lia. assumption. }
  apply (Z.pow_le_mono_r_iff 2); lia.
Qed.

Lemma dyadic_block_seq a b :
  Forall dyadic_block a.1 -> Forall dyadic_block b.1 ->
  Forall dyadic_block (seq_emit a b).1.
Proof.
  destruct a as [la [|]]; simpl; intros Ha Hb; [|assumption].
  apply Forall_app. split; assumption.
Qed.

Lemma find_ranges_levels_blocks lg n :
  forall bot top,
    in_int64 bot -> in_int64 top ->
    Forall dyadic_block (find_ranges_levels lg n bot top).1.
Proof.
  induction n as [|n IH]; intros bot top Hb Ht; [constructor|].
  rewrite find_ranges_levels_S.
  destruct (top <? bot); [constructor|].
  destruct (top =? bot).
  { constructor; [|constructor]. exists 0. cbn [fst snd].
    change (2 ^ 0) with 1.
    split; [lia|]. split; [apply Z.mod_1_r|].
    replace (bot + 1 - 1) with bot by lia. symmetry. apply wrap64_id.
    assumption. }
  destruct ((0 <=? top) && (bot <? 0)).
  { apply dyadic_block_seq; apply IH; try assumption;
      unfold in_int64, INT64_MIN, INT64_MAX; lia. }
  destruct (largest_dyad lg (wrap64 (top - bot + 1))) as [dyad|] eqn:Hdyad;
    [|constructor].
  apply largest_dyad_bound in Hdyad; [|apply wrap64_range].
  cbv zeta. set (d := Z.of_nat dyad) in *.
  assert (0 <= d <= 63) as Hd by (unfold d; lia).
  assert (0 < 2 ^ d) as Hp by (apply Z.pow_pos_nonneg; lia).
  rewrite !to_uint64_mod, wrap64_mod by lia.
  destruct ((bot =? MINVAL) || (bot mod 2 ^ d =? 0)) eqn:Hfirst.
  { apply first_test_aligned in Hfirst; [|assumption].
    apply dyadic_block_seq; [|apply IH; [apply wrap64_range|assumption]].
    constructor; [|constructor]. exists d. cbn [fst snd].
    split; [assumption|]. split; [assumption|].
    replace (to_uint64 bot + 2 ^ d - 1) with (to_uint64 bot + (2 ^ d - 1)) by lia.
    rewrite wrap64_to_uint64. f_equal. lia. }
  destruct ((top =? MAXVAL) || ((top + 1) mod 2 ^ d =? 0)) eqn:Hsecond.
  { apply second_test_aligned in Hsecond; [|assumption].
    apply dyadic_block_seq; [|apply IH; [assumption|apply wrap64_range]].
    constructor; [|constructor]. exists d. cbn [fst snd].
    replace (to_uint64 top - 2 ^ d + 1) with (to_uint64 top + (- 2 ^ d + 1))
      by lia.
    rewrite wrap64_to_uint64.
    split; [assumption|]. split.
    - rewrite wrap64_mod by lia.
      replace (top + (- 2 ^ d + 1)) with (top + 1 - 2 ^ d) by lia.
      apply aligned_sub; [lia|assumption].
    - replace (wrap64 (top + (- 2 ^ d + 1)) + 2 ^ d - 1)
        with (wrap64 (top + (- 2 ^ d + 1)) + (2 ^ d - 1)) by lia.
      rewrite wrap64_add_l.
      replace (top + (- 2 ^ d + 1) + (2 ^ d - 1)) with top by lia.
      symmetry. apply wrap64_id. assumption. }
  apply dyadic_block_seq; apply IH; try assumption; apply wrap64_range.
Qed.

(** X7: Whatever the bounds and whatever [log2] returns, every span
    [find_ranges] appends starts on a multiple of its width [2^d],
    [d <= 63], and ends [2^d - 1] further (computed on 64 bits). *)
Theorem find_ranges_emits_blocks lg bot top r :
  in_int64 bot -> in_int64 top -> Forall dyadic_block r ->
  Forall dyadic_block (find_ranges lg bot top r).1.
Proof.
  intros Hb Ht Hr. unfold find_ranges, find_ranges_internal.
  pose proof (find_ranges_levels_blocks lg (Z.to_nat (RANGES - 1 + 1))
                bot top Hb Ht) as H.
  destruct (find_ranges_levels lg (Z.to_nat (RANGES - 1 + 1)) bot top)
    as [l st].
  simpl in *. apply Forall_app. split; assumption.
Qed.

(** ** Insertion at every dyadic level *)

Lemma dyadic_loop_levels D N md5_lane fn todo :
  forall j sk x sk' u,
    (j + todo <= length sk)%nat ->
    dyadic_loop D N md5_lane todo j fn sk x = (sk', Val u) ->
    length sk' = length sk
    /\ (forall j', (j' < j \/ j + todo <= j')%nat -> sk' !! j' = sk !! j')
    /\ (forall j', (j <= j' < j + todo)%nat ->
          exists s s' r,
            sk !! j' = Some s
            /\ countmin_trans_c D N md5_lane s
                 (Z.shiftr x (Z.of_nat (j' - j))) fn = (s', Val r)
            /\ sk' !! j' = Some s').
Proof.
  induction todo as [|todo IH]; intros j sk x sk' u Hlen Hrun.
  - simpl in Hrun. injection Hrun as <- _.
    split; [reflexivity|]. split; [reflexivity|]. intros j' Hj'. lia.
  - rewrite dyadic_loop_S in Hrun.
    destruct (lookup_lt_is_Some_2 sk j ltac:(lia)) as [s Hs].
    rewrite Hs in Hrun. simpl default in Hrun.
    destruct (countmin_trans_c D N md5_lane s x fn) as [level' [v|e|]] eqn:Hlevel;
      try discriminate.
    apply IH in Hrun as (Hlen' & Hout & Hin);
      [|rewrite length_insert; lia].
    rewrite length_insert in Hlen'.
    split; [assumption|]. split.
    + intros j' Hj'. rewrite Hout by lia.
      apply list_lookup_insert_ne. lia.
    + intros j' Hj'. destruct (decide (j' = j)) as [->|Hne].
      * exists s, level', v. split; [assumption|].
        replace (Z.of_nat (j - j)) with 0 by lia. rewrite Z.shiftr_0_r.
        split; [assumption|].
        rewrite Hout by lia. apply list_lookup_insert_eq. lia.
      * destruct (Hin j' ltac:(lia)) as (s1 & s1' & r1 & Hs1 & Hrun1 & Hs1').
        exists s1, s1', r1.
        rewrite list_lookup_insert_ne in Hs1 by lia.
        split; [assumption|]. split; [|assumption].
        rewrite Z.shiftr_shiftr in Hrun1 by lia.
        replace (1 + Z.of_nat (j' - S j)) with (Z.of_nat (j' - j)) in Hrun1
          by lia.
        assumption.
Qed.

(** X8: A successful insertion of [x] runs the increment pass for
    [x >> j], that is [floor (x / 2^j)], on the sketch of each level
    [j < 64], and leaves the header and the number of levels as they
    were. *)
Theorem countmin_dyadic_trans_c_levels D N md5_lane (t t' : cmtransval) x u :
  length (sketches t) = Z.to_nat RANGES ->
  countmin_dyadic_trans_c D N md5_lane t x = (t', Val u) ->
  typOid t' = typOid t /\ outFuncOid t' = outFuncOid t
  /\ length (sketches t') = Z.to_nat RANGES
  /\ forall j, (j < Z.to_nat RANGES)%nat ->
       exists s s' r,
         sketches t !! j = Some s
         /\ countmin_trans_c D N md5_lane s (x / 2 ^ Z.of_nat j) (outFuncOid t)
            = (s', Val r)
         /\ sketches t' !! j = Some s'.
Proof.
  intros Hlen Hrun. unfold countmin_dyadic_trans_c in Hrun.
  destruct (dyadic_loop D N md5_lane (Z.to_nat RANGES) 0 (outFuncOid t)
              (sketches t) x) as [sk' r] eqn:Hloop.
  injection Hrun as <- ->. simpl.
  apply dyadic_loop_levels in Hloop as (Hlen' & _ & Hin); [|lia].
  split; [reflexivity|]. split; [reflexivity|]. split; [lia|].
  intros j Hj. destruct (Hin j ltac:(lia)) as (s & s' & r & Hs & Hpass & Hs').
  exists s, s', r. split; [assumption|]. split; [|assumption].
  rewrite Nat.sub_0_r, Z.shiftr_div_pow2 in Hpass by lia. assumption.
Qed.

(** ** The counters an aggregate builds *)

Lemma level_hits_app N md5_lane fn j i c vs1 vs2 :
  level_hits N md5_lane fn j i c (vs1 ++ vs2) =
  level_hits N md5_lane fn j i c vs1 + level_hits N md5_lane fn j i c vs2.
Proof.
  induction vs1 as [|v vs1 IH]; simpl; [reflexivity|]. rewrite IH. lia.
Qed.

Lemma level_hits_bounds N md5_lane fn j i c vs :
  0 <= level_hits N md5_lane fn j i c vs <= Z.of_nat (length vs).
Proof.
  induction vs as [|v vs IH]; simpl; [lia|].
  destruct (bool_decide _); lia.
Qed.

Lemma COUNT_CEILING_value : COUNT_CEILING = 2 ^ 62 - 1.
Proof. reflexivity. Qed.

Lemma counter_at_zero_sketch D N i c :
  counter_at (replicate D (replicate N 0)) i c = 0.
Proof.
  unfold counter_at.
  destruct (replicate D (replicate N 0) !! i) as [row|] eqn:Hrow;
    [|reflexivity].
  apply lookup_replicate in Hrow as [-> _]. simpl.
  destruct (replicate N 0 !! c) as [x|] eqn:Hx; [|reflexivity].
  apply lookup_replicate in Hx as [-> _]. reflexivity.
Qed.

Lemma rectangular_zero_sketch D N : rectangular D N (replicate D (replicate N 0)).
Proof.
  split; [apply length_replicate|].
  intros i row Hrow. apply lookup_replicate in Hrow as [-> _].
  apply length_replicate.
Qed.

Lemma exact_blob_short D N md5_lane oid :
  exact_blob D N md5_lane oid ShortBlob [].
Proof.
  unfold exact_blob. simpl. split; [reflexivity|]. split; [reflexivity|].
  split; [apply length_replicate|].
  intros j s Hs. apply lookup_replicate in Hs as [-> _].
  split; [apply rectangular_zero_sketch|].
  intros i c _ _. rewrite counter_at_zero_sketch. simpl.
  rewrite COUNT_CEILING_value. lia.
Qed.

(** One more row of the column: the counters the new value selects go up
    by one, without wrapping. *)
Lemma exact_blob_insert D N md5_lane oid b vs v b' :
  (0 < N)%nat ->
  exact_blob D N md5_lane oid b vs ->
  cmsketch_trans D N md5_lane oid true b (Some v) = Val b' ->
  exact_blob D N md5_lane oid b' (vs ++ [v]).
Proof.
  intros HN Hb Hrun. unfold exact_blob in Hb. unfold cmsketch_trans in Hrun.
  simpl negb in Hrun. cbv iota in Hrun.
  destruct (cmsketch_check_transval D N oid b) as [|t]; [contradiction|].
  destruct Hb as (Htyp & Hfn & Hlen & Hlevels).
  unfold countmin_dyadic_trans_c in Hrun.
  destruct (dyadic_loop D N md5_lane (Z.to_nat RANGES) 0 (outFuncOid t)
              (sketches t) v) as [sk' r] eqn:Hloop.
  destruct r as [u|e|]; try discriminate. simpl in Hrun.
  injection Hrun as <-. unfold exact_blob. simpl.
  apply dyadic_loop_levels in Hloop as (Hlen' & _ & Hin); [|lia].
  split; [assumption|]. split; [assumption|]. split; [lia|].
  intros j s' Hs'.
  assert (Hj : (j < Z.to_nat RANGES)%nat).
  { apply lookup_lt_Some in Hs'. lia. }
  destruct (Hin j ltac:(lia)) as (s & s0 & r & Hs & Hpass & Hs0).
  rewrite Hs0 in Hs'. injection Hs' as ->.
  rewrite Nat.sub_0_r, Hfn in Hpass.
  destruct (Hlevels j s Hs) as (Hrect & Hcnt).
  unfold countmin_trans_c, hash_counters_iterate in Hpass.
  apply (iterate_rows_increment D N) in Hpass as (Hrect' & Hnc & Hnew);
    [|assumption|assumption|lia].
  split; [assumption|].
  intros i c Hi Hc. rewrite Hnew, level_hits_app. simpl level_hits.
  destruct (Hcnt i c Hi Hc) as (Hold & Hle).
  destruct (decide (c = lane_col N
                         (md5_lane (oid INT8OID) (Z.shiftr v (Z.of_nat j))) i))
    as [Hsel|Hsel].
  - rewrite bool_decide_eq_true_2 by (split; [lia|assumption]).
    rewrite (bool_decide_eq_true_2 _ Hsel).
    pose proof (Hnc i ltac:(lia)) as Hne. rewrite <- Hsel in Hne.
    pose proof (level_hits_bounds N md5_lane (oid INT8OID) j i c vs) as Hb.
    rewrite COUNT_CEILING_value in *.
    rewrite wrap64_id
      by (unfold in_int64, INT64_MIN, INT64_MAX; lia).
    lia.
  - rewrite bool_decide_eq_false_2 by tauto.
    rewrite (bool_decide_eq_false_2 _ Hsel). lia.
Qed.

Lemma insert_all_exact_from D N md5_lane oid vs :
  (0 < N)%nat ->
  forall b seen b',
    exact_blob D N md5_lane oid b seen ->
    insert_all D N md5_lane oid vs b = Val b' ->
    exact_blob D N md5_lane oid b' (seen ++ vs).
Proof.
  intros HN. induction vs as [|v vs IH]; intros b seen b' Hb Hrun.
  - simpl in Hrun. injection Hrun as <-. rewrite app_nil_r. assumption.
  - simpl in Hrun.
    destruct (cmsketch_trans D N md5_lane oid true b (Some v)) as [b1|e|] eqn:Hv;
      try discriminate.
    simpl in Hrun.
    replace (seen ++ v :: vs) with ((seen ++ [v]) ++ vs)
      by (rewrite <- app_assoc; reflexivity).
    apply (IH b1); [|assumption].
    apply (exact_blob_insert D N md5_lane oid b seen v); assumption.
Qed.

(** X9: The aggregate over a column that ends without an error leaves, in
    every level [j], row [i] and column [c], the number of values [v] of
    the column whose key [v >> j] selects that column in that row: no
    counter is lost or wrapped, and none exceeds the ceiling. *)
Theorem insert_all_counts_hits D N md5_lane oid vs b :
  (0 < N)%nat ->
  insert_all D N md5_lane oid vs ShortBlob = Val b ->
  exact_blob D N md5_lane oid b vs.
Proof.
  intros HN Hrun.
  apply (insert_all_exact_from D N md5_lane oid vs HN ShortBlob [] b);
    [apply exact_blob_short|assumption].
Qed.

(** ** Merging two aggregates *)

Lemma counter_at_combine (s1 s2 : countmin) i c :
  is_Some (s1 !! i ≫= (.!! c)) -> is_Some (s2 !! i ≫= (.!! c)) ->
  counter_at (zip_with (zip_with add_counter) s1 s2) i c =
  wrap64 (counter_at s1 i c + counter_at s2 i c).
Proof.
  unfold counter_at. intros [a Ha] [b Hb]. rewrite lookup_zip_with.
  destruct (s1 !! i) as [r1|]; [|discriminate].
  destruct (s2 !! i) as [r2|]; [|discriminate]. simpl in *.
  rewrite lookup_zip_with, Ha, Hb. reflexivity.
Qed.

Lemma rectangular_combine D N (s1 s2 : countmin) :
  rectangular D N s1 -> rectangular D N s2 ->
  rectangular D N (zip_with (zip_with add_counter) s1 s2).
Proof.
  intros [HD1 HN1] [HD2 HN2]. split.
  - rewrite length_zip_with. lia.
  - intros i row Hrow.
    apply lookup_zip_with_Some in Hrow as (r1 & r2 & -> & Hr1 & Hr2).
    rewrite length_zip_with, (HN1 _ _ Hr1), (HN2 _ _ Hr2). lia.
Qed.

(** X10: Merging the states of two aggregates that ended without an error
    gives, at every level, row and column, the number of hits of the two
    columns taken together: the merge adds without wrapping, whether or
    not the sum stays below the ceiling. *)
Theorem cmsketch_combine_counts_hits D N md5_lane oid vs1 vs2 b1 b2 :
  (0 < N)%nat ->
  insert_all D N md5_lane oid vs1 ShortBlob = Val b1 ->
  insert_all D N md5_lane oid vs2 ShortBlob = Val b2 ->
  exists t,
    cmsketch_combine D N oid b1 b2 = Val (FullBlob t)
    /\ typOid t = INT8OID /\ outFuncOid t = oid INT8OID
    /\ length (sketches t) = Z.to_nat RANGES
    /\ forall j s, sketches t !! j = Some s ->
         rectangular D N s
         /\ forall i c, (i < D)%nat -> (c < N)%nat ->
              counter_at s i c
              = level_hits N md5_lane (oid INT8OID) j i c (vs1 ++ vs2).
Proof.
  intros HN H1 H2.
  apply (insert_all_exact_from D N md5_lane oid vs1 HN ShortBlob []) in H1;
    [|apply exact_blob_short].
  apply (insert_all_exact_from D N md5_lane oid vs2 HN ShortBlob []) in H2;
    [|apply exact_blob_short].
  simpl app in H1, H2. unfold exact_blob in H1, H2. unfold cmsketch_combine.
  destruct (cmsketch_check_transval D N oid b1) as [|t1]; [contradiction|].
  destruct (cmsketch_check_transval D N oid b2) as [|t2]; [contradiction|].
  destruct H1 as (Htyp1 & Hfn1 & Hlen1 & Hlev1).
  destruct H2 as (Htyp2 & Hfn2 & Hlen2 & Hlev2).
  eexists. split; [reflexivity|]. simpl.
  split; [assumption|]. split; [assumption|]. split.
  - unfold combine_sketches. rewrite length_zip_with. lia.
  - intros j s Hs. unfold combine_sketches in Hs.
    apply lookup_zip_with_Some in Hs as (s1 & s2 & -> & Hs1 & Hs2).
    destruct (Hlev1 j s1 Hs1) as (Hrect1 & Hcnt1).
    destruct (Hlev2 j s2 Hs2) as (Hrect2 & Hcnt2).
    split; [apply rectangular_combine; assumption|].
    intros i c Hi Hc.
    rewrite counter_at_combine
      by (eapply rectangular_selected; eassumption).
    destruct (Hcnt1 i c Hi Hc) as (-> & Hle1).
    destruct (Hcnt2 i c Hi Hc) as (-> & Hle2).
    rewrite level_hits_app.
    pose proof (level_hits_bounds N md5_lane (oid INT8OID) j i c vs1).
    pose proof (level_hits_bounds N md5_lane (oid INT8OID) j i c vs2).
    rewrite COUNT_CEILING_value in *.
    apply wrap64_id. unfold in_int64, INT64_MIN, INT64_MAX. lia.
Qed.

(** ** The key a span is counted under *)

Lemma span_width_double d :
  0 <= d <= 62 -> int64_to_double (wrap64 (2 ^ d)) = 2 ^ d.
Proof.
  intros Hd.
  assert (0 < 2 ^ d) by (apply Z.pow_pos_nonneg; lia).
  assert (2 ^ d <= 2 ^ 62) by (apply Z.pow_le_mono_r; lia).
  rewrite wrap64_id by (unfold in_int64, INT64_MIN, INT64_MAX; lia).
  unfold int64_to_double. destruct (Z.ltb_spec (2 ^ d) 0); [lia|].
  apply round53_pow2. lia.
Qed.

(** The step of the summation loop at a span of [2^d] values: the
    count is read from the sketch of level [d], under the low bound
    shifted right by [d] as an unsigned 64-bit number. *)
Lemma sum_spans_block lg D N md5_lane (t : cmtransval) lo d rest cursum :
  lg (2 ^ d) = d -> 0 <= d <= 62 ->
  sum_spans lg D N md5_lane t ((lo, lo + 2 ^ d - 1) :: rest) cursum =
  match sketches t !! Z.to_nat d with
  | None => NoResult
  | Some sketch =>
      val ← cmsketch_getcount_c D N md5_lane sketch
              (wrap64 (to_uint64 lo / 2 ^ d)) (outFuncOid t);
      sum_spans lg D N md5_lane t rest (wrap64 (cursum + val))
  end.
Proof.
  intros Hlg Hd. cbn [sum_spans].
  replace (lo + 2 ^ d - 1 - lo + 1) with (2 ^ d) by lia.
  rewrite span_width_double by assumption.
  assert (0 < 2 ^ d) by (apply Z.pow_pos_nonneg; lia).
  destruct (Z.leb_spec (2 ^ d) 0); [lia|]. rewrite Hlg.
  destruct (Z.ltb_spec d 0); [lia|].
  rewrite Z.shiftr_div_pow2 by lia. reflexivity.
Qed.

(** X11: A span of negative values of width [2^d], [d >= 1], is counted
    under the key [(lo + 2^64) / 2^d]: the shift is done on the unsigned
    [Datum].  That key is larger than the key [v >> d] under which any
    [int64] value [v] was inserted at level [d], so the count read is
    that of a key no insertion has incremented. *)
Theorem sum_spans_negative_span lg D N md5_lane (t : cmtransval) lo d rest
    cursum :
  lg (2 ^ d) = d -> 1 <= d <= 62 -> in_int64 lo -> lo + 2 ^ d <= 0 ->
  sum_spans lg D N md5_lane t ((lo, lo + 2 ^ d - 1) :: rest) cursum =
    match sketches t !! Z.to_nat d with
    | None => NoResult
    | Some sketch =>
        val ← cmsketch_getcount_c D N md5_lane sketch
                ((lo + 2 ^ 64) / 2 ^ d) (outFuncOid t);
        sum_spans lg D N md5_lane t rest (wrap64 (cursum + val))
    end
  /\ forall v, in_int64 v -> Z.shiftr v d < (lo + 2 ^ 64) / 2 ^ d.
Proof.
  intros Hlg Hd Hlo Hneg.
  assert (0 < 2 ^ d) as Hp by (apply Z.pow_pos_nonneg; lia).
  assert (2 ^ 63 = 2 ^ (63 - d) * 2 ^ d) as Hsplit
    by (rewrite <- Z.pow_add_r by lia; f_equal; lia).
  assert (0 < 2 ^ (63 - d)) as Hq by (apply Z.pow_pos_nonneg; lia).
  assert (2 ^ (63 - d) <= 2 ^ 62) as Hq' by (apply Z.pow_le_mono_r; lia).
  unfold in_int64, INT64_MIN, INT64_MAX in Hlo.
  assert (2 ^ (63 - d) <= (lo + 2 ^ 64) / 2 ^ d) as Hkey.
  { apply Z.div_le_lower_bound; [assumption|]. lia. }
  assert ((lo + 2 ^ 64) / 2 ^ d < 2 ^ 63) as Hkey'.
  { apply Z.div_lt_upper_bound; [assumption|]. nia. }
  split.
  - rewrite sum_spans_block by (assumption || lia).
    assert (to_uint64 lo = lo + 2 ^ 64) as ->.
    { unfold to_uint64.
      replace lo with (lo + 2 ^ 64 + (-1) * 2 ^ 64) at 1 by lia.
      rewrite Z_mod_plus_full. apply Z.mod_small. lia. }
    rewrite wrap64_id
      by (unfold in_int64, INT64_MIN, INT64_MAX; lia).
    reflexivity.
  - intros v Hv. unfold in_int64, INT64_MIN, INT64_MAX in Hv.
    rewrite Z.shiftr_div_pow2 by lia.
    assert (v / 2 ^ d < 2 ^ (63 - d)); [|lia].
    apply Z.div_lt_upper_bound; [assumption|]. lia.
Qed.

(** ** The range count of non-negative ranges *)

Lemma spans_total_tiling l bot top vs :
  (forall x, covering l x =
             if (bot <=? x) && (x <=? top) then 1%nat else 0%nat) ->
  spans_total l vs = values_within bot top vs.
Proof.
  intros Hcov.
  assert (forall k : list span,
            spans_total k vs =
            (fix total (ws : list Z) : Z :=
               match ws with
               | [] => 0
               | v :: rest => Z.of_nat (covering k v) + total rest
               end) vs) as Hswap.
  { induction k as [|s k IH]; simpl.
    - induction vs as [|v vs IHv]; [reflexivity|]. rewrite <- IHv. reflexivity.
    - rewrite IH. clear IH. destruct s as [lo hi]. cbn [fst snd].
      induction vs as [|v vs IHv]; [reflexivity|].
      cbn [values_within]. rewrite <- IHv.
      destruct (in_span v (lo, hi)); lia. }
  rewrite Hswap. clear Hswap.
  induction vs as [|v vs IHv]; [reflexivity|].
  cbn [values_within]. rewrite IHv, Hcov. unfold in_span. cbn [fst snd].
  destruct ((bot <=? v) && (v <=? top)); reflexivity.
Qed.

(** Every value of an aligned span has the span's key at the span's
    level. *)
Lemma values_within_block_hits N md5_lane fn d i lo vs :
  0 <= d -> lo mod 2 ^ d = 0 ->
  values_within lo (lo + 2 ^ d - 1) vs
  <= level_hits N md5_lane fn (Z.to_nat d) i
       (lane_col N (md5_lane fn (lo / 2 ^ d)) i) vs.
Proof.
  intros Hd Hal.
  assert (0 < 2 ^ d) as Hp by (apply Z.pow_pos_nonneg; lia).
  induction vs as [|v vs IH]; [reflexivity|].
  cbn [values_within level_hits]. unfold in_span at 1. cbn [fst snd].
  destruct (Z.leb_spec lo v) as [Hlo|Hlo];
    destruct (Z.leb_spec v (lo + 2 ^ d - 1)) as [Hhi|Hhi]; cbn [andb];
    try (destruct (bool_decide _); lia).
  rewrite bool_decide_eq_true_2; [lia|].
  rewrite Z2Nat.id, Z.shiftr_div_pow2 by lia.
  do 2 f_equal.
  apply (Z.div_unique_pos v (2 ^ d) (lo / 2 ^ d) (v - lo)); [lia|].
  pose proof (Z.div_mod lo (2 ^ d) ltac:(lia)). lia.
Qed.

(** The summation loop over aligned spans: it returns, without
    wrapping, at least the number of values the spans hold. *)
Lemma sum_spans_lower lg D N md5_lane (t : cmtransval) vs :
  (forall k, 0 <= k -> lg (2 ^ k) = k) ->
  (0 < D)%nat -> (0 < N)%nat ->
  exact_levels D N md5_lane (outFuncOid t) (sketches t) vs ->
  forall l cursum,
    Forall aligned_span l -> 0 <= cursum ->
    cursum + Z.of_nat (length l) * Z.of_nat (length vs) <= INT64_MAX ->
    exists m,
      sum_spans lg D N md5_lane t l cursum = Val m
      /\ cursum + spans_total l vs <= m
      /\ m <= cursum + Z.of_nat (length l) * Z.of_nat (length vs).
Proof.
  intros Hlg HD HN [Hlen Hlevels].
  induction l as [|s l IH]; intros cursum Hl Hcur Hfit.
  - exists cursum. simpl. split; [reflexivity|]. lia.
  - apply Forall_cons_1 in Hl as [(d & Hd & Hlo & Hal & Hhi) Hl].
    destruct s as [lo hi]. cbn [fst snd] in *. subst hi.
    rewrite sum_spans_block by (try apply Hlg; lia).
    destruct (lookup_lt_is_Some_2 (sketches t) (Z.to_nat d)) as [sk Hsk].
    { rewrite Hlen. change (Z.to_nat RANGES) with 64%nat. lia. }
    rewrite Hsk.
    destruct (Hlevels _ _ Hsk) as [Hrect Hcnt].
    assert (0 < 2 ^ d) as Hp by (apply Z.pow_pos_nonneg; lia).
    assert (to_uint64 lo = lo) as -> by (apply Z.mod_small; lia).
    assert (0 <= lo / 2 ^ d) as Hk0 by (apply Z.div_pos; lia).
    assert (lo / 2 ^ d <= lo) as Hk1.
    { apply Z.div_le_upper_bound; [assumption|]. nia. }
    rewrite wrap64_id by (unfold in_int64, INT64_MIN, INT64_MAX; lia).
    unfold cmsketch_getcount_c, hash_counters_iterate.
    destruct (iterate_rows_min_attained N
                (md5_lane (outFuncOid t) (lo / 2 ^ d)) D 0%nat sk LONG_MAX)
      as (m & Hm & _ & Hrows & Hatt).
    rewrite Hm. cbn [snd mbind result_bind].
    set (col := lane_col N (md5_lane (outFuncOid t) (lo / 2 ^ d))) in *.
    assert (forall i, (i < D)%nat ->
              values_within lo (lo + 2 ^ d - 1) vs <= counter_at sk i (col i)
              /\ counter_at sk i (col i) <= Z.of_nat (length vs)
              /\ counter_at sk i (col i) <= COUNT_CEILING) as Hsel.
    { intros i Hi.
      destruct (Hcnt i (col i) Hi (lane_col_lt N _ i HN)) as [Heq Hceil].
      split; [|split; [|assumption]].
      - rewrite Heq. apply values_within_block_hits; [lia|assumption].
      - rewrite Heq. apply level_hits_bounds. }
    assert (values_within lo (lo + 2 ^ d - 1) vs <= m
            /\ m <= Z.of_nat (length vs)) as [Hm_lo Hm_hi].
    { pose proof (Hrows 0%nat ltac:(lia)) as Hfirst.
      destruct (Hsel 0%nat HD) as (_ & Hlen0 & Hceil0).
      split; [|fold col in Hfirst; lia].
      destruct Hatt as [->|(i & Hi & ->)].
      - fold col in Hfirst. rewrite COUNT_CEILING_value in Hceil0.
        unfold LONG_MAX in Hfirst. lia.
      - apply Hsel. lia. }
    assert (0 <= values_within lo (lo + 2 ^ d - 1) vs) as Hnn.
    { clear. induction vs as [|v vs IH]; simpl; [lia|].
      destruct (in_span v _); lia. }
    cbn [length] in Hfit.
    rewrite wrap64_id by (unfold in_int64, INT64_MIN, INT64_MAX in *; nia).
    destruct (IH (cursum + m) Hl ltac:(lia) ltac:(nia)) as (r & Hr & Hr1 & Hr2).
    exists r. split; [assumption|]. cbn [spans_total length fst snd].
    split; nia.
Qed.

Lemma tiling_spans_aligned l bot top :
  0 <= bot -> top < MAXVAL ->
  dyadic_tiling l bot top -> Forall dyadic_block l -> Forall aligned_span l.
Proof.
  intros Hbot Htop Htil Hblk. pose proof Htil as [_ Hpow].
  apply Forall_lookup. intros i s Hi.
  destruct (Forall_lookup_1 _ _ _ _ Hblk Hi) as (d & Hd & Hal & Hhi).
  destruct (Forall_lookup_1 _ _ _ _ Hpow Hi) as (k & Hk & Hw).
  assert (s ∈ l) as Hs by (apply list_elem_of_lookup; exists i; exact Hi).
  assert (0 < 2 ^ k) by (apply Z.pow_pos_nonneg; lia).
  assert (bot <= s.1 <= top) as Hin1.
  { apply (dyadic_tiling_union l bot top); [assumption|].
    exists s. split; [assumption|lia]. }
  assert (bot <= s.2 <= top) as Hin2.
  { apply (dyadic_tiling_union l bot top); [assumption|].
    exists s. split; [assumption|lia]. }
  unfold MAXVAL, INT64_MAX in Htop.
  assert (0 < 2 ^ d) by (apply Z.pow_pos_nonneg; lia).
  assert (2 ^ d <= 2 ^ 63) by (apply Z.pow_le_mono_r; lia).
  assert (s.2 = s.1 + 2 ^ d - 1) as Hend.
  { destruct (Z.lt_ge_cases (s.1 + 2 ^ d - 1) (2 ^ 63)) as [Hfit|Hover].
    - rewrite Hhi. apply wrap64_id. unfold in_int64, INT64_MIN, INT64_MAX. lia.
    - rewrite wrap64_high in Hhi by lia. lia. }
  exists d. split.
  - destruct (Z.eq_dec d 63) as [->|]; [|lia]. exfalso.
    rewrite Z.mod_small in Hal by lia. lia.
  - split; [lia|]. split; assumption.
Qed.

Lemma range_spans_levels n bot top :
  0 <= bot -> bot <= top -> top < MAXVAL -> top - bot + 1 < 2 ^ 53 ->
  53 <= Z.of_nat n ->
  exists l,
    find_ranges_levels Z.log2 (S n) bot top = (l, Returned)
    /\ dyadic_tiling l bot top /\ Forall aligned_span l
    /\ (length l <= 2 * S n)%nat.
Proof.
  intros Hbot Hle Htop H53 Hn.
  assert (in_int64 bot /\ in_int64 top) as [Hb Ht]
    by (unfold in_int64, INT64_MIN, MAXVAL, INT64_MAX in *; lia).
  destruct (first_call_exact n bot top Hb Ht Htop Hle H53 Hn)
    as (l & Hrun & Htil).
  pose proof (find_ranges_levels_blocks Z.log2 (S n) bot top Hb Ht) as Hblk.
  pose proof (first_call_bound n bot top Hb Ht Hle) as Hcnt.
  unfold span_count in Hcnt. rewrite Hrun in Hblk, Hcnt.
  exists l. split; [exact Hrun|]. split; [assumption|]. split.
  - apply (tiling_spans_aligned l bot top); assumption.
  - exact Hcnt.
Qed.

Lemma range_spans lg bot top :
  log2_faithful lg ->
  0 <= bot -> bot <= top -> top < MAXVAL -> top - bot + 1 < 2 ^ 53 ->
  exists l,
    find_ranges lg bot top [] = (l, Returned)
    /\ dyadic_tiling l bot top /\ Forall aligned_span l
    /\ (length l <= 128)%nat.
Proof.
  intros Hlg Hbot Hle Htop H53. rewrite find_ranges_faithful by assumption.
  unfold find_ranges, find_ranges_internal.
  change (Z.to_nat (RANGES - 1 + 1)) with (S 63).
  destruct (range_spans_levels 63 bot top Hbot Hle Htop H53 ltac:(lia))
    as (l & Hrun & Htil & Hal & Hcnt).
  exists l. split; [|split; [assumption|split; [assumption|exact Hcnt]]].
  exact (f_equal (fun e : emitted => let (l, st) := e in ([] ++ l, st)) Hrun).
Qed.

(** The range count over exact levels: it returns at least the number
    of values lying in the range. *)
Lemma rangecount_lower lg D N md5_lane (t : cmtransval) vs bot top :
  log2_faithful lg -> (forall k, 0 <= k -> lg (2 ^ k) = k) ->
  (0 < D)%nat -> (0 < N)%nat ->
  exact_levels D N md5_lane (outFuncOid t) (sketches t) vs ->
  Z.of_nat (length vs) < 2 ^ 56 ->
  0 <= bot -> bot <= top -> top < MAXVAL -> top - bot + 1 < 2 ^ 53 ->
  exists m,
    cmsketch_rangecount_c lg D N md5_lane t bot top = Val m
    /\ values_within bot top vs <= m.
Proof.
  intros Hlg Hpow HD HN Hexact Hlen Hbot Hle Htop H53.
  destruct (range_spans lg bot top Hlg Hbot Hle Htop H53)
    as (l & Hfr & [Hcov _] & Hal & Hcnt).
  unfold cmsketch_rangecount_c. rewrite Hfr.
  destruct (sum_spans_lower lg D N md5_lane t vs Hpow HD HN Hexact l 0 Hal)
    as (m & Hm & Hlo & _); [lia| |].
  - unfold INT64_MAX.
    assert (Z.of_nat (length l) <= 128) by lia.
    assert (128 * 2 ^ 56 = 2 ^ 63) by reflexivity. nia.
  - exists m. split; [assumption|].
    rewrite <- (spans_total_tiling l bot top vs Hcov). lia.
Qed.

(** X12: The range count over what an aggregate built never underestimates:
    for a column [vs] of fewer than [2^56] values whose aggregate ended
    without an error, and a range [0 <= bot <= top < MAXVAL] of fewer than
    [2^53] values, the call returns a count that is at least the number of
    values of the column lying in the range. *)
Theorem rangecount_never_underestimates lg D N md5_lane oid vs b
    (t : cmtransval) bot top :
  log2_faithful lg -> (forall k, 0 <= k -> lg (2 ^ k) = k) ->
  (0 < D)%nat -> (0 < N)%nat ->
  insert_all D N md5_lane oid vs ShortBlob = Val b ->
  cmsketch_check_transval D N oid b = FullBlob t ->
  Z.of_nat (length vs) < 2 ^ 56 ->
  0 <= bot -> bot <= top -> top < MAXVAL -> top - bot + 1 < 2 ^ 53 ->
  exists m,
    cmsketch_rangecount_c lg D N md5_lane t bot top = Val m
    /\ values_within bot top vs <= m.
Proof.
  intros Hlg Hpow HD HN Hrun Hcheck Hlen Hbot Hle Htop H53.
  apply (insert_all_exact_from D N md5_lane oid vs HN ShortBlob []) in Hrun;
    [|apply exact_blob_short].
  simpl app in Hrun. unfold exact_blob in Hrun. rewrite Hcheck in Hrun.
  destruct Hrun as (_ & Hfn & Hexact). rewrite <- Hfn in Hexact.
  apply (rangecount_lower lg D N md5_lane t vs bot top); assumption.
Qed.

(** ** Point queries over what an aggregate built *)

Lemma level0_hits_ge N md5_lane fn i v vs :
  values_within v v vs
  <= level_hits N md5_lane fn 0 i (lane_col N (md5_lane fn v) i) vs.
Proof.
  pose proof (values_within_block_hits N md5_lane fn 0 i v vs ltac:(lia)
                (Z.mod_1_r v)) as H.
  change (2 ^ 0) with 1 in H. rewrite Z.div_1_r in H.
  replace (v + 1 - 1) with v in H by lia. exact H.
Qed.

Lemma level0_hits_eq N md5_lane fn i v vs :
  (forall u, u ∈ vs -> u <> v ->
     lane_col N (md5_lane fn u) i <> lane_col N (md5_lane fn v) i) ->
  level_hits N md5_lane fn 0 i (lane_col N (md5_lane fn v) i) vs
  = values_within v v vs.
Proof.
  induction vs as [|u vs IH]; intros Hfree; [reflexivity|].
  cbn [level_hits values_within]. rewrite IH
    by (intros w Hw; apply Hfree; right; assumption).
  f_equal. change (Z.of_nat 0) with 0. rewrite Z.shiftr_0_r.
  unfold in_span. cbn [fst snd].
  destruct (Z.eq_dec u v) as [->|Hne].
  - rewrite bool_decide_eq_true_2 by reflexivity.
    rewrite Z.leb_refl. reflexivity.
  - rewrite bool_decide_eq_false_2
      by (intros Heq; apply (Hfree u); [left|assumption|symmetry; assumption]).
    destruct (Z.leb_spec v u); destruct (Z.leb_spec u v); try reflexivity.
    lia.
Qed.

(** X13: The point query is exact in the absence of collisions: if in some
    row no other value of the column selects the counter of [v], the
    count returned for [v] is the number of times [v] occurs in the
    column. *)
Theorem cmsketch_getcount_exact D N md5_lane oid vs b v i :
  (0 < N)%nat ->
  insert_all D N md5_lane oid vs ShortBlob = Val b ->
  (i < D)%nat ->
  (forall u, u ∈ vs -> u <> v ->
     lane_col N (md5_lane (oid INT8OID) u) i
     <> lane_col N (md5_lane (oid INT8OID) v) i) ->
  cmsketch_getcount D N md5_lane oid b v = Val (values_within v v vs).
Proof.
  intros HN Hrun Hi Hfree.
  apply (insert_all_exact_from D N md5_lane oid vs HN ShortBlob []) in Hrun;
    [|apply exact_blob_short].
  simpl app in Hrun. unfold exact_blob in Hrun. unfold cmsketch_getcount.
  destruct (cmsketch_check_transval D N oid b) as [|t]; [contradiction|].
  destruct Hrun as (_ & Hfn & Hlen & Hlevels).
  destruct (lookup_lt_is_Some_2 (sketches t) 0%nat) as [s Hs].
  { rewrite Hlen. change (Z.to_nat RANGES) with 64%nat. lia. }
  rewrite Hs, Hfn. simpl default.
  destruct (Hlevels _ _ Hs) as [Hrect Hcnt].
  unfold cmsketch_getcount_c, hash_counters_iterate.
  destruct (iterate_rows_min_attained N (md5_lane (oid INT8OID) v) D 0%nat s
              LONG_MAX) as (m & Hm & _ & Hrows & Hatt).
  rewrite Hm. cbn [snd]. f_equal.
  set (col := lane_col N (md5_lane (oid INT8OID) v)) in *.
  assert (forall k, (k < D)%nat ->
            counter_at s k (col k)
            = level_hits N md5_lane (oid INT8OID) 0 k (col k) vs
            /\ counter_at s k (col k) <= COUNT_CEILING) as Hsel.
  { intros k Hk. apply Hcnt; [assumption|]. apply lane_col_lt. assumption. }
  pose proof (Hrows i ltac:(lia)) as Hle.
  destruct (Hsel i Hi) as [Heq Hceil]. rewrite Heq in Hle.
  unfold col in Hle at 1. rewrite level0_hits_eq in Hle by assumption.
  destruct Hatt as [->|(k & Hk & ->)].
  - rewrite Heq in Hceil. unfold col in Hceil at 1.
    rewrite level0_hits_eq in Hceil by assumption.
    rewrite COUNT_CEILING_value in Hceil. unfold LONG_MAX in Hle. lia.
  - destruct (Hsel k ltac:(lia)) as [Heqk _]. rewrite Heqk in *.
    pose proof (level0_hits_ge N md5_lane (oid INT8OID) k v vs). fold col in H.
    lia.
Qed.

(** ** An insertion that raises *)

Lemma iterate_rows_increment_error N hashval todo :
  forall i s rv s' e,
    iterate_rows N hashval increment_counter todo i s rv = (s', Elog e) ->
    e = MaximumCountExceeded.
Proof.
  induction todo as [|todo IH]; intros i s rv s' e; simpl; [discriminate|].
  unfold increment_counter at 1.
  destruct (_ =? COUNT_CEILING); [intros [= _ <-]; reflexivity|]. apply IH.
Qed.

Lemma dyadic_loop_returns D N md5_lane fn todo :
  forall j sk x, (dyadic_loop D N md5_lane todo j fn sk x).2 <> NoResult.
Proof.
  induction todo as [|todo IH]; intros j sk x; [discriminate|].
  rewrite dyadic_loop_S.
  pose proof (iterate_rows_increment_returns N (md5_lane fn x) D 0%nat
                (default [] (sk !! j)) 0) as Hret.
  unfold countmin_trans_c, hash_counters_iterate.
  destruct (iterate_rows N (md5_lane fn x) increment_counter D 0
              (default [] (sk !! j)) 0) as [level' [v|e|]];
    [apply IH|discriminate|contradiction].
Qed.

Lemma dyadic_loop_raises D N md5_lane fn todo :
  forall j sk x sk' e,
    (j + todo <= length sk)%nat ->
    dyadic_loop D N md5_lane todo j fn sk x = (sk', Elog e) ->
    e = MaximumCountExceeded
    /\ length sk' = length sk
    /\ exists r,
         (j <= r < j + todo)%nat
         /\ (forall j', (j' < j \/ r < j')%nat -> sk' !! j' = sk !! j')
         /\ (forall j', (j <= j' < r)%nat ->
               exists s s' v,
                 sk !! j' = Some s
                 /\ countmin_trans_c D N md5_lane s
                      (Z.shiftr x (Z.of_nat (j' - j))) fn = (s', Val v)
                 /\ sk' !! j' = Some s')
         /\ exists s s',
              sk !! r = Some s
              /\ countmin_trans_c D N md5_lane s
                   (Z.shiftr x (Z.of_nat (r - j))) fn = (s', Elog e)
              /\ sk' !! r = Some s'.
Proof.
  induction todo as [|todo IH]; intros j sk x sk' e Hlen Hrun;
    [discriminate|].
  rewrite dyadic_loop_S in Hrun.
  destruct (lookup_lt_is_Some_2 sk j ltac:(lia)) as [s Hs].
  rewrite Hs in Hrun. simpl default in Hrun.
  destruct (countmin_trans_c D N md5_lane s x fn) as [level' [v|e'|]] eqn:Hlevel;
    try discriminate.
  - apply IH in Hrun as (He & Hlen' & r & Hr & Hout & Hdone & Hraise);
      [|rewrite length_insert; lia].
    rewrite length_insert in Hlen'.
    split; [assumption|]. split; [assumption|].
    exists r. split; [lia|]. split; [|split].
    + intros j' Hj'. rewrite Hout by lia.
      apply list_lookup_insert_ne. lia.
    + intros j' Hj'. destruct (decide (j' = j)) as [->|Hne].
      * exists s, level', v. split; [assumption|].
        replace (Z.of_nat (j - j)) with 0 by lia. rewrite Z.shiftr_0_r.
        split; [assumption|].
        rewrite Hout by lia. apply list_lookup_insert_eq. lia.
      * destruct (Hdone j' ltac:(lia)) as (s1 & s1' & v1 & Hs1 & Hrun1 & Hs1').
        exists s1, s1', v1.
        rewrite list_lookup_insert_ne in Hs1 by lia.
        split; [assumption|]. split; [|assumption].
        rewrite Z.shiftr_shiftr in Hrun1 by lia.
        replace (1 + Z.of_nat (j' - S j)) with (Z.of_nat (j' - j)) in Hrun1
          by lia.
        assumption.
    + destruct Hraise as (s1 & s1' & Hs1 & Hrun1 & Hs1').
      exists s1, s1'.
      rewrite list_lookup_insert_ne in Hs1 by lia.
      split; [assumption|]. split; [|assumption].
      rewrite Z.shiftr_shiftr in Hrun1 by lia.
      replace (1 + Z.of_nat (r - S j)) with (Z.of_nat (r - j)) in Hrun1 by lia.
      assumption.
  - injection Hrun as <- <-.
    split.
    { unfold countmin_trans_c, hash_counters_iterate in Hlevel.
      apply iterate_rows_increment_error in Hlevel. assumption. }
    split; [apply length_insert|].
    exists j. split; [lia|]. split; [|split].
    + intros j' Hj'. apply list_lookup_insert_ne. lia.
    + intros j' Hj'. lia.
    + exists s, level'. split; [assumption|].
      replace (Z.of_nat (j - j)) with 0 by lia. rewrite Z.shiftr_0_r.
      split; [assumption|]. apply list_lookup_insert_eq. lia.
Qed.

(** X14: An insertion either comes back or raises "maximum count
    exceeded".  When it raises, at the first level [r] whose pass raises,
    the levels below [r] keep the increments already made for the value,
    level [r] is left as its pass left it, and the levels above [r] are
    untouched: the sketch is left partially updated. *)
Theorem countmin_dyadic_trans_c_raises D N md5_lane (t : cmtransval) x :
  length (sketches t) = Z.to_nat RANGES ->
  (countmin_dyadic_trans_c D N md5_lane t x).2 <> NoResult
  /\ forall t' e,
       countmin_dyadic_trans_c D N md5_lane t x = (t', Elog e) ->
       e = MaximumCountExceeded
       /\ length (sketches t') = Z.to_nat RANGES
       /\ exists r,
            (r < Z.to_nat RANGES)%nat
            /\ (forall j, (r < j)%nat -> sketches t' !! j = sketches t !! j)
            /\ (forall j, (j < r)%nat ->
                  exists s s' v,
                    sketches t !! j = Some s
                    /\ countmin_trans_c D N md5_lane s (x / 2 ^ Z.of_nat j)
                         (outFuncOid t) = (s', Val v)
                    /\ sketches t' !! j = Some s')
            /\ exists s s',
                 sketches t !! r = Some s
                 /\ countmin_trans_c D N md5_lane s (x / 2 ^ Z.of_nat r)
                      (outFuncOid t) = (s', Elog e)
                 /\ sketches t' !! r = Some s'.
Proof.
  intros Hlen. unfold countmin_dyadic_trans_c.
  pose proof (dyadic_loop_returns D N md5_lane (outFuncOid t)
                (Z.to_nat RANGES) 0%nat (sketches t) x) as Hret.
  destruct (dyadic_loop D N md5_lane (Z.to_nat RANGES) 0 (outFuncOid t)
              (sketches t) x) as [sk' r] eqn:Hloop.
  split; [exact Hret|].
  intros t' e [= <- ->]. cbn [sketches].
  apply dyadic_loop_raises in Hloop
    as (He & Hlen' & r & Hr & Hout & Hdone & s & s' & Hs & Hpass & Hs');
    [|lia].
  split; [assumption|]. split; [lia|].
  exists r. split; [lia|]. split; [|split].
  - intros j Hj. apply Hout. lia.
  - intros j Hj. destruct (Hdone j ltac:(lia)) as (s1 & s1' & v & H1 & H2 & H3).
    exists s1, s1', v. split; [assumption|]. split; [|assumption].
    rewrite Nat.sub_0_r, Z.shiftr_div_pow2 in H2 by lia. assumption.
  - exists s, s'. split; [assumption|]. split; [|assumption].
    rewrite Nat.sub_0_r, Z.shiftr_div_pow2 in Hpass by lia. assumption.
Qed.

(** ** The range count returns *)

Lemma find_ranges_tiles lg bot top :
  log2_faithful lg -> MINVAL <= bot -> bot <= top -> top < MAXVAL ->
  top - bot + 1 < 2 ^ 53 ->
  exists l, find_ranges lg bot top [] = (l, Returned)
            /\ dyadic_tiling l bot top.
Proof.
  intros Hlg Hmin Hle Hmax H53. rewrite find_ranges_faithful by assumption.
  unfold find_ranges, find_ranges_internal.
  change (Z.to_nat (RANGES - 1 + 1)) with (S 63).
  assert (in_int64 bot /\ in_int64 top) as [Hb Ht]
    by (unfold in_int64, MINVAL, MAXVAL in *; lia).
  destruct (first_call_exact 63 bot top Hb Ht Hmax Hle H53 ltac:(lia))
    as (l & Hrun & Htil).
  exists l. split; [|assumption].
  exact (f_equal (fun e : emitted => let (l, st) := e in ([] ++ l, st)) Hrun).
Qed.

Lemma find_ranges_levels_empty_any lg n bot top :
  top < bot -> find_ranges_levels lg n bot top = ([], Returned).
Proof.
  intros Hlt. destruct n; [reflexivity|].
  rewrite find_ranges_levels_S. destruct (Z.ltb_spec top bot); [reflexivity|lia].
Qed.

Lemma find_ranges_empty lg bot top r :
  top < bot -> find_ranges lg bot top r = (r, Returned).
Proof.
  intros Hlt. unfold find_ranges, find_ranges_internal.
  rewrite find_ranges_levels_empty_any by assumption.
  rewrite app_nil_r. reflexivity.
Qed.

(** The summation loop returns on spans of [2^k] values, [k <= 62],
    when the sketch has its 64 levels. *)
Lemma sum_spans_returns lg D N md5_lane (t : cmtransval) :
  (forall k, 0 <= k -> lg (2 ^ k) = k) ->
  length (sketches t) = Z.to_nat RANGES ->
  forall l cursum,
    Forall (fun s : span => exists k, 0 <= k <= 62 /\ s.2 = s.1 + 2 ^ k - 1) l ->
    exists m, sum_spans lg D N md5_lane t l cursum = Val m.
Proof.
  intros Hlg Hlen. induction l as [|s l IH]; intros cursum Hl.
  - exists cursum. reflexivity.
  - apply Forall_cons_1 in Hl as [(k & Hk & Hhi) Hl].
    destruct s as [lo hi]. cbn [fst snd] in Hhi. subst hi.
    rewrite sum_spans_block by (try apply Hlg; lia).
    destruct (lookup_lt_is_Some_2 (sketches t) (Z.to_nat k)) as [sk Hsk].
    { rewrite Hlen. change (Z.to_nat RANGES) with 64%nat. lia. }
    rewrite Hsk. unfold cmsketch_getcount_c, hash_counters_iterate.
    destruct (iterate_rows_min_attained N
                (md5_lane (outFuncOid t) (wrap64 (to_uint64 lo / 2 ^ k)))
                D 0%nat sk LONG_MAX) as (m & Hm & _).
    rewrite Hm. cbn [snd mbind result_bind]. apply IH. assumption.
Qed.

Lemma tiling_span_widths l bot top :
  bot <= top -> top - bot + 1 < 2 ^ 53 -> dyadic_tiling l bot top ->
  Forall (fun s : span => exists k, 0 <= k <= 62 /\ s.2 = s.1 + 2 ^ k - 1) l.
Proof.
  intros Hle H53 Htil. pose proof Htil as [_ Hpow].
  apply Forall_lookup. intros i s Hi.
  destruct (Forall_lookup_1 _ _ _ _ Hpow Hi) as (k & Hk & Hw).
  assert (s ∈ l) as Hs by (apply list_elem_of_lookup; exists i; exact Hi).
  assert (0 < 2 ^ k) by (apply Z.pow_pos_nonneg; lia).
  assert (bot <= s.1 <= top) as Hin1.
  { apply (dyadic_tiling_union l bot top); [assumption|].
    exists s. split; [assumption|lia]. }
  assert (bot <= s.2 <= top) as Hin2.
  { apply (dyadic_tiling_union l bot top); [assumption|].
    exists s. split; [assumption|lia]. }
  exists k. split; [|lia]. split; [assumption|].
  destruct (Z.le_gt_cases k 62) as [|Hbig]; [assumption|]. exfalso.
  assert (2 ^ 53 <= 2 ^ k) by (apply Z.pow_le_mono_r; lia). lia.
Qed.

Lemma rangecount_total lg D N md5_lane (t : cmtransval) bot top :
  log2_faithful lg -> (forall k, 0 <= k -> lg (2 ^ k) = k) ->
  length (sketches t) = Z.to_nat RANGES ->
  MINVAL <= bot -> top < MAXVAL -> top - bot + 1 < 2 ^ 53 ->
  exists m, cmsketch_rangecount_c lg D N md5_lane t bot top = Val m.
Proof.
  intros Hlg Hpow Hlen Hmin Hmax H53. unfold cmsketch_rangecount_c.
  destruct (Z.lt_ge_cases top bot) as [Hlt|Hle].
  - rewrite find_ranges_empty by assumption. exists 0. reflexivity.
  - destruct (find_ranges_tiles lg bot top Hlg Hmin ltac:(lia) Hmax H53)
      as (l & -> & Htil).
    apply sum_spans_returns; try assumption.
    apply (tiling_span_widths l bot top); [lia|assumption|assumption].
Qed.

(** The same with a [log2] that is only faithful: the level read may be
    one too high, but it is one of the 64. *)
Lemma sum_spans_returns_faithful lg D N md5_lane (t : cmtransval) :
  log2_faithful lg ->
  length (sketches t) = Z.to_nat RANGES ->
  forall l cursum,
    Forall (fun s : span => exists k, 0 <= k <= 62 /\ s.2 = s.1 + 2 ^ k - 1) l ->
    exists m, sum_spans lg D N md5_lane t l cursum = Val m.
Proof.
  intros Hlg Hlen. induction l as [|s l IH]; intros cursum Hl.
  - exists cursum. reflexivity.
  - apply Forall_cons_1 in Hl as [(k & Hk & Hhi) Hl].
    destruct s as [lo hi]. cbn [fst snd] in Hhi. subst hi.
    cbn [sum_spans].
    replace (lo + 2 ^ k - 1 - lo + 1) with (2 ^ k) by lia.
    rewrite span_width_double by assumption.
    assert (0 < 2 ^ k) as Hp by (apply Z.pow_pos_nonneg; lia).
    destruct (Z.leb_spec (2 ^ k) 0); [lia|].
    pose proof (Hlg (2 ^ k) ltac:(lia)) as [Hlo Hhi].
    rewrite Z.log2_pow2 in Hlo, Hhi by lia.
    destruct (Z.ltb_spec (lg (2 ^ k)) 0); [lia|].
    destruct (lookup_lt_is_Some_2 (sketches t) (Z.to_nat (lg (2 ^ k))))
      as [sk Hsk].
    { rewrite Hlen. change (Z.to_nat RANGES) with 64%nat. lia. }
    rewrite Hsk. unfold cmsketch_getcount_c, hash_counters_iterate.
    destruct (iterate_rows_min_attained N
                (md5_lane (outFuncOid t)
                   (wrap64 (Z.shiftr (to_uint64 lo) (lg (2 ^ k)))))
                D 0%nat sk LONG_MAX) as (m & Hm & _).
    rewrite Hm. cbn [snd mbind result_bind]. apply IH. assumption.
Qed.

Lemma rangecount_returns_faithful lg D N md5_lane (t : cmtransval) bot top :
  log2_faithful lg ->
  length (sketches t) = Z.to_nat RANGES ->
  MINVAL <= bot -> top < MAXVAL -> top - bot + 1 < 2 ^ 53 ->
  exists m, cmsketch_rangecount_c lg D N md5_lane t bot top = Val m.
Proof.
  intros Hlg Hlen Hmin Hmax H53. unfold cmsketch_rangecount_c.
  destruct (Z.lt_ge_cases top bot) as [Hlt|Hle].
  - rewrite find_ranges_empty by assumption. exists 0. reflexivity.
  - destruct (find_ranges_tiles lg bot top Hlg Hmin ltac:(lia) Hmax H53)
      as (l & -> & Htil).
    apply sum_spans_returns_faithful; try assumption.
    apply (tiling_span_widths l bot top); [lia|assumption|assumption].
Qed.

(** X15: With a [log2] that is faithful and exact on powers of two, and a
    sketch of 64 levels, the range count of a range of fewer than [2^53]
    values that stays below [MAXVAL] returns; an empty range counts
    zero. *)
Theorem cmsketch_rangecount_c_returns lg D N md5_lane (t : cmtransval)
    bot top :
  log2_faithful lg -> (forall k, 0 <= k -> lg (2 ^ k) = k) ->
  length (sketches t) = Z.to_nat RANGES ->
  MINVAL <= bot -> top < MAXVAL -> top - bot + 1 < 2 ^ 53 ->
  exists m,
    cmsketch_rangecount_c lg D N md5_lane t bot top = Val m
    /\ (top < bot -> m = 0).
Proof.
  intros Hlg Hpow Hlen Hmin Hmax H53.
  destruct (Z.lt_ge_cases top bot) as [Hlt|Hle].
  - exists 0. split; [|reflexivity].
    unfold cmsketch_rangecount_c. rewrite find_ranges_empty by assumption.
    reflexivity.
  - destruct (rangecount_total lg D N md5_lane t bot top Hlg Hpow Hlen Hmin
                Hmax H53) as (m & Hm).
    exists m. split; [assumption|lia].
Qed.

(** ** The buckets of the equi-width histogram *)

Lemma step_rows min max buckets :
  min <= max -> 1 <= buckets ->
  1 <= integer_step min max buckets
  /\ (rows_due min max buckets - 1) * integer_step min max buckets <= max - min
  /\ (rows_due min max buckets < buckets -> integer_step min max buckets = 1).
Proof.
  intros Hle Hb. unfold rows_due, integer_step.
  pose proof (Z.div_pos (max - min + 1) buckets ltac:(lia) ltac:(lia)) as Hq.
  pose proof (Z.mul_div_le (max - min + 1) buckets ltac:(lia)) as Hmul.
  destruct (Z.le_gt_cases buckets (max - min + 1)) as [Hfew|Hmany].
  - rewrite Z.min_l by lia.
    assert (1 <= (max - min + 1) / buckets)
      by (apply Z.div_le_lower_bound; lia).
    rewrite Z.max_l by lia. split; [lia|]. split; [nia|lia].
  - rewrite Z.min_r by lia.
    rewrite Z.div_small by lia. rewrite Z.max_r by lia.
    split; [lia|]. split; [lia|reflexivity].
Qed.

(** Past the last row the loop stops: no iteration is left, or the low
    bound exceeds [max]. *)
Lemma histogram_loop_end lg D N md5_lane (t : cmtransval) min max buckets
    todo :
  min <= max -> max < MAXVAL -> MINVAL <= min -> 1 <= buckets ->
  Z.of_nat todo = buckets - rows_due min max buckets ->
  histogram_loop lg D N md5_lane t min max buckets
    (integer_step min max buckets) todo (rows_due min max buckets) = Val [].
Proof.
  intros Hle Hmax Hmin Hb Htodo. destruct todo as [|todo]; [reflexivity|].
  destruct (step_rows min max buckets Hle Hb) as (_ & _ & Hone).
  rewrite Hone by lia. cbn [histogram_loop].
  assert (rows_due min max buckets = max - min + 1) as ->
    by (unfold rows_due in *; lia).
  unfold MAXVAL, INT64_MAX, MINVAL, INT64_MIN in *.
  rewrite wrap64_id by (unfold in_int64, INT64_MIN, INT64_MAX; lia).
  destruct (Z.ltb_spec max (min + (max - min + 1) * 1)); [reflexivity|lia].
Qed.

(** The rows of the loop, given that the range count returns on every
    range of fewer than [2^53] values below [MAXVAL]. *)
Lemma histogram_loop_rows_with lg D N md5_lane (t : cmtransval)
    min max buckets :
  (forall bot top,
     MINVAL <= bot -> top < MAXVAL -> top - bot + 1 < 2 ^ 53 ->
     exists m, cmsketch_rangecount_c lg D N md5_lane t bot top = Val m) ->
  MINVAL <= min -> min <= max -> max < MAXVAL -> max - min + 1 < 2 ^ 53 ->
  1 <= buckets ->
  forall todo i,
    Z.of_nat todo = buckets - i -> 0 <= i < rows_due min max buckets ->
    exists rows,
      histogram_loop lg D N md5_lane t min max buckets
        (integer_step min max buckets) todo i = Val rows
      /\ Z.of_nat (length rows) = rows_due min max buckets - i
      /\ consecutive (min + i * integer_step min max buckets) rows max
      /\ Forall (fun row : Z * Z * Z =>
                   cmsketch_rangecount_c lg D N md5_lane t row.1.1 row.1.2
                   = Val row.2) rows.
Proof.
  intros counts min_ok min_max max_ok narrow buckets_ok.
  destruct (step_rows min max buckets min_max buckets_ok)
    as (Hstep & Hfit & Hone).
  pose proof (histogram_loop_end lg D N md5_lane t min max buckets) as Hend.
  assert (rows_due min max buckets <= buckets) as Hdue
    by (unfold rows_due; lia).
  assert (rows_due min max buckets < buckets ->
          rows_due min max buckets = max - min + 1) as Hshort
    by (unfold rows_due; lia).
  set (due := rows_due min max buckets) in *.
  set (step := integer_step min max buckets) in *.
  induction todo as [|todo IH]; intros i Htodo Hi; [lia|].
  cbn [histogram_loop].
  assert (min <= min + i * step <= max) as Hlo by nia.
  unfold MAXVAL, INT64_MAX, MINVAL, INT64_MIN in max_ok, min_ok.
  rewrite (wrap64_id (min + i * step))
    by (unfold in_int64, INT64_MIN, INT64_MAX; lia).
  destruct (Z.ltb_spec max (min + i * step)); [lia|].
  set (binhi := if i =? buckets - 1 then max
                else wrap64 (min + (i + 1) * step - 1)).
  assert (min + i * step <= binhi <= max
          /\ (i = due - 1 -> binhi = max)
          /\ (i < due - 1 -> binhi = min + (i + 1) * step - 1)) as Hhi.
  { unfold binhi. destruct (Z.eqb_spec i (buckets - 1)) as [Hlast|Hmore].
    - split; [lia|]. split; [reflexivity|]. lia.
    - destruct (Z.eq_dec i (due - 1)) as [Heq|Hne].
      + assert (step = 1) as Hs by (apply Hone; lia).
        assert (due = max - min + 1) as Hr by (apply Hshort; lia).
        rewrite Hs in *.
        rewrite wrap64_id by (unfold in_int64, INT64_MIN, INT64_MAX; lia).
        split; [lia|]. split; [lia|]. lia.
      + assert (min + (i + 1) * step <= max) by nia.
        rewrite wrap64_id by (unfold in_int64, INT64_MIN, INT64_MAX; lia).
        split; [nia|]. split; [lia|]. reflexivity. }
  destruct Hhi as (Hbin & Hlast & Hmore).
  destruct (counts (min + i * step) binhi) as (c & Hc);
    [unfold MINVAL, INT64_MIN; lia|unfold MAXVAL, INT64_MAX; lia|lia|].
  rewrite Hc. cbn [mbind result_bind].
  destruct (Z.eq_dec i (due - 1)) as [Heq|Hne].
  - assert (i + 1 = due) as -> by lia.
    rewrite Hend;
      [|assumption|unfold MAXVAL, INT64_MAX; lia|unfold MINVAL, INT64_MIN; lia
       |assumption|lia].
    eexists. split; [reflexivity|].
    cbn [length consecutive]. split; [lia|]. split.
    + split; [reflexivity|]. split; [lia|]. rewrite Hlast by lia. reflexivity.
    + constructor; [exact Hc|constructor].
  - destruct (IH (i + 1) ltac:(lia) ltac:(lia))
      as (rest & -> & Hn & Hcons & Hall).
    eexists. split; [reflexivity|]. cbn [length consecutive].
    split; [lia|]. split.
    + split; [reflexivity|]. split; [lia|].
      rewrite Hmore by lia.
      replace (min + (i + 1) * step - 1 + 1) with (min + (i + 1) * step) by lia.
      exact Hcons.
    + constructor; [exact Hc|exact Hall].
Qed.

Lemma histogram_loop_rows lg D N md5_lane (t : cmtransval) min max buckets :
  log2_faithful lg -> (forall k, 0 <= k -> lg (2 ^ k) = k) ->
  length (sketches t) = Z.to_nat RANGES ->
  MINVAL <= min -> min <= max -> max < MAXVAL -> max - min + 1 < 2 ^ 53 ->
  1 <= buckets ->
  forall todo i,
    Z.of_nat todo = buckets - i -> 0 <= i < rows_due min max buckets ->
    exists rows,
      histogram_loop lg D N md5_lane t min max buckets
        (integer_step min max buckets) todo i = Val rows
      /\ Z.of_nat (length rows) = rows_due min max buckets - i
      /\ consecutive (min + i * integer_step min max buckets) rows max
      /\ Forall (fun row : Z * Z * Z =>
                   cmsketch_rangecount_c lg D N md5_lane t row.1.1 row.1.2
                   = Val row.2) rows.
Proof.
  intros lg_faithful lg_pow2 levels min_ok min_max max_ok narrow buckets_ok.
  apply histogram_loop_rows_with; try assumption.
  intros bot top Hbot Htop Hwidth.
  apply rangecount_total; assumption.
Qed.

(** X16: In the exact regime (a range of fewer than [2^53] values below
    [MAXVAL], a [log2] faithful and exact on powers of two, at least one
    bucket), the equi-width histogram returns [min (buckets, max-min+1)]
    rows that run from [min] to [max] without gap or overlap, none empty,
    each with the range count of its bounds. *)
Theorem width_histogram_tiles lg D N md5_lane (t : cmtransval)
    min max buckets :
  log2_faithful lg -> (forall k, 0 <= k -> lg (2 ^ k) = k) ->
  length (sketches t) = Z.to_nat RANGES ->
  MINVAL <= min -> min <= max -> max < MAXVAL -> max - min + 1 < 2 ^ 53 ->
  1 <= buckets ->
  exists rows,
    cmsketch_width_histogram_c lg D N md5_lane t min max buckets = Val rows
    /\ Z.of_nat (length rows) = Z.min buckets (max - min + 1)
    /\ consecutive min rows max
    /\ Forall (fun row : Z * Z * Z =>
                 cmsketch_rangecount_c lg D N md5_lane t row.1.1 row.1.2
                 = Val row.2) rows.
Proof.
  intros Hlg Hpow Hlen Hmin Hle Hmax H53 Hb.
  unfold cmsketch_width_histogram_c.
  rewrite histogram_step_exact;
    [|unfold in_int64, MINVAL, MAXVAL, INT64_MIN, INT64_MAX in *; lia
     |unfold in_int64, MINVAL, MAXVAL, INT64_MIN, INT64_MAX in *; lia
     |assumption|assumption|assumption].
  destruct (histogram_loop_rows lg D N md5_lane t min max buckets Hlg Hpow
              Hlen Hmin Hle Hmax H53 Hb (Z.to_nat buckets) 0
              ltac:(lia) ltac:(unfold rows_due; lia))
    as (rows & Hrows & Hn & Hcons & Hall).
  unfold rows_due, integer_step in *.
  exists rows. split; [exact Hrows|]. split; [lia|]. split; [|exact Hall].
  replace (min + 0 * Z.max ((max - min + 1) / buckets) 1) with min in Hcons
    by lia.
  exact Hcons.
Qed.

(** C9, as the code has it: for [MINVAL <= min <= max < MAXVAL], a width
    [max - min + 1] below [2^53] (so that the division on doubles is
    exact) and a faithful [log2], the step is the one of the
    specification, the call returns, and the rows it returns are the
    buckets of the specification. *)
Theorem width_histogram_exact lg D N md5_lane (t : cmtransval)
    min max buckets :
  log2_faithful lg -> length (sketches t) = Z.to_nat RANGES ->
  MINVAL <= min -> min <= max -> max < MAXVAL -> 1 <= buckets ->
  max - min + 1 < 2 ^ 53 ->
  histogram_step min max buckets = Z.max ((max - min + 1) / buckets) 1
  /\ exists rows,
       cmsketch_width_histogram_c lg D N md5_lane t min max buckets = Val rows
       /\ equi_width_histogram (cmsketch_rangecount_c lg D N md5_lane t)
            min max buckets = Val rows.
Proof.
  intros Hlg Hlen Hmin Hle Hmax Hb Hw.
  assert (in_int64 min /\ in_int64 max) as [Hin Hin']
    by (unfold in_int64, MINVAL, MAXVAL, INT64_MIN, INT64_MAX in *; lia).
  pose proof (histogram_step_exact min max buckets Hin Hin' Hle Hb Hw) as Hs.
  split; [assumption|].
  destruct (histogram_loop_rows_with lg D N md5_lane t min max buckets
              (fun bot top => rangecount_returns_faithful lg D N md5_lane t
                                bot top Hlg Hlen)
              Hmin Hle Hmax Hw Hb (Z.to_nat buckets) 0
              ltac:(lia) ltac:(unfold rows_due; lia))
    as (rows & Hrows & _).
  unfold integer_step in Hrows.
  exists rows. unfold cmsketch_width_histogram_c, equi_width_histogram.
  rewrite Hs. split; [exact Hrows|].
  rewrite <- Hrows. symmetry.
  apply histogram_loop_exact; try assumption; try lia.
  - pose proof (Z.mul_div_le (max - min + 1) buckets ltac:(lia)).
    destruct (Z.le_gt_cases buckets (max - min + 1)) as [Hfew|Hmany].
    + right.
      assert (1 <= (max - min + 1) / buckets)
        by (apply Z.div_le_lower_bound; lia).
      rewrite Z.max_l by lia. lia.
    + left. rewrite Z.div_small by lia. unfold MAXVAL in Hmax.
      split; [reflexivity|lia].
  - intros _. unfold in_int64 in Hin'. lia.
Qed.

(** ** Centiles and the equi-depth histogram over the whole domain *)

Lemma rangecount_whole_domain lg D N md5_lane (t : cmtransval) top :
  0 <= top -> cmsketch_rangecount_c lg D N md5_lane t MINVAL top = NoResult.
Proof.
  intros Htop. unfold cmsketch_rangecount_c, find_ranges, find_ranges_internal.
  change (Z.to_nat (RANGES - 1 + 1)) with (S (S 62)).
  unfold MINVAL. rewrite find_ranges_levels_from_minimum by assumption.
  reflexivity.
Qed.

(** X17: With [MINVAL] and [MAXVAL] the extremes of [int64], the difference
    [higuess - loguess] wraps to [-1] and the binary search never starts:
    [cmsketch_centile_c] raises for a centile outside 1..99 and otherwise
    returns its initial guess 0, whatever the sketch and the total. *)
Theorem cmsketch_centile_c_initial_guess lg D N md5_lane (t : cmtransval)
    p total :
  cmsketch_centile_c lg D N md5_lane t p total =
  if bool_decide (0 < p < 100) then Val 0 else Elog CentileOutOfRange.
Proof.
  unfold cmsketch_centile_c.
  destruct (Z.leb_spec p 0); destruct (Z.leb_spec 100 p); cbn [orb];
    try (rewrite bool_decide_eq_false_2 by lia; reflexivity).
  rewrite bool_decide_eq_true_2 by lia. reflexivity.
Qed.

(** X18: [cmsketch_centile] returns NULL for a NULL centile.  For any other
    centile it first counts the whole domain [[MINVAL, MAXVAL]], a call
    that does not return: it yields no centile, valid or not, and never
    reaches the range check of the centile. *)
Theorem cmsketch_centile_no_result lg D N md5_lane oid b :
  cmsketch_centile lg D N md5_lane oid b None = Val None
  /\ forall centile,
       cmsketch_centile lg D N md5_lane oid b (Some centile) = NoResult.
Proof.
  unfold cmsketch_centile.
  destruct (cmsketch_check_transval D N oid b) as [|t] eqn:Hcheck.
  { destruct b; discriminate. }
  split; [reflexivity|]. intros centile.
  rewrite rangecount_whole_domain by (unfold MAXVAL, INT64_MAX; lia).
  reflexivity.
Qed.

(** X19: The equi-depth histogram never returns for a non-NULL number of
    buckets: its first step is the count of the whole domain. *)
Theorem cmsketch_depth_histogram_no_result lg D N md5_lane oid b :
  cmsketch_depth_histogram lg D N md5_lane oid b None = Val None
  /\ forall buckets,
       cmsketch_depth_histogram lg D N md5_lane oid b (Some buckets)
       = NoResult.
Proof.
  unfold cmsketch_depth_histogram.
  destruct (cmsketch_check_transval D N oid b) as [|t] eqn:Hcheck.
  { destruct b; discriminate. }
  split; [reflexivity|]. intros buckets. unfold cmsketch_depth_histogram_c.
  rewrite rangecount_whole_domain by (unfold MAXVAL, INT64_MAX; lia).
  reflexivity.
Qed.

Lemma depth_step_many buckets : 100 < buckets -> depth_step buckets = 1.
Proof.
  intros Hb. unfold depth_step, double_div_trunc, trunc_fdiv.
  change (100 <? 0) with false. cbv iota.
  destruct (Z.ltb_spec 100 buckets); [reflexivity|lia].
Qed.

Lemma cmsketch_centile_c_refuses lg D N md5_lane (t : cmtransval) p total :
  100 <= p ->
  cmsketch_centile_c lg D N md5_lane t p total = Elog CentileOutOfRange.
Proof.
  intros Hp. unfold cmsketch_centile_c.
  destruct (Z.leb_spec p 0); destruct (Z.leb_spec 100 p); try lia.
  reflexivity.
Qed.

Lemma bind_not_val {A B : Type} (m : result A) (k : A -> result B) r :
  (forall a, m = Val a -> k a <> Val r) -> m ≫= k <> Val r.
Proof.
  destruct m as [a|e|]; intros Hk; [apply Hk; reflexivity| |]; discriminate.
Qed.

Lemma depth_loop_many lg D N md5_lane (t : cmtransval) buckets total :
  100 < buckets ->
  forall todo i binlo rows,
    0 <= i <= 99 -> Z.of_nat todo = buckets - i ->
    depth_loop lg D N md5_lane t buckets 1 total todo i binlo <> Val rows.
Proof.
  intros Hb. induction todo as [|todo IH]; intros i binlo rows Hi Htodo; [lia|].
  cbn [depth_loop].
  destruct (Z.eqb_spec i (buckets - 1)); [lia|].
  replace ((i + 1) * 1) with (i + 1) by lia.
  assert (wrap32 (wrap64 (i + 1)) = i + 1) as ->.
  { rewrite wrap64_id by (unfold in_int64, INT64_MIN, INT64_MAX; lia).
    unfold wrap32. rewrite Z.mod_small; lia. }
  destruct (Z.eq_dec i 99) as [Heq|Hlt].
  - rewrite cmsketch_centile_c_refuses by lia. discriminate.
  - apply bind_not_val. intros binhi _.
    apply bind_not_val. intros binval _.
    apply bind_not_val. intros rest Hrest _.
    apply (IH (i + 1) (wrap64 (binhi + 1)) rest); [lia|lia|exact Hrest].
Qed.

(** X20: More than 100 buckets cannot be had: the step is then one centile,
    bucket 99 is not the last one and asks for centile 100, which
    [cmsketch_centile_c] refuses.  Whatever the total and the counts, the
    loop of the equi-depth histogram yields no histogram. *)
Theorem depth_histogram_over_100_buckets lg D N md5_lane (t : cmtransval)
    buckets total binlo rows :
  100 < buckets ->
  depth_loop lg D N md5_lane t buckets (depth_step buckets) total
    (Z.to_nat buckets) 0 binlo <> Val rows.
Proof.
  intros Hb. rewrite depth_step_many by assumption.
  apply depth_loop_many; [assumption|lia|lia].
Qed.

(** ** The counts of the equi-width histogram *)

Lemma consecutive_le lo rows last : consecutive lo rows last -> lo <= last + 1.
Proof.
  revert lo. induction rows as [|[[l h] c] rest IH]; intros lo; simpl.
  - lia.
  - intros (-> & Hlh & Hrest). apply IH in Hrest. lia.
Qed.

Lemma values_within_split lo mid hi vs :
  lo <= mid + 1 -> mid <= hi ->
  values_within lo hi vs
  = values_within lo mid vs + values_within (mid + 1) hi vs.
Proof.
  intros Hlo Hhi. induction vs as [|v vs IH]; [reflexivity|].
  cbn [values_within]. rewrite IH. unfold in_span. cbn [fst snd].
  destruct (Z.leb_spec lo v); destruct (Z.leb_spec v hi);
    destruct (Z.leb_spec v mid); destruct (Z.leb_spec (mid + 1) v);
    cbn [andb]; lia.
Qed.

Lemma values_within_empty lo hi vs : hi < lo -> values_within lo hi vs = 0.
Proof.
  intros Hlt. induction vs as [|v vs IH]; [reflexivity|].
  cbn [values_within]. rewrite IH. unfold in_span. cbn [fst snd].
  destruct (Z.leb_spec lo v); destruct (Z.leb_spec v hi); cbn [andb]; lia.
Qed.

(** Consecutive rows that carry the range counts of their bounds: no
    count is below the number of values in its row, and the counts add up
    to at least the number of values between the first low bound and
    the last high bound. *)
Lemma histogram_rows_lower lg D N md5_lane (t : cmtransval) vs last :
  log2_faithful lg -> (forall k, 0 <= k -> lg (2 ^ k) = k) ->
  (0 < D)%nat -> (0 < N)%nat ->
  exact_levels D N md5_lane (outFuncOid t) (sketches t) vs ->
  Z.of_nat (length vs) < 2 ^ 56 -> last < MAXVAL ->
  forall rows lo,
    0 <= lo -> last - lo + 1 < 2 ^ 53 ->
    consecutive lo rows last ->
    Forall (fun row : Z * Z * Z =>
              cmsketch_rangecount_c lg D N md5_lane t row.1.1 row.1.2
              = Val row.2) rows ->
    Forall (fun row : Z * Z * Z =>
              values_within row.1.1 row.1.2 vs <= row.2) rows
    /\ values_within lo last vs <= rows_total rows.
Proof.
  intros Hlg Hpow HD HN Hexact Hlen Hlast.
  induction rows as [|[[l h] c] rest IH]; intros lo Hlo H53 Hcons Hall.
  - simpl in Hcons. split; [constructor|].
    rewrite values_within_empty by lia. simpl. lia.
  - simpl in Hcons. destruct Hcons as (-> & Hlh & Hrest).
    apply Forall_cons_1 in Hall as [Hc Hall]. cbn [fst snd] in Hc.
    pose proof (consecutive_le _ _ _ Hrest) as Hh.
    destruct (rangecount_lower lg D N md5_lane t vs lo h Hlg Hpow HD HN
                Hexact Hlen Hlo Hlh ltac:(lia) ltac:(lia))
      as (m & Hm & Hge).
    rewrite Hc in Hm. injection Hm as <-.
    destruct (IH (h + 1) ltac:(lia) ltac:(lia) Hrest Hall) as [Hrows Htotal].
    split.
    + constructor; [exact Hge|exact Hrows].
    + rewrite (values_within_split lo h last) by lia.
      cbn [rows_total snd]. lia.
Qed.

(** X21: The equi-width histogram over what an aggregate built never
    underestimates: in the exact regime and for [0 <= min], every row's
    count is at least the number of column values between its bounds, and
    the counts add up to at least the number of column values in
    [[min, max]]. *)
Theorem width_histogram_never_underestimates lg D N md5_lane oid vs b
    (t : cmtransval) min max buckets :
  log2_faithful lg -> (forall k, 0 <= k -> lg (2 ^ k) = k) ->
  (0 < D)%nat -> (0 < N)%nat ->
  insert_all D N md5_lane oid vs ShortBlob = Val b ->
  cmsketch_check_transval D N oid b = FullBlob t ->
  Z.of_nat (length vs) < 2 ^ 56 ->
  0 <= min -> min <= max -> max < MAXVAL -> max - min + 1 < 2 ^ 53 ->
  1 <= buckets ->
  exists rows,
    cmsketch_width_histogram_c lg D N md5_lane t min max buckets = Val rows
    /\ Forall (fun row : Z * Z * Z =>
                 values_within row.1.1 row.1.2 vs <= row.2) rows
    /\ values_within min max vs <= rows_total rows.
Proof.
  intros Hlg Hpow HD HN Hrun Hcheck Hlen Hmin Hle Hmax H53 Hb.
  apply (insert_all_exact_from D N md5_lane oid vs HN ShortBlob []) in Hrun;
    [|apply exact_blob_short].
  simpl app in Hrun. unfold exact_blob in Hrun. rewrite Hcheck in Hrun.
  destruct Hrun as (_ & Hfn & Hexact). rewrite <- Hfn in Hexact.
  pose proof Hexact as [Hlevels _].
  assert (MINVAL <= min) as Hmin' by (unfold MINVAL, INT64_MIN; lia).
  unfold cmsketch_width_histogram_c.
  rewrite histogram_step_exact;
    [|unfold in_int64, MINVAL, MAXVAL, INT64_MIN, INT64_MAX in *; lia
     |unfold in_int64, MINVAL, MAXVAL, INT64_MIN, INT64_MAX in *; lia
     |assumption|assumption|assumption].
  destruct (histogram_loop_rows lg D N md5_lane t min max buckets Hlg Hpow
              Hlevels Hmin' Hle Hmax H53 Hb (Z.to_nat buckets) 0
              ltac:(lia) ltac:(unfold rows_due; lia))
    as (rows & Hrows & _ & Hcons & Hall).
  unfold integer_step in Hrows, Hcons.
  exists rows. split; [exact Hrows|].
  replace (min + 0 * Z.max ((max - min + 1) / buckets) 1) with min in Hcons
    by lia.
  apply (histogram_rows_lower lg D N md5_lane t vs max Hlg Hpow HD HN Hexact
           Hlen Hmax rows min); assumption.
Qed.

(** ** The guard of [cmsketch_dump] *)

Lemma string_length_append (s1 s2 : string) :
  String.length (String.append s1 s2)
  = (String.length s1 + String.length s2)%nat.
Proof. induction s1 as [|a s1 IH]; simpl; [reflexivity|]. rewrite IH. lia. Qed.

Lemma decimal_nonempty n : (1 <= String.length (decimal n))%nat.
Proof.
  unfold decimal, NilZero.string_of_int.
  destruct (Z.to_int n) as [d|d]; [|simpl; lia].
  unfold NilZero.string_of_uint. destruct d; simpl; lia.
Qed.

Lemma dump_entry_length i j k v : 13 <= Z.of_nat (String.length (dump_entry i j k v)).
Proof.
  unfold dump_entry. rewrite !string_length_append.
  pose proof (decimal_nonempty (Z.of_nat i)).
  pose proof (decimal_nonempty (Z.of_nat j)).
  pose proof (decimal_nonempty (Z.of_nat k)).
  pose proof (decimal_nonempty v).
  simpl String.length. lia.
Qed.

Lemma dump_entry_text : dump_entry 1 2 3 (-45) = "[(1,2,3):-45], "%string.
Proof. reflexivity. Qed.

Lemma dump_sprintf_grows c text c' :
  dump_sprintf c text = Some c' ->
  c' = c + Z.of_nat (String.length text) /\ c' < DUMP_BYTES.
Proof.
  unfold dump_sprintf.
  destruct (Z.ltb_spec (c + Z.of_nat (String.length text)) DUMP_BYTES);
    [|discriminate].
  intros [= <-]. split; [reflexivity|assumption].
Qed.

(** The offset never moves back and stays inside the buffer. *)
Lemma dump_columns_bounds sketch i j todo :
  forall k c c',
    c < DUMP_BYTES ->
    dump_columns sketch i j todo k c = Some c' -> c <= c' < DUMP_BYTES.
Proof.
  induction todo as [|todo IH]; intros k c c' Hc Hrun.
  - simpl in Hrun. injection Hrun as <-. lia.
  - cbn [dump_columns] in Hrun.
    destruct (counter_at sketch j k =? 0).
    + destruct (10000 <? c); [injection Hrun as <-; lia|].
      apply IH in Hrun; lia.
    + destruct (dump_sprintf c (dump_entry i j k (counter_at sketch j k)))
        as [c1|] eqn:Hw; [|discriminate].
      apply dump_sprintf_grows in Hw as [-> Hlt].
      pose proof (dump_entry_length i j k (counter_at sketch j k)).
      set (len := Z.of_nat (String.length _)) in *.
      destruct (10000 <? c + len); [injection Hrun as <-; lia|].
      apply IH in Hrun; lia.
Qed.

(** A row of non-zero counters entered below the guard: the offset
    passes the guard or every counter is written. *)
Lemma dump_columns_dense sketch i j todo :
  forall k c c',
    (forall k', (k <= k' < k + todo)%nat -> counter_at sketch j k' <> 0) ->
    dump_columns sketch i j todo k c = Some c' ->
    10000 < c' \/ c + 13 * Z.of_nat todo <= c'.
Proof.
  induction todo as [|todo IH]; intros k c c' Hnz Hrun.
  - simpl in Hrun. injection Hrun as <-. right. lia.
  - cbn [dump_columns] in Hrun.
    destruct (Z.eqb_spec (counter_at sketch j k) 0) as [Hzero|_].
    { exfalso. apply (Hnz k); [lia|assumption]. }
    destruct (dump_sprintf c (dump_entry i j k (counter_at sketch j k)))
      as [c1|] eqn:Hw; [|discriminate].
    apply dump_sprintf_grows in Hw as [-> _].
    pose proof (dump_entry_length i j k (counter_at sketch j k)).
    set (len := Z.of_nat (String.length _)) in *.
    destruct (Z.ltb_spec 10000 (c + len));
      [injection Hrun as <-; left; assumption|].
    apply IH in Hrun as [Hover|Hall]; [left; assumption| |].
    + right. lia.
    + intros k' Hk'. apply Hnz. lia.
Qed.

(** Past the guard the loop over the columns of a row still handles
    column 0, and only column 0. *)
Lemma dump_columns_past sketch i j todo c :
  10000 < c ->
  dump_columns sketch i j (S todo) 0 c =
  if counter_at sketch j 0 =? 0 then Some c
  else dump_sprintf c (dump_entry i j 0 (counter_at sketch j 0)).
Proof.
  intros Hc. cbn [dump_columns].
  destruct (counter_at sketch j 0 =? 0).
  - destruct (Z.ltb_spec 10000 c); [reflexivity|lia].
  - destruct (dump_sprintf c (dump_entry i j 0 (counter_at sketch j 0)))
      as [c1|] eqn:Hw; [|reflexivity].
    apply dump_sprintf_grows in Hw as [-> _].
    pose proof (dump_entry_length i j 0 (counter_at sketch j 0)).
    set (len := Z.of_nat (String.length _)) in *.
    destruct (Z.ltb_spec 10000 (c + len)); [reflexivity|lia].
Qed.

Lemma dump_rows_bounds N sketch i todo :
  forall j c c',
    c < DUMP_BYTES ->
    dump_rows N sketch i todo j c = Some c' -> c <= c' < DUMP_BYTES.
Proof.
  induction todo as [|todo IH]; intros j c c' Hc Hrun.
  - simpl in Hrun. injection Hrun as <-. lia.
  - cbn [dump_rows] in Hrun.
    destruct (dump_columns sketch i j N 0 c) as [c1|] eqn:Hrow; [|discriminate].
    apply dump_columns_bounds in Hrow; [|assumption].
    apply IH in Hrun; lia.
Qed.

(** Rows entered past the guard whose column 0 is non-zero: each one
    writes an entry. *)
Lemma dump_rows_past N sketch i todo :
  (0 < N)%nat ->
  forall j c c',
    (forall j', (j <= j' < j + todo)%nat -> counter_at sketch j' 0 <> 0) ->
    10000 < c ->
    dump_rows N sketch i todo j c = Some c' ->
    c + 13 * Z.of_nat todo <= c'.
Proof.
  intros HN. destruct N as [|n]; [lia|].
  induction todo as [|todo IH]; intros j c c' Hnz Hc Hrun.
  - simpl in Hrun. injection Hrun as <-. lia.
  - cbn [dump_rows] in Hrun. rewrite dump_columns_past in Hrun by assumption.
    destruct (Z.eqb_spec (counter_at sketch j 0) 0) as [Hzero|_].
    { exfalso. apply (Hnz j); [lia|assumption]. }
    destruct (dump_sprintf c (dump_entry i j 0 (counter_at sketch j 0)))
      as [c1|] eqn:Hw; [|discriminate].
    apply dump_sprintf_grows in Hw as [-> _].
    pose proof (dump_entry_length i j 0 (counter_at sketch j 0)).
    set (len := Z.of_nat (String.length _)) in *.
    apply IH in Hrun; [lia| |lia].
    intros j' Hj'. apply Hnz. lia.
Qed.

Lemma dump_levels_bounds D N sk todo :
  forall i c c',
    c < DUMP_BYTES ->
    dump_levels D N sk todo i c = Some c' -> c <= c' < DUMP_BYTES.
Proof.
  induction todo as [|todo IH]; intros i c c' Hc Hrun.
  - simpl in Hrun. injection Hrun as <-. lia.
  - cbn [dump_levels] in Hrun.
    destruct (dump_rows N (default [] (sk !! i)) i D 0 c) as [c1|] eqn:Hlevel;
      [|discriminate].
    apply dump_rows_bounds in Hlevel; [|assumption].
    apply IH in Hrun; lia.
Qed.

Lemma dump_levels_past D N sk todo :
  (0 < N)%nat ->
  forall i c c',
    (forall i' j, (i <= i' < i + todo)%nat -> (j < D)%nat ->
       counter_at (default [] (sk !! i')) j 0 <> 0) ->
    10000 < c ->
    dump_levels D N sk todo i c = Some c' ->
    c + 13 * Z.of_nat D * Z.of_nat todo <= c'.
Proof.
  intros HN. induction todo as [|todo IH]; intros i c c' Hnz Hc Hrun.
  - simpl in Hrun. injection Hrun as <-. lia.
  - cbn [dump_levels] in Hrun.
    destruct (dump_rows N (default [] (sk !! i)) i D 0 c) as [c1|] eqn:Hlevel;
      [|discriminate].
    apply dump_rows_past in Hlevel; [|assumption| |assumption].
    + apply IH in Hrun; [nia| |lia].
      intros i' j Hi' Hj. apply Hnz; [lia|assumption].
    + intros j Hj. apply Hnz; lia.
Qed.

Lemma dump_levels_split D N sk a b :
  forall i c,
    dump_levels D N sk (a + b) i c =
    match dump_levels D N sk a i c with
    | None => None
    | Some c' => dump_levels D N sk b (i + a) c'
    end.
Proof.
  induction a as [|a IH]; intros i c.
  - simpl. rewrite Nat.add_0_r. reflexivity.
  - cbn [Nat.add dump_levels].
    destruct (dump_rows N (default [] (sk !! i)) i D 0 c) as [c1|];
      [|reflexivity].
    rewrite IH. replace (S i + a)%nat with (i + S a)%nat by lia. reflexivity.
Qed.

Lemma counter_at_replicate D N v j k :
  (j < D)%nat -> (k < N)%nat ->
  counter_at (replicate D (replicate N v)) j k = v.
Proof.
  intros Hj Hk. unfold counter_at.
  rewrite lookup_replicate_2 by assumption. simpl.
  rewrite lookup_replicate_2 by assumption. reflexivity.
Qed.

(** X22: The guard [c > 10000] of [cmsketch_dump] leaves the innermost loop
    only, so past it every row whose column 0 is non-zero still writes an
    entry.  If the first [L] levels hold no zero counter, one row of
    counters is enough to pass the guard ([13 * NUMCOUNTERS > 10000]) and
    these levels have at least 20 rows, the writes run past the end of
    the 10240 bytes of [newblob]. *)
Theorem cmsketch_dump_overruns D N (t : cmtransval) L :
  (L <= Z.to_nat RANGES)%nat -> 10000 < 13 * Z.of_nat N ->
  20 <= Z.of_nat L * Z.of_nat D ->
  (forall i j k, (i < L)%nat -> (j < D)%nat -> (k < N)%nat ->
     counter_at (default [] (sketches t !! i)) j k <> 0) ->
  cmsketch_dump D N t = None.
Proof.
  intros HL HN Hrows Hdense. unfold cmsketch_dump.
  replace (Z.to_nat RANGES) with (L + (Z.to_nat RANGES - L))%nat by lia.
  rewrite dump_levels_split.
  destruct (dump_levels D N (sketches t) L 0 0) as [c1|] eqn:Hrun;
    [exfalso|reflexivity].
  pose proof (dump_levels_bounds D N (sketches t) L 0%nat 0 c1
                ltac:(unfold DUMP_BYTES; lia) Hrun) as [_ Hfit].
  destruct L as [|L']; [lia|]. destruct D as [|D']; [lia|].
  cbn [dump_levels dump_rows] in Hrun.
  destruct (dump_columns (default [] (sketches t !! 0%nat)) 0 0 N 0 0)
    as [c2|] eqn:Hrow; [|discriminate].
  apply dump_columns_dense in Hrow;
    [|intros k Hk; apply Hdense; lia].
  destruct (dump_rows N (default [] (sketches t !! 0%nat)) 0 D' 1 c2)
    as [c3|] eqn:Hlevel; [|discriminate].
  apply dump_rows_past in Hlevel;
    [|lia|intros j Hj; apply Hdense; lia|lia].
  apply dump_levels_past in Hrun;
    [|lia|intros i j Hi Hj; apply Hdense; lia|lia].
  unfold DUMP_BYTES in Hfit. nia.
Qed.

(** ** The theorems at concrete inputs *)

Lemma find_ranges_splits_at_zero_witness :
  find_ranges_internal Z.log2 (-1) 1 63 =
    seq_emit (find_ranges_internal Z.log2 (-1) (-1) (63 - 1))
             (find_ranges_internal Z.log2 0 1 (63 - 1))
  /\ find_ranges Z.log2 (-1) 1 [] = ([(-1, -1); (0, 1)], Returned).
Proof.
  destruct (find_ranges_splits_at_zero Z.log2 (-1) 1 63) as [Hsplit Hspans];
    [lia | lia |].
  split; [exact Hsplit | exact (Hspans log2_faithful_exact)].
Defined.

Lemma find_ranges_overshoots_top_witness :
  find_ranges Z.log2 0 (2 ^ 55 - 2) [] = ([(0, 2 ^ 55 - 1)], Returned)
  /\ ~ (2 ^ 55 - 1 <= 2 ^ 55 - 2).
Proof.
  apply (find_ranges_overshoots_top Z.log2). exact log2_faithful_exact.
Defined.

Lemma pointcount_never_underestimates_witness :
  exists c,
    cmsketch_getcount 2 4 example_lane example_oid example_blob 10 = Val c
    /\ Z.of_nat (count_occ Z.eq_dec [10; 20; 10] 10) <= c.
Proof.
  apply (pointcount_never_underestimates 2 4 example_lane example_oid
           [10; 20; 10] 10 example_blob); [lia | lia | reflexivity].
Defined.

Lemma cmsketch_combine_monoid_witness :
  cmsketch_combine 2 4 example_oid (FullBlob example_transval) ShortBlob
    = Val (FullBlob example_transval).
Proof.
  apply (cmsketch_combine_monoid 2 4 example_oid example_transval
           example_transval example_transval 0 0).
  reflexivity.
Defined.

(** C6 as stated fails: two sketches whose counters are at the ceiling
    merge without error although every sum exceeds the ceiling. *)
Lemma cmsketch_combine_ceiling_counterexample :
  ~ (forall (A B : cmtransval) i j k a b,
       counter_lookup (sketches A) i j k = Some a ->
       counter_lookup (sketches B) i j k = Some b ->
       COUNT_CEILING < a + b ->
       cmsketch_combine 1 1 example_oid (FullBlob A) (FullBlob B)
         = Elog MaximumCountExceeded).
Proof.
  intros H.
  specialize (H ceiling_transval ceiling_transval 0%nat 0%nat 0%nat
                COUNT_CEILING COUNT_CEILING eq_refl eq_refl eq_refl).
  discriminate H.
Qed.

Lemma cmsketch_combine_unchecked_witness :
  exists t,
    cmsketch_combine 1 1 example_oid (FullBlob ceiling_transval)
        (FullBlob ceiling_transval) = Val (FullBlob t)
    /\ typOid t = typOid ceiling_transval
    /\ outFuncOid t = outFuncOid ceiling_transval
    /\ sketches t = combine_sketches (sketches ceiling_transval)
                                     (sketches ceiling_transval)
    /\ counter_lookup (sketches t) 0 0 0
       = Some (wrap64 (COUNT_CEILING + COUNT_CEILING)).
Proof.
  apply (cmsketch_combine_unchecked 1 1 example_oid ceiling_transval
           ceiling_transval 0 0 0 COUNT_CEILING COUNT_CEILING);
    reflexivity.
Defined.

Lemma cmsketch_centile_monotone_witness :
  centile_with
    (cmsketch_rangecount_c Z.log2 2 64 example_lane scenario_transval
       (- 2 ^ 62))
    (- 2 ^ 62) (2 ^ 62 - 1) 64 25 6 = Val 10
  /\ centile_with
       (cmsketch_rangecount_c Z.log2 2 64 example_lane scenario_transval
          (- 2 ^ 62))
       (- 2 ^ 62) (2 ^ 62 - 1) 64 75 6 = Val 20
  /\ 10 <= 20.
Proof.
  assert (centile_with
            (cmsketch_rangecount_c Z.log2 2 64 example_lane scenario_transval
               (- 2 ^ 62))
            (- 2 ^ 62) (2 ^ 62 - 1) 64 25 6 = Val 10) as H1
    by (vm_compute; reflexivity).
  assert (centile_with
            (cmsketch_rangecount_c Z.log2 2 64 example_lane scenario_transval
               (- 2 ^ 62))
            (- 2 ^ 62) (2 ^ 62 - 1) 64 75 6 = Val 20) as H2
    by (vm_compute; reflexivity).
  split; [exact H1|]. split; [exact H2|].
  destruct (cmsketch_centile_monotone
              (cmsketch_rangecount_c Z.log2 2 64 example_lane
                 scenario_transval (- 2 ^ 62))
              (- 2 ^ 62) (2 ^ 62 - 1) 64 Z.log2 2 64 example_lane
              scenario_transval 6 25 75) as (_ & Hmono & _);
    [unfold in_int64, INT64_MIN, INT64_MAX; lia
    |unfold in_int64, INT64_MIN, INT64_MAX; lia
    |lia|lia|lia|lia|].
  exact (Hmono 10 20 H1 H2).
Defined.

(** C9 as stated fails: for a width of [2^55 - 1] the conversion to a
    double rounds up and the step is [2^54] instead of [2^54 - 1]; and for
    [min = max = MAXVAL] with two buckets the second low bound wraps
    around to [MINVAL], so the loop goes on where the specification
    stops. *)
Lemma width_histogram_counterexample :
  histogram_step 0 (2 ^ 55 - 2) 2 <> Z.max ((2 ^ 55 - 2 - 0 + 1) / 2) 1
  /\ cmsketch_width_histogram_c Z.log2 2 4 example_lane zero_transval
       0 (2 ^ 55 - 2) 2
     <> equi_width_histogram
          (cmsketch_rangecount_c Z.log2 2 4 example_lane zero_transval)
          0 (2 ^ 55 - 2) 2
  /\ cmsketch_width_histogram_c Z.log2 2 4 example_lane zero_transval
       MAXVAL MAXVAL 2
     <> equi_width_histogram
          (cmsketch_rangecount_c Z.log2 2 4 example_lane zero_transval)
          MAXVAL MAXVAL 2.
Proof.
  split; [|split]; vm_compute; discriminate.
Qed.

Lemma width_histogram_exact_witness :
  histogram_step 10 30 2 = Z.max ((30 - 10 + 1) / 2) 1
  /\ exists rows,
       cmsketch_width_histogram_c Z.log2 2 4 example_lane example_transval
         10 30 2 = Val rows
       /\ equi_width_histogram
            (cmsketch_rangecount_c Z.log2 2 4 example_lane example_transval)
            10 30 2 = Val rows.
Proof.
  apply (width_histogram_exact Z.log2 2 4 example_lane example_transval
           10 30 2);
    [exact log2_faithful_exact | reflexivity
    | unfold MINVAL, INT64_MIN; lia | lia | unfold MAXVAL, INT64_MAX; lia
    | lia | lia].
Defined.

Lemma find_ranges_span_count_witness :
  (length (find_ranges Z.log2 (-100) 48 []).1 <= 2 * Z.to_nat RANGES)%nat.
Proof.
  apply (find_ranges_span_count Z.log2 (-100) 48);
    [exact log2_faithful_exact | unfold MINVAL, INT64_MIN; lia | lia
    | unfold MAXVAL, INT64_MAX; lia].
Defined.

(** A range that ends at [MAXVAL]: the span is found, then the low bound
    of the remainder wraps around to [MINVAL] and the call on
    [[MINVAL, -1]] computes a width of [2^63], which is negative as an
    [int64]. *)
Lemma find_ranges_at_MAXVAL :
  find_ranges Z.log2 (MAXVAL - 1) MAXVAL [] = ([(MAXVAL - 1, MAXVAL)], NoReturn)
  /\ find_ranges Z.log2 0 MAXVAL [] = ([], NoReturn).
Proof. split; vm_compute; reflexivity. Qed.

(** ** The further properties at concrete inputs *)

Lemma find_ranges_exact_witness :
  exists l, find_ranges Z.log2 14 48 [] = (l, Returned)
            /\ dyadic_tiling l 14 48.
Proof.
  apply (find_ranges_exact Z.log2 14 48);
    [exact log2_faithful_exact | unfold MINVAL, INT64_MIN; lia | lia
    | unfold MAXVAL, INT64_MAX; lia | lia].
Defined.

Lemma rangecount_from_minimum_witness :
  find_ranges Z.log2 INT64_MIN 5 [] = ([], NoReturn)
  /\ cmsketch_rangecount_c Z.log2 2 4 example_lane example_transval
       INT64_MIN 5 = NoResult.
Proof.
  apply (rangecount_from_minimum Z.log2 2 4 example_lane example_transval
           5 []).
  lia.
Defined.

Lemma rangecount_to_maximum_witness :
  (find_ranges Z.log2 (-3) INT64_MAX []).2 = NoReturn
  /\ cmsketch_rangecount_c Z.log2 2 4 example_lane example_transval
       (-3) INT64_MAX = NoResult.
Proof.
  apply (rangecount_to_maximum Z.log2 2 4 example_lane example_transval
           (-3) []).
  unfold INT64_MIN. lia.
Defined.

Lemma countmin_trans_c_increments_witness :
  rectangular 2 4 [[0; 0; 0; 1]; [1; 0; 0; 0]]
  /\ (forall i, (i < 2)%nat ->
        counter_at [[0; 0; 0; 0]; [0; 0; 0; 0]] i
          (lane_col 4 (example_lane 461 10) i) <> COUNT_CEILING)
  /\ (forall i c,
        counter_at [[0; 0; 0; 1]; [1; 0; 0; 0]] i c =
        if bool_decide ((i < 2)%nat /\ c = lane_col 4 (example_lane 461 10) i)
        then wrap64 (counter_at [[0; 0; 0; 0]; [0; 0; 0; 0]] i c + 1)
        else counter_at [[0; 0; 0; 0]; [0; 0; 0; 0]] i c).
Proof.
  apply (countmin_trans_c_increments 2 4 example_lane
           [[0; 0; 0; 0]; [0; 0; 0; 0]] 10 461
           [[0; 0; 0; 1]; [1; 0; 0; 0]] 1);
    [lia | | vm_compute; reflexivity].
  split; [reflexivity|].
  intros [|[|i]] row Hrow; simpl in Hrow; try discriminate;
    injection Hrow as <-; reflexivity.
Defined.

Lemma countmin_trans_c_raises_witness :
  MaximumCountExceeded = MaximumCountExceeded
  /\ exists r,
       (r < 1)%nat
       /\ counter_at [[COUNT_CEILING]] r (lane_col 1 (example_lane 461 7) r)
          = COUNT_CEILING
       /\ (forall i, (i < r)%nat ->
             counter_at [[COUNT_CEILING]] i (lane_col 1 (example_lane 461 7) i)
             <> COUNT_CEILING)
       /\ (forall i c,
             counter_at [[COUNT_CEILING]] i c =
             if bool_decide ((i < r)%nat
                             /\ c = lane_col 1 (example_lane 461 7) i)
             then wrap64 (counter_at [[COUNT_CEILING]] i c + 1)
             else counter_at [[COUNT_CEILING]] i c).
Proof.
  apply (countmin_trans_c_raises 1 1 example_lane [[COUNT_CEILING]] 7 461
           [[COUNT_CEILING]] MaximumCountExceeded);
    [lia | | vm_compute; reflexivity].
  split; [reflexivity|].
  intros [|i] row Hrow; simpl in Hrow; try discriminate;
    injection Hrow as <-; reflexivity.
Defined.

Lemma find_ranges_emits_blocks_witness :
  Forall dyadic_block (find_ranges Z.log2 (-100) 48 []).1.
Proof.
  apply (find_ranges_emits_blocks Z.log2 (-100) 48 []);
    [unfold in_int64, INT64_MIN, INT64_MAX; lia
    |unfold in_int64, INT64_MIN, INT64_MAX; lia
    |constructor].
Defined.

Lemma countmin_dyadic_trans_c_levels_witness :
  typOid (countmin_dyadic_trans_c 2 4 example_lane zero_transval 10).1
  = typOid zero_transval
  /\ outFuncOid (countmin_dyadic_trans_c 2 4 example_lane zero_transval 10).1
     = outFuncOid zero_transval
  /\ length (sketches
               (countmin_dyadic_trans_c 2 4 example_lane zero_transval 10).1)
     = Z.to_nat RANGES
  /\ forall j, (j < Z.to_nat RANGES)%nat ->
       exists s s' r,
         sketches zero_transval !! j = Some s
         /\ countmin_trans_c 2 4 example_lane s (10 / 2 ^ Z.of_nat j)
              (outFuncOid zero_transval) = (s', Val r)
         /\ sketches
              (countmin_dyadic_trans_c 2 4 example_lane zero_transval 10).1
            !! j = Some s'.
Proof.
  apply (countmin_dyadic_trans_c_levels 2 4 example_lane zero_transval
           (countmin_dyadic_trans_c 2 4 example_lane zero_transval 10).1
           10 tt);
    [reflexivity | vm_compute; reflexivity].
Defined.

Lemma insert_all_counts_hits_witness :
  exact_blob 2 4 example_lane example_oid example_blob [10; 20; 10].
Proof.
  apply (insert_all_counts_hits 2 4 example_lane example_oid [10; 20; 10]
           example_blob);
    [lia | vm_compute; reflexivity].
Defined.

Lemma cmsketch_combine_counts_hits_witness :
  exists t,
    cmsketch_combine 2 4 example_oid example_blob example_blob
    = Val (FullBlob t)
    /\ typOid t = INT8OID /\ outFuncOid t = example_oid INT8OID
    /\ length (sketches t) = Z.to_nat RANGES
    /\ forall j s, sketches t !! j = Some s ->
         rectangular 2 4 s
         /\ forall i c, (i < 2)%nat -> (c < 4)%nat ->
              counter_at s i c
              = level_hits 4 example_lane (example_oid INT8OID) j i c
                  ([10; 20; 10] ++ [10; 20; 10]).
Proof.
  apply (cmsketch_combine_counts_hits 2 4 example_lane example_oid
           [10; 20; 10] [10; 20; 10] example_blob example_blob);
    [lia | vm_compute; reflexivity | vm_compute; reflexivity].
Defined.

Lemma sum_spans_negative_span_witness :
  sum_spans Z.log2 2 4 example_lane example_transval
    [(-8, -8 + 2 ^ 2 - 1)] 0 =
    match sketches example_transval !! Z.to_nat 2 with
    | None => NoResult
    | Some sketch =>
        val ← cmsketch_getcount_c 2 4 example_lane sketch
                ((-8 + 2 ^ 64) / 2 ^ 2) (outFuncOid example_transval);
        sum_spans Z.log2 2 4 example_lane example_transval []
          (wrap64 (0 + val))
    end
  /\ forall v, in_int64 v -> Z.shiftr v 2 < (-8 + 2 ^ 64) / 2 ^ 2.
Proof.
  apply (sum_spans_negative_span Z.log2 2 4 example_lane example_transval
           (-8) 2 [] 0);
    [reflexivity | lia | unfold in_int64, INT64_MIN, INT64_MAX; lia | lia].
Defined.

Lemma rangecount_never_underestimates_witness :
  exists m,
    cmsketch_rangecount_c Z.log2 2 4 example_lane example_transval 5 15
    = Val m
    /\ values_within 5 15 [10; 20; 10] <= m.
Proof.
  apply (rangecount_never_underestimates Z.log2 2 4 example_lane example_oid
           [10; 20; 10] example_blob example_transval 5 15);
    [exact log2_faithful_exact | exact Z.log2_pow2 | lia | lia
    | vm_compute; reflexivity | reflexivity | simpl; lia | lia | lia
    | unfold MAXVAL, INT64_MAX; lia | lia].
Defined.

Lemma cmsketch_getcount_exact_witness :
  cmsketch_getcount 2 4 example_lane example_oid example_blob 10
  = Val (values_within 10 10 [10; 20; 10]).
Proof.
  apply (cmsketch_getcount_exact 2 4 example_lane example_oid [10; 20; 10]
           example_blob 10 0);
    [lia | vm_compute; reflexivity | lia |].
  intros u Hu Hne.
  rewrite !elem_of_cons in Hu.
  destruct Hu as [->|[->|[->|Hu]]];
    [contradiction | vm_compute; discriminate | contradiction
    | inversion Hu].
Defined.

Lemma countmin_dyadic_trans_c_raises_witness :
  (countmin_dyadic_trans_c 1 1 example_lane ceiling_transval 7).2 <> NoResult
  /\ forall t' e,
       countmin_dyadic_trans_c 1 1 example_lane ceiling_transval 7
       = (t', Elog e) ->
       e = MaximumCountExceeded
       /\ length (sketches t') = Z.to_nat RANGES
       /\ exists r,
            (r < Z.to_nat RANGES)%nat
            /\ (forall j, (r < j)%nat ->
                  sketches t' !! j = sketches ceiling_transval !! j)
            /\ (forall j, (j < r)%nat ->
                  exists s s' v,
                    sketches ceiling_transval !! j = Some s
                    /\ countmin_trans_c 1 1 example_lane s
                         (7 / 2 ^ Z.of_nat j) (outFuncOid ceiling_transval)
                       = (s', Val v)
                    /\ sketches t' !! j = Some s')
            /\ exists s s',
                 sketches ceiling_transval !! r = Some s
                 /\ countmin_trans_c 1 1 example_lane s (7 / 2 ^ Z.of_nat r)
                      (outFuncOid ceiling_transval) = (s', Elog e)
                 /\ sketches t' !! r = Some s'.
Proof.
  apply (countmin_dyadic_trans_c_raises 1 1 example_lane ceiling_transval 7).
  reflexivity.
Defined.

Lemma cmsketch_rangecount_c_returns_witness :
  exists m,
    cmsketch_rangecount_c Z.log2 2 4 example_lane example_transval (-100) 48
    = Val m
    /\ (48 < -100 -> m = 0).
Proof.
  apply (cmsketch_rangecount_c_returns Z.log2 2 4 example_lane
           example_transval (-100) 48);
    [exact log2_faithful_exact | exact Z.log2_pow2 | reflexivity
    | unfold MINVAL, INT64_MIN; lia | unfold MAXVAL, INT64_MAX; lia | lia].
Defined.

Lemma width_histogram_tiles_witness :
  exists rows,
    cmsketch_width_histogram_c Z.log2 2 4 example_lane example_transval
      10 30 2 = Val rows
    /\ Z.of_nat (length rows) = Z.min 2 (30 - 10 + 1)
    /\ consecutive 10 rows 30
    /\ Forall (fun row : Z * Z * Z =>
                 cmsketch_rangecount_c Z.log2 2 4 example_lane
                   example_transval row.1.1 row.1.2 = Val row.2) rows.
Proof.
  apply (width_histogram_tiles Z.log2 2 4 example_lane example_transval
           10 30 2);
    [exact log2_faithful_exact | exact Z.log2_pow2 | reflexivity
    | unfold MINVAL, INT64_MIN; lia | lia | unfold MAXVAL, INT64_MAX; lia
    | lia | lia].
Defined.

Lemma depth_histogram_over_100_buckets_witness :
  depth_loop Z.log2 2 4 example_lane example_transval 101 (depth_step 101) 3
    (Z.to_nat 101) 0 MINVAL <> Val [].
Proof.
  apply (depth_histogram_over_100_buckets Z.log2 2 4 example_lane
           example_transval 101 3 MINVAL []).
  lia.
Defined.

Lemma width_histogram_never_underestimates_witness :
  exists rows,
    cmsketch_width_histogram_c Z.log2 2 4 example_lane example_transval
      5 24 2 = Val rows
    /\ Forall (fun row : Z * Z * Z =>
                 values_within row.1.1 row.1.2 [10; 20; 10] <= row.2) rows
    /\ values_within 5 24 [10; 20; 10] <= rows_total rows.
Proof.
  apply (width_histogram_never_underestimates Z.log2 2 4 example_lane
           example_oid [10; 20; 10] example_blob example_transval 5 24 2);
    [exact log2_faithful_exact | exact Z.log2_pow2 | lia | lia
    | vm_compute; reflexivity | reflexivity | simpl; lia | lia | lia
    | unfold MAXVAL, INT64_MAX; lia | lia | lia].
Defined.

Lemma cmsketch_dump_overruns_witness :
  cmsketch_dump 8 1024
    (mk_transval INT8OID 461 (replicate 64 (replicate 8 (replicate 1024 1))))
  = None.
Proof.
  apply (cmsketch_dump_overruns 8 1024
           (mk_transval INT8OID 461
              (replicate 64 (replicate 8 (replicate 1024 1)))) 3);
    [vm_compute; lia | lia | lia |].
  intros i j k Hi Hj Hk. cbn [sketches].
  rewrite lookup_replicate_2 by lia.
  change (counter_at (replicate 8 (replicate 1024 1)) j k <> 0).
  rewrite counter_at_replicate by assumption. discriminate.
Defined.
